(** * A sorted linked list of integers with per-node locks (list.go)

    Shallow embedding of [ConcurrentIntList] and of its five operations,
    run by one goroutine at a time.  Nodes live in a heap that is indexed
    by pointers; every operation is a computation in a state-and-error
    monad over that heap.  Loops carry fuel; running out of it is an
    outcome of its own, distinct from a panic and from a goroutine that
    blocks on a mutex it can never get.

    Go's [int] is taken to be 64 bits wide.  Node values are only ever
    compared, never computed with, so they are integers of [Z]; the
    counter [size] is an [int64] that [atomic.AddInt64] wraps around. *)

From stdpp Require Import base option list numbers sorting.
From Stdlib Require Import ZArith Lia.

Local Open Scope Z_scope.

(** ** Data model *)

(** A [*intNode] that is not nil: an index into the heap. *)
Abbreviation ptr := nat (only parsing).

(** [type intNode struct].  An [atomic.Value] holds nothing until the
    first [Store]: [None] is the empty value, [Some x] a stored [x].
    [nextPtr] stores values of type [*intNode], which may be nil. *)
Record intNode := IntNode {
  value : Z;
  nextPtr : option (option ptr);
  markedValue : option bool;
  mutex : bool
}.

(** [type ConcurrentIntList struct]. *)
Record ConcurrentIntList := MkList {
  root : ptr;
  size : Z
}.

(** Calls that write to shared memory or to a mutex, in program order.
    The log is instrumentation: no operation reads it. *)
Inductive event :=
| EvLock (p : ptr)
| EvUnlock (p : ptr)
| EvMark (p : ptr)
| EvUpdateNext (p : ptr) (nxt : option ptr).

Record mem := Mem {
  nodes : list intNode;
  ilist : ConcurrentIntList;
  trace : list event
}.

(** [int64] arithmetic of [atomic.AddInt64]: two's complement wrap-around. *)
Definition wrap64 (z : Z) : Z := (z + 2 ^ 63) mod 2 ^ 64 - 2 ^ 63.

(** ** The monad *)

Inductive outcome (A : Type) :=
| Ok (a : A)
| Panic        (* nil dereference, unlock of an unlocked mutex *)
| Blocked      (* Lock on a mutex that is held *)
| OutOfFuel.
Arguments Ok {A} a.
Arguments Panic {A}.
Arguments Blocked {A}.
Arguments OutOfFuel {A}.

Definition M (A : Type) : Type := mem → outcome (A * mem).

#[global] Instance M_ret : MRet M := λ A a m, Ok (a, m).
#[global] Instance M_bind : MBind M := λ A B k c m,
  match c m with
  | Ok (a, m') => k a m'
  | Panic => Panic
  | Blocked => Blocked
  | OutOfFuel => OutOfFuel
  end.

Definition panic {A} : M A := λ _, Panic.
Definition blocked {A} : M A := λ _, Blocked.
Definition out_of_fuel {A} : M A := λ _, OutOfFuel.

(** Go's short-circuit [||] over computations: [b] runs only when [a]
    returned false. *)
Definition orM (a b : M bool) : M bool :=
  x ← a; (if x : bool then mret true else b) : M bool.

Definition load (p : ptr) : M intNode := λ m,
  match nodes m !! p with
  | Some nd => Ok (nd, m)
  | None => Panic
  end.

Definition store (p : ptr) (nd : intNode) : M unit := λ m,
  Ok ((), Mem (<[p := nd]> (nodes m)) (ilist m) (trace m)).

Definition emit (e : event) : M unit := λ m,
  Ok ((), Mem (nodes m) (ilist m) (trace m ++ [e])).

Definition getRoot : M ptr := λ m, Ok (root (ilist m), m).

Definition getValue (n : ptr) : M Z := nd ← load n; mret (value nd).

(** ** Node primitives *)

(** [b, ok := v.Load()] asserted to be a [bool]. *)
Definition assert_bool (v : option bool) : bool * bool :=
  match v with
  | Some b => (b, true)
  | None => (false, false)
  end.

(** [nxt, _ := v.Load()] asserted to be a node pointer. *)
Definition assert_ptr (v : option (option ptr)) : option ptr * bool :=
  match v with
  | Some p => (p, true)
  | None => (None, false)
  end.

Definition marked_of (nd : intNode) : bool :=
  let '(b, ok) := assert_bool (markedValue nd) in b && ok.

Definition next_of (nd : intNode) : option ptr :=
  fst (assert_ptr (nextPtr nd)).

Definition mark (n : ptr) : M unit :=
  nd ← load n;
  store n (IntNode (value nd) (nextPtr nd) (Some true) (mutex nd));;
  emit (EvMark n).

Definition marked (n : ptr) : M bool := nd ← load n; mret (marked_of nd).

Definition next (n : ptr) : M (option ptr) := nd ← load n; mret (next_of nd).

Definition updateNext (n : ptr) (nxt : option ptr) : M unit :=
  nd ← load n;
  store n (IntNode (value nd) (Some nxt) (markedValue nd) (mutex nd));;
  emit (EvUpdateNext n nxt).

(** [&intNode{value: value}]: a fresh address, every other field zero. *)
Definition newIntNode (val : Z) : M ptr := λ m,
  Ok (length (nodes m),
      Mem (nodes m ++ [IntNode val None None false]) (ilist m) (trace m)).

(** [n.mutex.Lock()] and [n.mutex.Unlock()]. *)
Definition Lock (n : ptr) : M unit :=
  nd ← load n;
  if mutex nd then blocked
  else store n (IntNode (value nd) (nextPtr nd) (markedValue nd) true);;
       emit (EvLock n).

Definition Unlock (n : ptr) : M unit :=
  nd ← load n;
  if mutex nd
  then store n (IntNode (value nd) (nextPtr nd) (markedValue nd) false);;
       emit (EvUnlock n)
  else panic.

(** ** The list *)

Definition NewConcurrentIntList : mem :=
  Mem [IntNode (-1) None None false] (MkList 0%nat 0) [].

Definition sizeAdd (d : Z) : M unit := λ m,
  Ok ((), Mem (nodes m)
              (MkList (root (ilist m)) (wrap64 (size (ilist m) + d)))
              (trace m)).

Definition sizeIncr : M unit := sizeAdd 1.
Definition sizeDecr : M unit := sizeAdd (-1).

Definition Len : M Z := λ m, Ok (size (ilist m), m).

(** [for next != nil && (next.marked() || next.value < value)] *)
Fixpoint Contains_loop (fuel : nat) (val : Z) (nxt : option ptr)
  : M (option ptr) :=
  match fuel with
  | O => out_of_fuel
  | S fuel' =>
      match nxt with
      | None => mret None
      | Some n =>
          go ← orM (marked n) (v ← getValue n; mret (v <? val));
          if go : bool
          then nxt' ← next n; Contains_loop fuel' val nxt'
          else mret (Some n)
      end
  end.

Definition Contains (fuel : nat) (val : Z) : M bool :=
  r ← getRoot;
  nxt ← next r;
  nxt ← Contains_loop fuel val nxt;
  match nxt with
  | None => mret false
  | Some n => v ← getValue n; mret (v =? val)
  end.

(** What one pass through the body of [Insert] or [Delete] ends in. *)
Inductive attempt :=
| Return (b : bool)
| GotoStart.

Definition ptr_eqb (a b : option ptr) : bool := bool_decide (a = b).

(** [for current != nil && current.value < value] *)
Fixpoint Insert_find (fuel : nat) (val : Z) (pre : ptr) (current : option ptr)
  : M (ptr * option ptr) :=
  match fuel with
  | O => out_of_fuel
  | S fuel' =>
      match current with
      | None => mret (pre, None)
      | Some c =>
          v ← getValue c;
          if v <? val
          then nxt ← next c; Insert_find fuel' val c nxt
          else mret (pre, Some c)
      end
  end.

(** Steps 2 to 4 of [Insert]: lock [pre], validate, link the new node. *)
Definition Insert_commit (val : Z) (pre : ptr) (current : option ptr)
  : M attempt :=
  Lock pre;;
  changed ← orM (nxt ← next pre; mret (negb (ptr_eqb nxt current)))
           (orM (marked pre)
                match current with
                | None => mret false
                | Some c => marked c
                end);
  if changed : bool
  then Unlock pre;; mret GotoStart
  else
    newNode ← newIntNode val;
    updateNext newNode current;;
    sizeIncr;;
    updateNext pre (Some newNode);;
    Unlock pre;;
    mret (Return true).

Definition Insert_attempt (fuel : nat) (val : Z) : M attempt :=
  pre ← getRoot;
  current ← next pre;
  '(pre, current) ← Insert_find fuel val pre current;
  dup ← match current with
        | None => mret false
        | Some c => v ← getValue c; mret (v =? val)
        end;
  if dup : bool then mret (Return false)
  else Insert_commit val pre current.

(** [for current != nil && (current.marked() || current.value < value)] *)
Fixpoint Delete_find (fuel : nat) (val : Z) (pre : ptr) (current : option ptr)
  : M (ptr * option ptr) :=
  match fuel with
  | O => out_of_fuel
  | S fuel' =>
      match current with
      | None => mret (pre, None)
      | Some c =>
          go ← orM (marked c) (v ← getValue c; mret (v <? val));
          if go : bool
          then nxt ← next c; Delete_find fuel' val c nxt
          else mret (pre, Some c)
      end
  end.

(** Steps 2 to 4 of [Delete]: lock [current], then [pre], validate,
    mark and unlink. *)
Definition Delete_commit (pre c : ptr) : M attempt :=
  Lock c;;
  cm ← marked c;
  if cm : bool
  then Unlock c;; mret GotoStart
  else
    Lock pre;;
    changed ← orM (nxt ← next pre; mret (negb (ptr_eqb nxt (Some c))))
                  (marked pre);
    if changed : bool
    then Unlock pre;; Unlock c;; mret GotoStart
    else
      mark c;;
      nxt ← next c;
      updateNext pre nxt;;
      sizeDecr;;
      Unlock pre;;
      Unlock c;;
      mret (Return true).

Definition Delete_attempt (fuel : nat) (val : Z) : M attempt :=
  pre ← getRoot;
  current ← next pre;
  '(pre, current) ← Delete_find fuel val pre current;
  match current with
  | None => mret (Return false)
  | Some c =>
      v ← getValue c;
      if negb (v =? val) then mret (Return false)
      else Delete_commit pre c
  end.

(** [goto start]: the body is run again, on the memory it left. *)
Fixpoint retry (retries : nat) (body : M attempt) : M bool :=
  r ← body;
  match r with
  | Return b => mret b
  | GotoStart =>
      match retries with
      | O => out_of_fuel
      | S retries' => retry retries' body
      end
  end.

Definition Insert (fuel : nat) (val : Z) : M bool :=
  retry fuel (Insert_attempt fuel val).

Definition Delete (fuel : nat) (val : Z) : M bool :=
  retry fuel (Delete_attempt fuel val).

(** [Range]: the visitor is a closure; [A] is what it captures. It is
    given the value and its own state, and answers whether to go on. *)
Fixpoint Range_loop {A} (fuel : nat) (f : Z → A → bool * A)
    (n : option ptr) (acc : A) : M A :=
  match fuel with
  | O => out_of_fuel
  | S fuel' =>
      match n with
      | None => mret acc
      | Some p =>
          v ← getValue p;
          let '(go, acc') := f v acc in
          if go : bool
          then nxt ← next p; Range_loop fuel' f nxt acc'
          else mret acc'
      end
  end.

Definition Range {A} (fuel : nat) (f : Z → A → bool * A) (acc : A) : M A :=
  r ← getRoot;
  n ← next r;
  Range_loop fuel f n acc.

(** The visitor that appends every value it is shown and never stops. *)
Definition collect (v : Z) (acc : list Z) : bool * list Z := (true, acc ++ [v]).

(** ** Sequential histories *)

Inductive call :=
| CallInsert (val : Z)
| CallDelete (val : Z).

Definition exec (fuel : nat) (c : call) : M bool :=
  match c with
  | CallInsert v => Insert fuel v
  | CallDelete v => Delete fuel v
  end.

Fixpoint run (fuel : nat) (cs : list call) : M (list bool) :=
  match cs with
  | [] => mret []
  | c :: cs' => b ← exec fuel c; bs ← run fuel cs'; mret (b :: bs)
  end.

(** The memories that completed calls on a new list leave: the states in
    which no operation is in flight. *)
Inductive reachable : mem → Prop :=
| reach_new : reachable NewConcurrentIntList
| reach_call fuel c m b m' :
    reachable m → exec fuel c m = Ok (b, m') → reachable m'.

(** ** Vocabulary of the proofs *)

(** The value and the mark of the node at [p]; [0] and [false] when
    nothing is allocated there. *)
Definition value_at (h : list intNode) (p : ptr) : Z :=
  default 0 (value <$> h !! p).

Definition marked_at (h : list intNode) (p : ptr) : bool :=
  default false (marked_of <$> h !! p).

(** [lseg h from ps to]: following [next] from [from] visits exactly the
    nodes [ps], all allocated, and then arrives at [to]. *)
Fixpoint lseg (h : list intNode) (from : option ptr) (ps : list ptr)
    (to : option ptr) : Prop :=
  match ps with
  | [] => from = to
  | p :: ps' =>
      from = Some p ∧ ∃ nd, h !! p = Some nd ∧ lseg h (next_of nd) ps' to
  end.

(** The node a search loop holds as [pre] after walking over [ps]. *)
Fixpoint last_from (pre : ptr) (ps : list ptr) : ptr :=
  match ps with
  | [] => pre
  | p :: ps' => last_from p ps'
  end.

(** The loop condition of [Contains] and of [Delete] at node [p]. *)
Definition skipped (h : list intNode) (val : Z) (p : ptr) : bool :=
  marked_at h p || (value_at h p <? val).

(** The node [nd] after [updateNext(nxt)] and after [mark()]. *)
Definition set_next (nxt : option ptr) (nd : intNode) : intNode :=
  IntNode (value nd) (Some nxt) (markedValue nd) (mutex nd).

Definition set_marked (nd : intNode) : intNode :=
  IntNode (value nd) (nextPtr nd) (Some true) (mutex nd).

(** The node at [p] is allocated, unmarked, and nobody holds its mutex. *)
Definition quiet (h : list intNode) (p : ptr) : Prop :=
  ∃ nd, h !! p = Some nd ∧ marked_of nd = false ∧ mutex nd = false.

(** The nodes that [mark] was called on, in the order of the calls. *)
Definition marks (tr : list event) : list ptr :=
  omap (λ e, match e with EvMark p => Some p | _ => None end) tr.

(** [inv m ps]: the nodes behind the sentinel are [ps], in this order. *)
Record inv (m : mem) (ps : list ptr) : Prop := {
  inv_chain :
    lseg (nodes m) (Some (root (ilist m))) (root (ilist m) :: ps) None;
  inv_nodup : NoDup (root (ilist m) :: ps);
  inv_quiet : Forall (quiet (nodes m)) (root (ilist m) :: ps);
  inv_sorted : StronglySorted Z.lt (value_at (nodes m) <$> ps);
  inv_size : size (ilist m) = wrap64 (Z.of_nat (length ps));
  inv_marks : NoDup (marks (trace m));
  inv_marked : ∀ p, p ∈ marks (trace m) → marked_at (nodes m) p = true;
  inv_off : ∀ p, (p < length (nodes m))%nat →
                 p ∉ root (ilist m) :: ps → p ∈ marks (trace m)
}.

(** The successor of the node at [p]; nil when nothing is allocated there. *)
Definition next_at (h : list intNode) (p : ptr) : option ptr :=
  default None (next_of <$> h !! p).

(** The memory after [Insert] has linked a node between [pre] and [cur]. *)
Definition insert_mem (m : mem) (val : Z) (pre : ptr) (cur : option ptr) : mem :=
  Mem (alter (set_next (Some (length (nodes m)))) pre (nodes m)
         ++ [IntNode val (Some cur) None false])
      (MkList (root (ilist m)) (wrap64 (size (ilist m) + 1)))
      (trace m ++ [EvLock pre;
                   EvUpdateNext (length (nodes m)) cur;
                   EvUpdateNext pre (Some (length (nodes m)));
                   EvUnlock pre]).

(** The memory after [Delete] has marked [c] and unlinked it from [pre]. *)
Definition delete_mem (m : mem) (pre c : ptr) : mem :=
  Mem (alter set_marked c
         (alter (set_next (next_at (nodes m) c)) pre (nodes m)))
      (MkList (root (ilist m)) (wrap64 (size (ilist m) + -1)))
      (trace m ++ [EvLock c; EvLock pre; EvMark c;
                   EvUpdateNext pre (next_at (nodes m) c);
                   EvUnlock pre; EvUnlock c]).

(** The answer of [Contains] when its loop stops at [stop]. *)
Definition found (h : list intNode) (val : Z) (stop : option ptr) : bool :=
  match stop with
  | None => false
  | Some c => value_at h c =? val
  end.

(** What a visitor has seen after [Range] over the values [vs]. *)
Fixpoint visit {A} (f : Z → A → bool * A) (vs : list Z) (acc : A) : A :=
  match vs with
  | [] => acc
  | v :: vs' =>
      let '(go, acc') := f v acc in
      if go : bool then visit f vs' acc' else acc'
  end.

(** The values behind the sentinel, in chain order. *)
Definition contents (m : mem) (ps : list ptr) : list Z :=
  value_at (nodes m) <$> ps.

(** What the call [c] that returned [b] did to the value [v]: [1] when it
    inserted [v], [-1] when it deleted [v], [0] otherwise. *)
Definition effect (v : Z) (c : call) (b : bool) : Z :=
  match c with
  | CallInsert x => if b && (x =? v) then 1 else 0
  | CallDelete x => if b && (x =? v) then -1 else 0
  end.

(** Inserted minus deleted, over the calls that returned true. *)
Fixpoint net_count (v : Z) (cs : list call) (bs : list bool) : Z :=
  match cs, bs with
  | c :: cs', b :: bs' => effect v c b + net_count v cs' bs'
  | _, _ => 0
  end.

(** Inserted minus deleted, over all calls, whatever they returned. *)
Fixpoint call_count (v : Z) (cs : list call) : Z :=
  match cs with
  | [] => 0
  | c :: cs' => effect v c true + call_count v cs'
  end.

(** [1] when [v] is in [l], [0] when it is not. *)
Definition ind (v : Z) (l : list Z) : Z := if decide (v ∈ l) then 1 else 0.

(** The memory after [Insert(5)], [Insert(1)], [Insert(3)]. *)
Definition mem_5_1_3 : mem :=
  Mem [IntNode (-1) (Some (Some 2%nat)) None false;
       IntNode 5 (Some None) None false;
       IntNode 1 (Some (Some 3%nat)) None false;
       IntNode 3 (Some (Some 1%nat)) None false]
      (MkList 0%nat 3)
      [EvLock 0%nat; EvUpdateNext 1%nat None;
       EvUpdateNext 0%nat (Some 1%nat); EvUnlock 0%nat;
       EvLock 0%nat; EvUpdateNext 2%nat (Some 1%nat);
       EvUpdateNext 0%nat (Some 2%nat); EvUnlock 0%nat;
       EvLock 2%nat; EvUpdateNext 3%nat (Some 1%nat);
       EvUpdateNext 2%nat (Some 3%nat); EvUnlock 2%nat].

(** The memory after [Insert(3)], [Insert(3)], [Delete(3)]. *)
Definition mem_3_3_del : mem :=
  Mem [IntNode (-1) (Some None) None false;
       IntNode 3 (Some None) (Some true) false]
      (MkList 0%nat 0)
      [EvLock 0%nat; EvUpdateNext 1%nat None;
       EvUpdateNext 0%nat (Some 1%nat); EvUnlock 0%nat;
       EvLock 1%nat; EvLock 0%nat; EvMark 1%nat;
       EvUpdateNext 0%nat None; EvUnlock 0%nat; EvUnlock 1%nat].

(** A list caught between the [mark] and the [updateNext] of a
    [Delete(3)]: the node holding 3 is marked and still linked. *)
Definition mem_marked_linked : mem :=
  Mem [IntNode (-1) (Some (Some 1%nat)) None true;
       IntNode 3 (Some (Some 2%nat)) (Some true) true;
       IntNode 5 (Some None) None false]
      (MkList 0%nat 2)
      [EvLock 1%nat; EvLock 0%nat; EvMark 1%nat].

(** What a call that returned [b] does to the counter. *)
Definition counter_after (c : call) (b : bool) (n : Z) : Z :=
  match c, b with
  | CallInsert _, true => wrap64 (n + 1)
  | CallDelete _, true => wrap64 (n + -1)
  | _, false => n
  end.

(** The memory after [Insert(-5)] on a new list. *)
Definition mem_neg5 : mem :=
  Mem [IntNode (-1) (Some (Some 1%nat)) None false;
       IntNode (-5) (Some None) None false]
      (MkList 0%nat 1)
      [EvLock 0%nat; EvUpdateNext 1%nat None;
       EvUpdateNext 0%nat (Some 1%nat); EvUnlock 0%nat].

(** The memory after [Insert(7)] on a new list. *)
Definition mem_7 : mem :=
  Mem [IntNode (-1) (Some (Some 1%nat)) None false;
       IntNode 7 (Some None) None false]
      (MkList 0%nat 1)
      [EvLock 0%nat; EvUpdateNext 1%nat None;
       EvUpdateNext 0%nat (Some 1%nat); EvUnlock 0%nat].

(** The node [nd] holding [s] instead of its value. *)
Definition set_value (s : Z) (nd : intNode) : intNode :=
  IntNode s (nextPtr nd) (markedValue nd) (mutex nd).

(** The memory [m] with [s] stored in the sentinel. *)
Definition with_sentinel (s : Z) (m : mem) : mem :=
  Mem (alter (set_value s) (root (ilist m)) (nodes m)) (ilist m) (trace m).

(** [mono m m']: every node marked in [m] is marked in [m']. *)
Definition mono (m m' : mem) : Prop :=
  ∀ p, marked_at (nodes m) p = true → marked_at (nodes m') p = true.

(** [keeps c]: whenever [c] returns, it has reset no mark. *)
Definition keeps {A} (c : M A) : Prop :=
  ∀ m a m', c m = Ok (a, m') → mono m m'.

(** The memory after [Delete(3)] on [mem_5_1_3]. *)
Definition mem_5_1_del3 : mem :=
  Mem [IntNode (-1) (Some (Some 2%nat)) None false;
       IntNode 5 (Some None) None false;
       IntNode 1 (Some (Some 1%nat)) None false;
       IntNode 3 (Some (Some 1%nat)) (Some true) false]
      (MkList 0%nat 2)
      [EvLock 0%nat; EvUpdateNext 1%nat None;
       EvUpdateNext 0%nat (Some 1%nat); EvUnlock 0%nat;
       EvLock 0%nat; EvUpdateNext 2%nat (Some 1%nat);
       EvUpdateNext 0%nat (Some 2%nat); EvUnlock 0%nat;
       EvLock 2%nat; EvUpdateNext 3%nat (Some 1%nat);
       EvUpdateNext 2%nat (Some 3%nat); EvUnlock 2%nat;
       EvLock 3%nat; EvLock 2%nat; EvMark 3%nat;
       EvUpdateNext 2%nat (Some 1%nat); EvUnlock 2%nat; EvUnlock 3%nat].

(** What a successful [Delete(v)] logs and leaves: it marks the node [c]
    that holds [v], and only then makes its predecessor skip it. *)
Definition delete_step (m m' : mem) (v : Z) (pre c : ptr) : Prop :=
  next_at (nodes m) pre = Some c ∧
  value_at (nodes m) c = v ∧
  marked_at (nodes m) c = false ∧
  trace m' = trace m ++ [EvLock c; EvLock pre; EvMark c;
                         EvUpdateNext pre (next_at (nodes m) c);
                         EvUnlock pre; EvUnlock c] ∧
  marked_at (nodes m') c = true ∧
  next_at (nodes m') pre = next_at (nodes m) c.

(** What a successful [Insert(v)] logs and leaves: the new node points
    to the old successor of [pre], so the update of [pre] unlinks nothing. *)
Definition insert_step (m m' : mem) (v : Z) (pre : ptr) : Prop :=
  trace m' = trace m ++ [EvLock pre;
                         EvUpdateNext (length (nodes m))
                                      (next_at (nodes m) pre);
                         EvUpdateNext pre (Some (length (nodes m)));
                         EvUnlock pre] ∧
  next_at (nodes m') pre = Some (length (nodes m)) ∧
  next_at (nodes m') (length (nodes m)) = next_at (nodes m) pre ∧
  value_at (nodes m') (length (nodes m)) = v ∧
  marked_at (nodes m') (length (nodes m)) = false.

(** Every allocated node is either on the chain and unmarked, or off the
    chain, marked, and logged as marked. *)
Definition linked_or_marked (m : mem) (ps : list ptr) : Prop :=
  ∀ p, (p < length (nodes m))%nat →
    if decide (p ∈ root (ilist m) :: ps)
    then marked_at (nodes m) p = false ∧ p ∉ marks (trace m)
    else marked_at (nodes m) p = true ∧ p ∈ marks (trace m).

(** ** A set of integers, as the reference for histories *)

(** The argument of a call. *)
Definition arg (c : call) : Z :=
  match c with
  | CallInsert v => v
  | CallDelete v => v
  end.

(** What a set of integers [s], kept as a list in any order, answers to a
    call, and the set after it: [Insert(v)] answers whether [v] is new and
    adds it, [Delete(v)] answers whether [v] is there and removes it. *)
Definition set_exec (c : call) (s : list Z) : bool * list Z :=
  match c with
  | CallInsert v => (negb (bool_decide (v ∈ s)), v :: s)
  | CallDelete v => (bool_decide (v ∈ s), filter (λ x, x ≠ v) s)
  end.

Fixpoint set_run (cs : list call) (s : list Z) : list bool * list Z :=
  match cs with
  | [] => ([], s)
  | c :: cs' =>
      let '(b, s1) := set_exec c s in
      let '(bs, s2) := set_run cs' s1 in
      (b :: bs, s2)
  end.

(** What the call [c] that returned [b] adds to the number of values. *)
Definition delta (c : call) (b : bool) : Z :=
  match c, b with
  | CallInsert _, true => 1
  | CallDelete _, true => -1
  | _, false => 0
  end.

(** Calls of [Insert] that returned true minus calls of [Delete] that
    returned true. *)
Fixpoint balance (cs : list call) (bs : list bool) : Z :=
  match cs, bs with
  | c :: cs', b :: bs' => delta c b + balance cs' bs'
  | _, _ => 0
  end.

(** ** Visitors and frames *)

(** The visitor that appends every value it is shown and asks for more
    as long as [p] holds of the value. *)
Definition collect_while (p : Z → bool) (v : Z) (acc : list Z)
  : bool * list Z :=
  (p v, acc ++ [v]).

(** [reads c]: on every memory, [c] never waits for a mutex, and when it
    returns it has left the memory, log included, as it was. *)
Definition reads {A} (c : M A) : Prop :=
  ∀ m, c m ≠ Blocked ∧ ∀ a m', c m = Ok (a, m') → m' = m.

(** [values_kept m m']: every node allocated in [m] is still allocated in
    [m'] and holds the value it held. *)
Definition values_kept (m m' : mem) : Prop :=
  ∀ p nd, nodes m !! p = Some nd →
          ∃ nd', nodes m' !! p = Some nd' ∧ value nd' = value nd.

(** [immutable c]: whenever [c] returns, it has freed no node and
    changed no node's value. *)
Definition immutable {A} (c : M A) : Prop :=
  ∀ m a m', c m = Ok (a, m') → values_kept m m'.

(** The test of step 3 of [Insert], on the node [ndp] at [pre]: true when
    the neighbourhood found by the search is no longer what the heap [h]
    holds. *)
Definition insert_stale (h : list intNode) (ndp : intNode) (cur : option ptr)
  : bool :=
  negb (ptr_eqb (next_of ndp) cur)
  || marked_of ndp
  || match cur with
     | None => false
     | Some c => marked_at h c
     end.

(** The second test of [Delete], under both locks. *)
Definition delete_stale (ndp : intNode) (c : ptr) : bool :=
  negb (ptr_eqb (next_of ndp) (Some c)) || marked_of ndp.

(** The memory [m] with the events [evs] appended to its log. *)
Definition logged (m : mem) (evs : list event) : mem :=
  Mem (nodes m) (ilist m) (trace m ++ evs).

(** What one pass through the body of [Insert] or [Delete] can end in,
    on any memory: a return of true, a return of false with the memory
    as it was, or [goto start] with the nodes and the counter as they
    were. *)
Definition pass_ok (m : mem) (r : attempt) (m' : mem) : Prop :=
  r = Return true ∨
  (r = Return false ∧ m' = m) ∨
  (r = GotoStart ∧ nodes m' = nodes m ∧ ilist m' = ilist m).

(** The events of an [Insert] that linked the node [new] between [pre]
    and [cur], and of a [Delete] that unlinked [c] from [pre]. *)
Definition insert_events (pre new : ptr) (cur : option ptr) : list event :=
  [EvLock pre; EvUpdateNext new cur; EvUpdateNext pre (Some new);
   EvUnlock pre].

Definition delete_events (pre c : ptr) (nxt : option ptr) : list event :=
  [EvLock c; EvLock pre; EvMark c; EvUpdateNext pre nxt;
   EvUnlock pre; EvUnlock c].

(** What the call [c] that returned [b] on the heap [h] appended to the
    trace. *)
Definition protocol (h : list intNode) (c : call) (b : bool)
    (evs : list event) : Prop :=
  match c, b with
  | _, false => evs = []
  | CallInsert _, true =>
      ∃ pre cur, pre ≠ length h ∧ evs = insert_events pre (length h) cur
  | CallDelete v, true =>
      ∃ pre c, pre ≠ c ∧ value_at h c = v ∧
        evs = delete_events pre c (next_at h c)
  end.

Example run_5_1_3 :
  (bs ← run 4 [CallInsert 5; CallInsert 1; CallInsert 3];
   out ← Range 4 collect [];
   n ← Len;
   mret (bs, out, n)) NewConcurrentIntList
  = Ok (([true; true; true], [1; 3; 5], 3), mem_5_1_3).
Proof. reflexivity. Qed.

(** ** Reasoning about the monad *)

Lemma bind_ok {A B} (c : M A) (k : A → M B) m a m' :
  c m = Ok (a, m') → (c ≫= k) m = k a m'.
Proof. intros H. unfold mbind, M_bind. by rewrite H. Qed.

Lemma bind_out_of_fuel {A B} (c : M A) (k : A → M B) m :
  c m = OutOfFuel → (c ≫= k) m = OutOfFuel.
Proof. intros H. unfold mbind, M_bind. by rewrite H. Qed.

Section primitives.
Context (m : mem) (p : ptr) (nd : intNode).
Hypothesis Hp : nodes m !! p = Some nd.

Lemma load_ok : load p m = Ok (nd, m).
Proof using Hp. unfold load. by rewrite Hp. Qed.

Lemma getValue_ok : getValue p m = Ok (value nd, m).
Proof using Hp. unfold getValue. by rewrite (bind_ok _ _ _ _ _ load_ok). Qed.

Lemma marked_ok : marked p m = Ok (marked_of nd, m).
Proof using Hp. unfold marked. by rewrite (bind_ok _ _ _ _ _ load_ok). Qed.

Lemma next_ok : next p m = Ok (next_of nd, m).
Proof using Hp. unfold next. by rewrite (bind_ok _ _ _ _ _ load_ok). Qed.

Lemma updateNext_ok nxt :
  updateNext p nxt m =
    Ok ((), Mem (<[p := IntNode (value nd) (Some nxt) (markedValue nd) (mutex nd)]>
                   (nodes m))
                (ilist m) (trace m ++ [EvUpdateNext p nxt])).
Proof using Hp. unfold updateNext. by rewrite (bind_ok _ _ _ _ _ load_ok). Qed.

Lemma mark_ok :
  mark p m =
    Ok ((), Mem (<[p := IntNode (value nd) (nextPtr nd) (Some true) (mutex nd)]>
                   (nodes m))
                (ilist m) (trace m ++ [EvMark p])).
Proof using Hp. unfold mark. by rewrite (bind_ok _ _ _ _ _ load_ok). Qed.

Lemma Lock_ok :
  mutex nd = false →
  Lock p m =
    Ok ((), Mem (<[p := IntNode (value nd) (nextPtr nd) (markedValue nd) true]>
                   (nodes m))
                (ilist m) (trace m ++ [EvLock p])).
Proof using Hp.
  intros Hm. unfold Lock. rewrite (bind_ok _ _ _ _ _ load_ok). by rewrite Hm.
Qed.

Lemma Unlock_ok :
  mutex nd = true →
  Unlock p m =
    Ok ((), Mem (<[p := IntNode (value nd) (nextPtr nd) (markedValue nd) false]>
                   (nodes m))
                (ilist m) (trace m ++ [EvUnlock p])).
Proof using Hp.
  intros Hm. unfold Unlock. rewrite (bind_ok _ _ _ _ _ load_ok). by rewrite Hm.
Qed.
End primitives.

(** ** Chains of nodes *)

Lemma lseg_app h from ps1 ps2 to :
  lseg h from (ps1 ++ ps2) to ↔ ∃ mid, lseg h from ps1 mid ∧ lseg h mid ps2 to.
Proof.
  revert from. induction ps1 as [|p ps1 IH]; intros from; simpl.
  - split; [intros H; by exists from | by intros (mid & -> & H)].
  - split.
    + intros (-> & nd & Hnd & H). apply IH in H as (mid & H1 & H2).
      exists mid. eauto.
    + intros (mid & (-> & nd & Hnd & H1) & H2). split; [done|].
      exists nd. split; [done|]. apply IH. eauto.
Qed.

Lemma lseg_alloc h from ps to :
  lseg h from ps to → Forall (λ p, (p < length h)%nat) ps.
Proof.
  revert from. induction ps as [|p ps IH]; intros from; simpl; [constructor|].
  intros (-> & nd & Hnd & H). constructor; [by eapply lookup_lt_Some | eauto].
Qed.

(** A chain depends only on the nodes that lie on it. *)
Lemma lseg_ext h h' from ps to :
  (∀ p, p ∈ ps → h' !! p = h !! p) → lseg h from ps to → lseg h' from ps to.
Proof.
  revert from. induction ps as [|p ps IH]; intros from Hagree; simpl; [done|].
  intros (-> & nd & Hnd & H). split; [done|]. exists nd. split.
  - rewrite Hagree; [done | left].
  - apply IH; [|done]. intros q Hq. apply Hagree. by right.
Qed.

Lemma lseg_functional h from ps1 ps2 :
  lseg h from ps1 None → lseg h from ps2 None → ps1 = ps2.
Proof.
  revert from ps2. induction ps1 as [|p ps1 IH]; intros from [|q ps2]; simpl.
  - done.
  - intros -> (? & _). done.
  - intros (-> & _) ?. done.
  - intros (-> & nd & Hnd & H1) (Heq & nd' & Hnd' & H2). simplify_eq.
    f_equal. eauto.
Qed.

Lemma last_from_snoc pre ps :
  ∃ front, pre :: ps = front ++ [last_from pre ps].
Proof.
  revert pre. induction ps as [|p ps IH]; intros pre; simpl.
  - by exists [].
  - destruct (IH p) as (front & ->). by exists (pre :: front).
Qed.

(** ** Contains on an arbitrary chain *)

Lemma skip_test_ok m n nd val :
  nodes m !! n = Some nd →
  orM (marked n) (v ← getValue n; mret (v <? val)) m
  = Ok (skipped (nodes m) val n, m).
Proof.
  intros Hn. unfold orM, skipped, marked_at, value_at. rewrite Hn. simpl.
  rewrite (bind_ok _ _ _ _ _ (marked_ok _ _ _ Hn)).
  destruct (marked_of nd); [done|].
  by rewrite (bind_ok _ _ _ _ _ (getValue_ok _ _ _ Hn)).
Qed.

(** The loop runs over the skipped nodes [l1] and stops at [to]. *)
Lemma Contains_loop_spec m val l1 to fuel from :
  lseg (nodes m) from l1 to →
  Forall (λ p, skipped (nodes m) val p = true) l1 →
  match to with
  | None => True
  | Some c => is_Some (nodes m !! c) ∧ skipped (nodes m) val c = false
  end →
  Contains_loop fuel val from m
  = if decide (length l1 < fuel)%nat then Ok (to, m) else OutOfFuel.
Proof.
  intros Hseg Hskip Hto. revert fuel from Hseg.
  induction Hskip as [|p l1 Hp Hskip IH]; intros fuel from; simpl.
  - intros ->. destruct fuel as [|fuel]; [done|]. simpl.
    destruct to as [c|]; [|done].
    destruct Hto as [[nd Hnd] Hc].
    rewrite (bind_ok _ _ _ _ _ (skip_test_ok _ _ _ _ Hnd)). by rewrite Hc.
  - intros (-> & nd & Hnd & Hseg). destruct fuel as [|fuel]; [done|]. simpl.
    rewrite (bind_ok _ _ _ _ _ (skip_test_ok _ _ _ _ Hnd)), Hp.
    rewrite (bind_ok _ _ _ _ _ (next_ok _ _ _ Hnd)).
    rewrite (IH _ _ Hseg). repeat case_decide; done || lia.
Qed.

(** Every list splits at the first node the loop does not skip. *)
Lemma skipped_split (P : ptr → bool) (ps : list ptr) :
  ∃ l1 l2, ps = l1 ++ l2 ∧ Forall (λ p, P p = true) l1 ∧
    match l2 with [] => True | c :: _ => P c = false end.
Proof.
  induction ps as [|p ps (l1 & l2 & -> & Hl1 & Hl2)].
  - by exists [], [].
  - destruct (P p) eqn:Hp.
    + exists (p :: l1), l2. eauto.
    + exists [], (p :: l1 ++ l2). eauto.
Qed.

(** ** The commit phases, on a quiet neighbourhood *)

Lemma ptr_eqb_refl a : ptr_eqb a a = true.
Proof. unfold ptr_eqb. by apply bool_decide_eq_true. Qed.

Lemma Insert_commit_ok m val pre current ndp :
  nodes m !! pre = Some ndp →
  mutex ndp = false → marked_of ndp = false → next_of ndp = current →
  match current with
  | None => True
  | Some c => marked_at (nodes m) c = false ∧ is_Some (nodes m !! c)
  end →
  Insert_commit val pre current m
  = Ok (Return true,
        Mem (<[pre := set_next (Some (length (nodes m))) ndp]> (nodes m)
               ++ [IntNode val (Some current) None false])
            (MkList (root (ilist m)) (wrap64 (size (ilist m) + 1)))
            (trace m ++ [EvLock pre;
                         EvUpdateNext (length (nodes m)) current;
                         EvUpdateNext pre (Some (length (nodes m)));
                         EvUnlock pre])).
Proof.
  intros Hpre Hmx Hmk Hnx Hcur.
  destruct m as [h il tr]. simpl in *.
  assert (Hlt : (pre < length h)%nat) by by eapply lookup_lt_Some.
  destruct ndp as [v np mv mx]. simpl in Hmx. subst mx.
  unfold Insert_commit.
  erewrite bind_ok; [|by eapply Lock_ok]. simpl.
  set (h1 := <[pre := _]> h).
  assert (H1 : h1 !! pre = Some (IntNode v np mv true))
    by by apply list_lookup_insert_eq.
  set (m1 := Mem h1 _ _).
  assert (Hchanged :
    orM (nxt ← next pre; mret (negb (ptr_eqb nxt current)))
        (orM (marked pre)
             match current with None => mret false | Some c => marked c end) m1
    = Ok (false, m1)).
  { unfold orM at 1.
    erewrite bind_ok; [|erewrite bind_ok; [|by eapply next_ok]; reflexivity].
    change (next_of (IntNode v np mv true)) with (next_of (IntNode v np mv false)).
    rewrite Hnx, ptr_eqb_refl. simpl. unfold orM.
    erewrite bind_ok; [|by eapply marked_ok].
    change (marked_of (IntNode v np mv true))
      with (marked_of (IntNode v np mv false)).
    rewrite Hmk. destruct current as [c|]; [|done].
    destruct Hcur as [Hcm [ndc Hc]].
    assert (Hc1 : ∃ ndc', h1 !! c = Some ndc' ∧ marked_of ndc' = false).
    { unfold marked_at in Hcm. rewrite Hc in Hcm. simpl in Hcm.
      destruct (decide (pre = c)) as [->|Hne].
      - exists (IntNode v np mv true). split; [done|].
        rewrite Hpre in Hc. by simplify_eq.
      - exists ndc. split; [|done]. subst h1.
        by rewrite list_lookup_insert_ne. }
    destruct Hc1 as (ndc' & Hc1 & Hcm1).
    erewrite marked_ok by exact Hc1. by rewrite Hcm1. }
  rewrite (bind_ok _ _ _ _ _ Hchanged). simpl.
  unfold newIntNode at 1, mbind at 1, M_bind at 1. simpl.
  assert (Hlen1 : length h1 = length h) by apply length_insert.
  erewrite bind_ok; [|eapply updateNext_ok; simpl; rewrite Hlen1;
                      by apply list_lookup_middle].
  unfold sizeIncr, sizeAdd at 1, mbind at 1, M_bind at 1. simpl.
  erewrite bind_ok; cycle 1.
  { eapply updateNext_ok. simpl. rewrite Hlen1.
    rewrite list_lookup_insert_ne by lia.
    rewrite lookup_app_l by lia. exact H1. }
  simpl.
  erewrite bind_ok; cycle 1.
  { eapply Unlock_ok; simpl.
    - apply list_lookup_insert_eq. rewrite length_insert, length_app. lia.
    - reflexivity. }
  simpl. unfold mret, M_ret. do 3 f_equal.
  - rewrite list_insert_insert_eq, Hlen1. unfold set_next. simpl.
    rewrite <- Hlen1 at 2. rewrite (insert_app_r_alt h1) by lia.
    rewrite Hlen1, Nat.sub_diag. simpl.
    rewrite insert_app_l by lia. subst h1.
    by rewrite list_insert_insert_eq.
  - by rewrite Hlen1, <- !app_assoc.
Qed.

Lemma Delete_commit_ok m pre c ndp ndc :
  nodes m !! pre = Some ndp → nodes m !! c = Some ndc → pre ≠ c →
  mutex ndp = false → marked_of ndp = false → next_of ndp = Some c →
  mutex ndc = false → marked_of ndc = false →
  Delete_commit pre c m
  = Ok (Return true,
        Mem (<[c := set_marked ndc]>
               (<[pre := set_next (next_of ndc) ndp]> (nodes m)))
            (MkList (root (ilist m)) (wrap64 (size (ilist m) + -1)))
            (trace m ++ [EvLock c; EvLock pre; EvMark c;
                         EvUpdateNext pre (next_of ndc);
                         EvUnlock pre; EvUnlock c])).
Proof.
  intros Hpre Hc Hne Hpx Hpm Hpn Hcx Hcm.
  destruct m as [h il tr]. simpl in *.
  assert (Hlp : (pre < length h)%nat) by by eapply lookup_lt_Some.
  assert (Hlc : (c < length h)%nat) by by eapply lookup_lt_Some.
  destruct ndp as [pv pn pk px], ndc as [cv cn ck cx]. simpl in Hpx, Hcx.
  subst px cx. unfold Delete_commit.
  erewrite bind_ok; [|by eapply Lock_ok]. simpl.
  erewrite bind_ok; cycle 1.
  { eapply marked_ok. simpl. by apply list_lookup_insert_eq. }
  change (marked_of (IntNode cv cn ck true))
    with (marked_of (IntNode cv cn ck false)).
  rewrite Hcm.
  erewrite bind_ok; cycle 1.
  { eapply Lock_ok; simpl.
    - rewrite list_lookup_insert_ne by done. exact Hpre.
    - reflexivity. }
  simpl.
  erewrite bind_ok; cycle 1.
  { unfold orM. erewrite bind_ok; cycle 1.
    { erewrite bind_ok; [reflexivity|]. eapply next_ok. simpl.
      apply list_lookup_insert_eq. by rewrite length_insert. }
    change (next_of (IntNode pv pn pk true))
      with (next_of (IntNode pv pn pk false)).
    rewrite Hpn, ptr_eqb_refl. simpl.
    eapply marked_ok. simpl.
    apply list_lookup_insert_eq. by rewrite length_insert. }
  change (marked_of (IntNode pv pn pk true))
    with (marked_of (IntNode pv pn pk false)).
  rewrite Hpm.
  erewrite bind_ok; cycle 1.
  { eapply mark_ok. simpl. rewrite list_lookup_insert_ne by done.
    by apply list_lookup_insert_eq. }
  simpl.
  erewrite bind_ok; cycle 1.
  { eapply next_ok. simpl.
    apply list_lookup_insert_eq. by rewrite !length_insert. }
  erewrite bind_ok; cycle 1.
  { eapply updateNext_ok. simpl. rewrite list_lookup_insert_ne by done.
    apply list_lookup_insert_eq. by rewrite length_insert. }
  simpl. unfold sizeDecr, sizeAdd at 1, mbind at 1, M_bind at 1. simpl.
  erewrite bind_ok; cycle 1.
  { eapply Unlock_ok; simpl.
    - apply list_lookup_insert_eq. by rewrite !length_insert.
    - reflexivity. }
  simpl.
  erewrite bind_ok; cycle 1.
  { eapply Unlock_ok; simpl.
    - rewrite list_lookup_insert_ne by done.
      rewrite list_lookup_insert_ne by done.
      apply list_lookup_insert_eq. by rewrite !length_insert.
    - reflexivity. }
  simpl. unfold mret, M_ret. do 3 f_equal.
  - unfold set_marked, set_next. simpl.
    apply list_eq. intros i.
    destruct (decide (i = c)) as [->|Hic].
    { by rewrite !list_lookup_insert_eq by (rewrite ?length_insert; done). }
    rewrite !(list_lookup_insert_ne _ c i) by done.
    destruct (decide (i = pre)) as [->|Hip].
    { by rewrite !list_lookup_insert_eq by (rewrite ?length_insert; done). }
    by repeat (rewrite list_lookup_insert_ne by done).
  - by rewrite <- !app_assoc.
Qed.

(** ** The search loops *)

Lemma Insert_find_spec m val l1 to fuel pre from :
  lseg (nodes m) from l1 to →
  Forall (λ p, value_at (nodes m) p < val) l1 →
  match to with
  | None => True
  | Some c => is_Some (nodes m !! c) ∧ val ≤ value_at (nodes m) c
  end →
  Insert_find fuel val pre from m
  = if decide (length l1 < fuel)%nat
    then Ok ((last_from pre l1, to), m) else OutOfFuel.
Proof.
  intros Hseg Hlt Hto. revert fuel pre from Hseg.
  induction Hlt as [|p l1 Hp Hlt IH]; intros fuel pre from; simpl.
  - intros ->. destruct fuel as [|fuel]; [done|]. simpl.
    destruct to as [c|]; [|done].
    destruct Hto as [[nd Hnd] Hc]. unfold value_at in Hc. rewrite Hnd in Hc.
    rewrite (bind_ok _ _ _ _ _ (getValue_ok _ _ _ Hnd)).
    simpl in Hc. by rewrite (proj2 (Z.ltb_ge _ _) Hc).
  - intros (-> & nd & Hnd & Hseg). destruct fuel as [|fuel]; [done|]. simpl.
    unfold value_at in Hp. rewrite Hnd in Hp. simpl in Hp.
    rewrite (bind_ok _ _ _ _ _ (getValue_ok _ _ _ Hnd)).
    rewrite (proj2 (Z.ltb_lt _ _) Hp).
    rewrite (bind_ok _ _ _ _ _ (next_ok _ _ _ Hnd)).
    rewrite (IH _ _ _ Hseg). repeat case_decide; done || lia.
Qed.

Lemma Delete_find_spec m val l1 to fuel pre from :
  lseg (nodes m) from l1 to →
  Forall (λ p, skipped (nodes m) val p = true) l1 →
  match to with
  | None => True
  | Some c => is_Some (nodes m !! c) ∧ skipped (nodes m) val c = false
  end →
  Delete_find fuel val pre from m
  = if decide (length l1 < fuel)%nat
    then Ok ((last_from pre l1, to), m) else OutOfFuel.
Proof.
  intros Hseg Hskip Hto. revert fuel pre from Hseg.
  induction Hskip as [|p l1 Hp Hskip IH]; intros fuel pre from; simpl.
  - intros ->. destruct fuel as [|fuel]; [done|]. simpl.
    destruct to as [c|]; [|done].
    destruct Hto as [[nd Hnd] Hc].
    rewrite (bind_ok _ _ _ _ _ (skip_test_ok _ _ _ _ Hnd)). by rewrite Hc.
  - intros (-> & nd & Hnd & Hseg). destruct fuel as [|fuel]; [done|]. simpl.
    rewrite (bind_ok _ _ _ _ _ (skip_test_ok _ _ _ _ Hnd)), Hp.
    rewrite (bind_ok _ _ _ _ _ (next_ok _ _ _ Hnd)).
    rewrite (IH _ _ _ Hseg). repeat case_decide; done || lia.
Qed.

(** ** The invariant of a list at rest *)

Lemma inv_new : inv NewConcurrentIntList [].
Proof.
  split; simpl; try done.
  - split; [done|]. by eexists.
  - apply NoDup_singleton.
  - repeat constructor. by eexists.
  - constructor.
  - constructor.
  - intros p Hp. inversion Hp.
  - intros [|p] Hlt Hnot; [|simpl in Hlt; lia].
    exfalso. apply Hnot. left.
Qed.

Lemma quiet_unmarked h p : quiet h p → marked_at h p = false.
Proof. intros (nd & Hnd & Hm & _). unfold marked_at. by rewrite Hnd. Qed.

Lemma quiet_skipped h val p :
  quiet h p → skipped h val p = (value_at h p <? val).
Proof. intros Hq. unfold skipped. by rewrite (quiet_unmarked _ _ Hq). Qed.

(** A sorted chain splits into the values below [val] and the rest. *)
Lemma sorted_split h val ps :
  StronglySorted Z.lt (value_at h <$> ps) →
  ∃ l1 l2, ps = l1 ++ l2 ∧
    Forall (λ p, value_at h p < val) l1 ∧
    Forall (λ p, val ≤ value_at h p) l2.
Proof.
  intros Hsort.
  destruct (skipped_split (λ p, value_at h p <? val) ps)
    as (l1 & l2 & -> & Hl1 & Hl2).
  exists l1, l2. split; [done|]. split.
  - eapply Forall_impl; [exact Hl1|]. intros p Hp. by apply Z.ltb_lt.
  - rewrite fmap_app in Hsort. apply StronglySorted_app in Hsort as (_ & _ & H2).
    destruct l2 as [|c l2]; [constructor|].
    apply Z.ltb_ge in Hl2. rewrite fmap_cons in H2.
    apply StronglySorted_cons in H2 as [Hall _].
    constructor; [done|].
    rewrite Forall_fmap in Hall. eapply Forall_impl; [exact Hall|].
    simpl. intros; lia.
Qed.

Lemma split_elem h val l1 l2 :
  StronglySorted Z.lt (value_at h <$> l1 ++ l2) →
  Forall (λ p, value_at h p < val) l1 →
  Forall (λ p, val ≤ value_at h p) l2 →
  val ∈ value_at h <$> l1 ++ l2 ↔
  ∃ c, head l2 = Some c ∧ value_at h c = val.
Proof.
  intros Hsort H1 H2. rewrite fmap_app, elem_of_app. split.
  - intros [Hin|Hin].
    + apply list_elem_of_fmap in Hin as (p & -> & Hp).
      rewrite Forall_forall in H1. specialize (H1 _ Hp). lia.
    + destruct l2 as [|c l2]; [inversion Hin|]. exists c. split; [done|].
      rewrite fmap_cons in Hin. apply elem_of_cons in Hin as [->|Hin]; [done|].
      rewrite fmap_app in Hsort.
      apply StronglySorted_app in Hsort as (_ & _ & Hs).
      rewrite fmap_cons in Hs. apply StronglySorted_cons in Hs as [Hall _].
      rewrite Forall_forall in Hall. specialize (Hall _ Hin).
      apply Forall_cons in H2 as [Hc _]. lia.
  - intros (c & Hc & <-). right. destruct l2 as [|c' l2]; [done|].
    simpl in Hc. simplify_eq. rewrite fmap_cons. left.
Qed.

Lemma insert_as_alter {A} (f : A → A) (l : list A) i x :
  l !! i = Some x → <[i := f x]> l = alter f i l.
Proof.
  intros Hi. rewrite list_insert_alter. apply list_alter_ext; [|done].
  intros y Hy. by simplify_eq.
Qed.

Lemma lseg_head h mid ps :
  lseg h mid ps None → mid = head ps ∧
  match head ps with Some c => is_Some (h !! c) | None => True end.
Proof.
  destruct ps as [|c ps]; simpl; [done|].
  intros (-> & nd & Hnd & _). eauto.
Qed.

Lemma last_from_in pre ps : last_from pre ps ∈ pre :: ps.
Proof.
  revert pre. induction ps as [|p ps IH]; intros pre; simpl; [left|].
  right. apply IH.
Qed.

Lemma lseg_last h pre nd ps to :
  h !! pre = Some nd → lseg h (next_of nd) ps to →
  ∃ ndp, h !! last_from pre ps = Some ndp ∧ next_of ndp = to.
Proof.
  revert pre nd. induction ps as [|p ps IH]; intros pre nd Hnd; simpl.
  - intros <-. eauto.
  - intros (Hnx & nd' & Hnd' & Hseg). eauto.
Qed.

Lemma head_facts h val (l : list ptr) :
  Forall (λ p, val ≤ value_at h p) l → (∀ p, p ∈ l → quiet h p) →
  match head l with
  | None => True
  | Some c => is_Some (h !! c) ∧ val ≤ value_at h c ∧ quiet h c
  end.
Proof.
  destruct l as [|c l]; simpl; [done|]. intros [Hc _]%Forall_cons Hq.
  assert (Hqc : quiet h c) by (apply Hq; left).
  split; [|done]. destruct Hqc as (nd & -> & _). by eexists.
Qed.

(** ** What one attempt does to a list at rest *)

Section attempts.
Context (m : mem) (l1 l2 : list ptr) (val : Z).
Hypothesis Hinv : inv m (l1 ++ l2).
Hypothesis Hl1 : Forall (λ p, value_at (nodes m) p < val) l1.
Hypothesis Hl2 : Forall (λ p, val ≤ value_at (nodes m) p) l2.

Let r := root (ilist m).
Let pre := last_from r l1.

Lemma attempt_root :
  ∃ nr, nodes m !! r = Some nr ∧
    lseg (nodes m) (next_of nr) l1 (head l2) ∧
    lseg (nodes m) (head l2) l2 None.
Proof using Hinv.
  destruct (inv_chain _ _ Hinv) as (_ & nr & Hnr & Hseg).
  apply lseg_app in Hseg as (mid & Hs1 & Hs2).
  destruct (lseg_head _ _ _ Hs2) as [-> _]. eauto.
Qed.

Lemma attempt_pre :
  ∃ ndp, nodes m !! pre = Some ndp ∧ next_of ndp = head l2 ∧
    marked_of ndp = false ∧ mutex ndp = false.
Proof using Hinv.
  destruct attempt_root as (nr & Hnr & Hs1 & _).
  destruct (lseg_last _ _ _ _ _ Hnr Hs1) as (ndp & Hp & Hnx).
  exists ndp. split; [done|]. split; [done|].
  pose proof (inv_quiet _ _ Hinv) as Hq. rewrite Forall_forall in Hq.
  destruct (Hq pre) as (nd & Hnd & Hm & Hx).
  { pose proof (last_from_in r l1) as Hin. fold pre in Hin.
    rewrite app_comm_cons. apply elem_of_app. by left. }
  unfold pre in *. rewrite Hp in Hnd. by simplify_eq.
Qed.

Lemma attempt_quiet p : p ∈ l1 ++ l2 → quiet (nodes m) p.
Proof using Hinv.
  intros Hp. pose proof (inv_quiet _ _ Hinv) as Hq.
  rewrite Forall_forall in Hq. apply Hq. by right.
Qed.

Lemma attempt_head :
  match head l2 with
  | None => True
  | Some c => is_Some (nodes m !! c) ∧ val ≤ value_at (nodes m) c
              ∧ quiet (nodes m) c
  end.
Proof using Hinv Hl2.
  apply head_facts; [done|]. intros p Hp. apply attempt_quiet.
  apply elem_of_app. by right.
Qed.

Lemma Insert_attempt_spec fuel :
  Insert_attempt fuel val m
  = if decide (length l1 < fuel)%nat
    then if decide (val ∈ value_at (nodes m) <$> l1 ++ l2)
         then Ok (Return false, m)
         else Ok (Return true, insert_mem m val pre (head l2))
    else OutOfFuel.
Proof using Hinv Hl1 Hl2.
  destruct attempt_root as (nr & Hnr & Hs1 & Hs2).
  destruct attempt_pre as (ndp & Hp & Hnx & Hpm & Hpx).
  pose proof attempt_head as Hhd.
  unfold Insert_attempt.
  unfold getRoot at 1, mbind at 1, M_bind at 1. fold r.
  rewrite (bind_ok _ _ _ _ _ (next_ok _ _ _ Hnr)).
  assert (Hfind := Insert_find_spec m val l1 (head l2) fuel r _ Hs1 Hl1).
  fold pre in Hfind.
  assert (Hto : match head l2 with
                | None => True
                | Some c => is_Some (nodes m !! c) ∧ val ≤ value_at (nodes m) c
                end).
  { destruct (head l2); [|done]. by destruct Hhd as (? & ? & _). }
  specialize (Hfind Hto).
  destruct (decide (length l1 < fuel)%nat) as [Hfuel|Hfuel]; cycle 1.
  { by apply bind_out_of_fuel. }
  rewrite (bind_ok _ _ _ _ _ Hfind).
  pose proof (split_elem _ _ _ _ (inv_sorted _ _ Hinv) Hl1 Hl2) as Helem.
  destruct (head l2) as [c|] eqn:Hc.
  - destruct Hhd as ([ndc Hndc] & Hge & Hq).
    rewrite (bind_ok _ _ _ _ _
               (bind_ok _ _ _ _ _ (getValue_ok _ _ _ Hndc))).
    assert (Hvc : value_at (nodes m) c = value ndc)
      by (unfold value_at; by rewrite Hndc).
    destruct (decide (value ndc = val)) as [Heq|Hneq].
    + rewrite (proj2 (Z.eqb_eq _ _) Heq).
      rewrite decide_True; [done|]. apply Helem. exists c. by rewrite Hvc.
    + rewrite (proj2 (Z.eqb_neq _ _) Hneq).
      rewrite decide_False; cycle 1.
      { rewrite Helem. intros (c' & ? & ?). simplify_eq. }
      rewrite (Insert_commit_ok m val pre (Some c) ndp); try done.
      * unfold insert_mem. by rewrite (insert_as_alter _ _ _ _ Hp).
      * split; [by apply quiet_unmarked | by eexists].
  - rewrite decide_False; cycle 1.
    { rewrite Helem. by intros (c' & ? & ?). }
    erewrite bind_ok by reflexivity. cbv beta iota.
    rewrite (Insert_commit_ok m val pre None ndp); try done.
    unfold insert_mem. by rewrite (insert_as_alter _ _ _ _ Hp).
Qed.
Lemma attempt_pre_ne c : head l2 = Some c → pre ≠ c.
Proof using Hinv.
  intros Hc Heq. pose proof (inv_nodup _ _ Hinv) as Hnd.
  rewrite app_comm_cons in Hnd. apply NoDup_app in Hnd as (_ & Hdisj & _).
  apply (Hdisj pre); [apply last_from_in|].
  rewrite Heq. by apply head_Some_elem_of.
Qed.

Lemma Delete_attempt_spec fuel :
  Delete_attempt fuel val m
  = if decide (length l1 < fuel)%nat
    then match head l2 with
         | Some c =>
             if decide (value_at (nodes m) c = val)
             then Ok (Return true, delete_mem m pre c)
             else Ok (Return false, m)
         | None => Ok (Return false, m)
         end
    else OutOfFuel.
Proof using Hinv Hl1 Hl2.
  destruct attempt_root as (nr & Hnr & Hs1 & Hs2).
  destruct attempt_pre as (ndp & Hp & Hnx & Hpm & Hpx).
  pose proof attempt_head as Hhd. pose proof attempt_pre_ne as Hne.
  unfold Delete_attempt.
  unfold getRoot at 1, mbind at 1, M_bind at 1. fold r.
  rewrite (bind_ok _ _ _ _ _ (next_ok _ _ _ Hnr)).
  assert (Hfind := Delete_find_spec m val l1 (head l2) fuel r _ Hs1).
  fold pre in Hfind.
  assert (Hskip : Forall (λ p, skipped (nodes m) val p = true) l1).
  { rewrite Forall_forall in Hl1 |- *. intros p Hin.
    rewrite quiet_skipped; [by apply Z.ltb_lt, Hl1|].
    apply attempt_quiet, elem_of_app. by left. }
  assert (Hto : match head l2 with
                | None => True
                | Some c => is_Some (nodes m !! c)
                            ∧ skipped (nodes m) val c = false
                end).
  { destruct (head l2); [|done]. destruct Hhd as (? & ? & ?).
    split; [done|]. rewrite quiet_skipped by done. by apply Z.ltb_ge. }
  specialize (Hfind Hskip Hto).
  destruct (decide (length l1 < fuel)%nat) as [Hfuel|Hfuel]; cycle 1.
  { by apply bind_out_of_fuel. }
  rewrite (bind_ok _ _ _ _ _ Hfind).
  destruct (head l2) as [c|] eqn:Hc; [|done].
  destruct Hhd as ([ndc Hndc] & Hge & (ndc' & Hndc' & Hcm & Hcx)).
  rewrite Hndc in Hndc'. simplify_eq.
  rewrite (bind_ok _ _ _ _ _ (getValue_ok _ _ _ Hndc)).
  assert (Hvc : value_at (nodes m) c = value ndc')
    by (unfold value_at; by rewrite Hndc).
  rewrite Hvc.
  destruct (decide (value ndc' = val)) as [Heq|Hneq].
  - rewrite (proj2 (Z.eqb_eq _ _) Heq). simpl.
    specialize (Hne c eq_refl).
    rewrite (Delete_commit_ok m pre c ndp ndc'); try done.
    unfold delete_mem, next_at. rewrite Hndc. simpl.
    rewrite (insert_as_alter _ _ _ _ Hp).
    rewrite (insert_as_alter set_marked _ c ndc'); [done|].
    by rewrite list_lookup_alter_ne.
  - by rewrite (proj2 (Z.eqb_neq _ _) Hneq).
Qed.
End attempts.

(** ** Frame lemmas *)

Lemma wrap64_add a b : wrap64 (wrap64 a + b) = wrap64 (a + b).
Proof.
  unfold wrap64. generalize (2 ^ 63) (2 ^ 64). intros k n. f_equal.
  replace ((a + k) mod n - k + b + k) with ((a + k) mod n + b) by lia.
  rewrite Zplus_mod_idemp_l. f_equal. lia.
Qed.

Lemma wrap64_small z : - 2 ^ 63 ≤ z < 2 ^ 63 → wrap64 z = z.
Proof.
  intros Hz. unfold wrap64. change (2 ^ 64) with (2 * 2 ^ 63).
  revert Hz. generalize (2 ^ 63). intros k Hz. rewrite Z.mod_small; lia.
Qed.

Lemma wrap64_range z : - 2 ^ 63 ≤ wrap64 z < 2 ^ 63.
Proof.
  unfold wrap64. change (2 ^ 64) with (2 * 2 ^ 63).
  assert (Hpos : 0 < 2 ^ 63) by done. revert Hpos.
  generalize (2 ^ 63). intros k Hk.
  pose proof (Z.mod_pos_bound (z + k) (2 * k)). lia.
Qed.

Lemma value_at_set_next h p q nxt :
  value_at (alter (set_next nxt) p h) q = value_at h q.
Proof.
  unfold value_at. rewrite list_lookup_alter.
  destruct (decide (p = q)) as [->|]; by destruct (h !! q).
Qed.

Lemma marked_at_set_next h p q nxt :
  marked_at (alter (set_next nxt) p h) q = marked_at h q.
Proof.
  unfold marked_at. rewrite list_lookup_alter.
  destruct (decide (p = q)) as [->|]; by destruct (h !! q).
Qed.

Lemma quiet_set_next h p q nxt :
  quiet h q → quiet (alter (set_next nxt) p h) q.
Proof.
  intros (nd & Hnd & Hm & Hx). unfold quiet. rewrite list_lookup_alter.
  destruct (decide (p = q)) as [->|]; rewrite Hnd; simpl; eauto.
Qed.

Lemma value_at_set_marked h p q :
  value_at (alter set_marked p h) q = value_at h q.
Proof.
  unfold value_at. rewrite list_lookup_alter.
  destruct (decide (p = q)) as [->|]; by destruct (h !! q).
Qed.

Lemma marked_at_set_marked h p q :
  marked_at (alter set_marked p h) q
  = if decide (p = q ∧ (q < length h)%nat) then true else marked_at h q.
Proof.
  unfold marked_at. rewrite list_lookup_alter.
  destruct (decide (p = q)) as [->|Hne].
  - destruct (h !! q) eqn:Hq; simpl.
    + rewrite decide_True; [done|]. split; [done|]. by eapply lookup_lt_Some.
    + rewrite decide_False; [done|]. intros [_ Hlt].
      apply lookup_ge_None in Hq. lia.
  - rewrite decide_False; [done|]. by intros [? _].
Qed.

Lemma quiet_set_marked h p q :
  p ≠ q → quiet h q → quiet (alter set_marked p h) q.
Proof.
  intros Hne (nd & Hnd & Hm & Hx). unfold quiet.
  rewrite list_lookup_alter_ne by done. eauto.
Qed.

Lemma value_at_snoc h x q :
  (q < length h)%nat → value_at (h ++ [x]) q = value_at h q.
Proof. intros Hq. unfold value_at. by rewrite lookup_app_l. Qed.

Lemma marked_at_snoc h x q :
  (q < length h)%nat → marked_at (h ++ [x]) q = marked_at h q.
Proof. intros Hq. unfold marked_at. by rewrite lookup_app_l. Qed.

Lemma quiet_snoc h x q : quiet h q → quiet (h ++ [x]) q.
Proof.
  intros (nd & Hnd & Hm & Hx). exists nd. split; [|done].
  by apply lookup_app_l_Some.
Qed.

Lemma marked_at_alloc h p : marked_at h p = true → (p < length h)%nat.
Proof.
  unfold marked_at. destruct (h !! p) eqn:Hp; [|done].
  intros _. by eapply lookup_lt_Some.
Qed.

Lemma quiet_alloc h p : quiet h p → (p < length h)%nat.
Proof. intros (nd & Hnd & _). by eapply lookup_lt_Some. Qed.

Lemma marks_app tr1 tr2 : marks (tr1 ++ tr2) = marks tr1 ++ marks tr2.
Proof. apply omap_app. Qed.

(** Splitting the chain at the node that the search loop returns. *)
Lemma chain_at_pre h r l1 l2 :
  lseg h (Some r) (r :: l1 ++ l2) None →
  NoDup (r :: l1 ++ l2) →
  ∃ front ndp,
    r :: l1 = front ++ [last_from r l1] ∧
    lseg h (Some r) front (Some (last_from r l1)) ∧
    h !! last_from r l1 = Some ndp ∧
    lseg h (next_of ndp) l2 None ∧
    (last_from r l1 ∉ front) ∧ (last_from r l1 ∉ l2) ∧
    (∀ p, p ∈ front → p ∉ l2).
Proof.
  intros Hseg Hnd. destruct (last_from_snoc r l1) as (front & Hfront).
  rewrite app_comm_cons, Hfront, <- app_assoc in Hseg, Hnd.
  apply lseg_app in Hseg as (mid & Hs1 & Hs2). simpl in Hs2.
  destruct Hs2 as (-> & ndp & Hp & Hs2).
  apply NoDup_app in Hnd as (_ & Hdisj & Hnd2).
  apply NoDup_cons in Hnd2 as [Hnot _].
  exists front, ndp. repeat split; try done.
  - intros Hin. apply (Hdisj _ Hin). left.
  - intros p Hin Hin2. apply (Hdisj _ Hin). by right.
Qed.

(** ** Insert keeps the invariant *)

Lemma inv_alloc m ps p :
  inv m ps → p ∈ root (ilist m) :: ps → (p < length (nodes m))%nat.
Proof.
  intros Hinv Hp. pose proof (inv_quiet _ _ Hinv) as Hq.
  rewrite Forall_forall in Hq. eapply quiet_alloc, Hq, Hp.
Qed.

Lemma fmap_agree {A B} (f g : A → B) (l : list A) :
  (∀ x, x ∈ l → f x = g x) → f <$> l = g <$> l.
Proof.
  induction l as [|x l IH]; intros H; [done|].
  rewrite !fmap_cons. f_equal; [apply H; left | apply IH].
  intros y Hy. apply H. by right.
Qed.

Lemma insert_mem_inv m l1 l2 val :
  inv m (l1 ++ l2) →
  Forall (λ p, value_at (nodes m) p < val) l1 →
  Forall (λ p, val ≤ value_at (nodes m) p) l2 →
  val ∉ value_at (nodes m) <$> l1 ++ l2 →
  inv (insert_mem m val (last_from (root (ilist m)) l1) (head l2))
      (l1 ++ length (nodes m) :: l2).
Proof.
  intros Hinv Hl1 Hl2 Hnotin.
  set (h := nodes m). set (r := root (ilist m)). set (new := length h).
  set (pre := last_from r l1).
  set (N := IntNode val (Some (head l2)) None false).
  set (h' := alter (set_next (Some new)) pre h ++ [N]).
  assert (Halloc : ∀ p, p ∈ r :: l1 ++ l2 → (p < length h)%nat)
    by (intros p; apply (inv_alloc _ _ _ Hinv)).
  assert (Hlen : length (alter (set_next (Some new)) pre h) = length h)
    by apply length_alter.
  assert (F1 : ∀ p, (p < length h)%nat → value_at h' p = value_at h p).
  { intros p Hp. unfold h'. rewrite value_at_snoc by lia.
    apply value_at_set_next. }
  assert (F2 : ∀ p, (p < length h)%nat → marked_at h' p = marked_at h p).
  { intros p Hp. unfold h'. rewrite marked_at_snoc by lia.
    apply marked_at_set_next. }
  assert (F3 : ∀ p, quiet h p → quiet h' p).
  { intros p Hp. by apply quiet_snoc, quiet_set_next. }
  assert (F4 : h' !! new = Some N).
  { unfold h'. by apply list_lookup_middle. }
  assert (F5 : ∀ p, p ≠ pre → (p < length h)%nat → h' !! p = h !! p).
  { intros p Hne Hp. unfold h'. rewrite lookup_app_l by lia.
    by rewrite list_lookup_alter_ne. }
  destruct (chain_at_pre h r l1 l2 (inv_chain _ _ Hinv) (inv_nodup _ _ Hinv))
    as (front & ndp & Hfront & Hs1 & Hp & Hs2 & Hpf & Hpl & Hdisj).
  fold pre in Hfront, Hs1, Hp, Hpf, Hpl.
  assert (F6 : h' !! pre = Some (set_next (Some new) ndp)).
  { unfold h'. rewrite lookup_app_l.
    - rewrite list_lookup_alter_eq. fold h. by rewrite Hp.
    - rewrite Hlen. by eapply lookup_lt_Some. }
  assert (Hnew : new ∉ r :: l1 ++ l2).
  { intros Hin. apply Halloc in Hin. unfold new in Hin. lia. }
  assert (Hperm : r :: l1 ++ new :: l2 ≡ₚ new :: r :: l1 ++ l2).
  { rewrite !app_comm_cons. symmetry. apply Permutation_middle. }
  assert (Hinfront : ∀ p, p ∈ front → p ∈ r :: l1 ++ l2).
  { intros p Hin. rewrite app_comm_cons, Hfront, <- app_assoc.
    apply elem_of_app. by left. }
  assert (Hinl2 : ∀ p, p ∈ l2 → p ∈ r :: l1 ++ l2).
  { intros p Hin. right. apply elem_of_app. by right. }
  split; simpl; fold h r new pre N h'.
  - (* the chain *)
    change (lseg h' (Some r) (r :: l1 ++ new :: l2) None).
    rewrite app_comm_cons, Hfront, <- app_assoc. apply lseg_app.
    exists (Some pre). split.
    + eapply lseg_ext; [|exact Hs1]. intros p Hin. apply F5.
      * intros ->. done.
      * by apply Halloc, Hinfront.
    + simpl. split; [done|]. eexists. split; [exact F6|]. simpl.
      split; [done|]. eexists. split; [exact F4|]. simpl.
      destruct (lseg_head _ _ _ Hs2) as [Hmid _].
      change (lseg h' (head l2) l2 None). rewrite <- Hmid.
      eapply lseg_ext; [|exact Hs2]. intros p Hin. apply F5.
      * intros ->. done.
      * by apply Halloc, Hinl2.
  - rewrite Hperm. apply NoDup_cons. split; [done|]. apply (inv_nodup _ _ Hinv).
  - rewrite Hperm. apply Forall_cons. split.
    + exists N. by rewrite F4.
    + eapply Forall_impl; [apply (inv_quiet _ _ Hinv)|]. exact F3.
  - assert (Hvals : value_at h' <$> l1 ++ new :: l2
                    = (value_at h <$> l1) ++ val :: (value_at h <$> l2)).
    { rewrite fmap_app, fmap_cons. f_equal; [|f_equal].
      - apply fmap_agree. intros p Hin. apply F1, Halloc.
        right. apply elem_of_app. by left.
      - unfold value_at. by rewrite F4.
      - apply fmap_agree. intros p Hin. by apply F1, Halloc, Hinl2. }
    rewrite Hvals. pose proof (inv_sorted _ _ Hinv) as Hsort. fold h in Hsort.
    rewrite fmap_app in Hsort.
    apply StronglySorted_app in Hsort as (H12 & Hs1' & Hs2').
    assert (Hlt2 : Forall (Z.lt val) (value_at h <$> l2)).
    { rewrite Forall_fmap. rewrite Forall_forall in Hl2 |- *.
      intros p Hin. simpl. specialize (Hl2 _ Hin). fold h in Hl2.
      assert (value_at h p ≠ val); [|lia].
      intros Heq. apply Hnotin. rewrite <- Heq. fold h.
      apply list_elem_of_fmap_2, elem_of_app. by right. }
    apply StronglySorted_app. split_and!.
    + intros x1 x2 Hx1 Hx2.
      apply list_elem_of_fmap in Hx1 as (p1 & -> & Hp1).
      rewrite Forall_forall in Hl1. specialize (Hl1 _ Hp1). fold h in Hl1.
      apply elem_of_cons in Hx2 as [->|Hx2]; [done|].
      rewrite Forall_forall in Hlt2. specialize (Hlt2 _ Hx2). lia.
    + done.
    + apply StronglySorted_cons. split; done.
  - rewrite (inv_size _ _ Hinv), wrap64_add. f_equal.
    rewrite !length_app. simpl. lia.
  - rewrite marks_app, app_nil_r. apply (inv_marks _ _ Hinv).
  - rewrite marks_app, app_nil_r. intros p Hin.
    pose proof (inv_marked _ _ Hinv p Hin) as Hm. fold h in Hm.
    rewrite F2; [done|]. by apply marked_at_alloc.
  - rewrite marks_app, app_nil_r. intros p Hlt Hnot.
    apply (inv_off _ _ Hinv).
    + unfold h' in Hlt. rewrite length_app, Hlen in Hlt. simpl in Hlt.
      assert (p ≠ new); [|unfold new in *; fold h; lia].
      intros ->. apply Hnot. rewrite Hperm. left.
    + intros Hin. apply Hnot. rewrite Hperm. by right.
Qed.

(** ** Delete keeps the invariant *)

Lemma delete_mem_inv m l1 c l2 :
  inv m (l1 ++ c :: l2) →
  inv (delete_mem m (last_from (root (ilist m)) l1) c) (l1 ++ l2).
Proof.
  intros Hinv.
  set (h := nodes m). set (r := root (ilist m)).
  set (pre := last_from r l1).
  set (h' := alter set_marked c (alter (set_next (next_at h c)) pre h)).
  assert (Halloc : ∀ p, p ∈ r :: l1 ++ c :: l2 → (p < length h)%nat)
    by (intros p; apply (inv_alloc _ _ _ Hinv)).
  assert (Hlen : length h' = length h).
  { unfold h'. by rewrite !length_alter. }
  assert (F1 : ∀ p, value_at h' p = value_at h p).
  { intros p. unfold h'. by rewrite value_at_set_marked, value_at_set_next. }
  assert (F3 : ∀ p, p ≠ c → quiet h p → quiet h' p).
  { intros p Hne Hp. apply quiet_set_marked; [done|]. by apply quiet_set_next. }
  assert (F5 : ∀ p, p ≠ pre → p ≠ c → h' !! p = h !! p).
  { intros p Hp Hc. unfold h'. by rewrite !list_lookup_alter_ne. }
  destruct (chain_at_pre h r l1 (c :: l2)
              (inv_chain _ _ Hinv) (inv_nodup _ _ Hinv))
    as (front & ndp & Hfront & Hs1 & Hp & Hs2 & Hpf & Hpl & Hdisj).
  fold pre in Hfront, Hs1, Hp, Hpf, Hpl.
  destruct Hs2 as (Hnx & ndc & Hc & Hs2).
  assert (Hpc : pre ≠ c).
  { intros ->. apply Hpl. left. }
  assert (Hnext : next_at h c = next_of ndc).
  { unfold next_at. by rewrite Hc. }
  assert (F6 : h' !! pre = Some (set_next (next_of ndc) ndp)).
  { unfold h'. rewrite list_lookup_alter_ne by done.
    rewrite list_lookup_alter_eq, Hp, Hnext. done. }
  assert (Hperm : r :: l1 ++ c :: l2 ≡ₚ c :: r :: l1 ++ l2).
  { rewrite !app_comm_cons. symmetry. apply Permutation_middle. }
  pose proof (inv_nodup _ _ Hinv) as Hnd. fold r in Hnd.
  rewrite Hperm in Hnd. apply NoDup_cons in Hnd as [Hcnot Hnd].
  assert (Hsub : ∀ p, p ∈ r :: l1 ++ l2 → p ∈ r :: l1 ++ c :: l2).
  { intros p Hin. rewrite Hperm. by right. }
  assert (Hcin : c ∈ r :: l1 ++ c :: l2).
  { rewrite Hperm. left. }
  assert (Hinfront : ∀ p, p ∈ front → p ∈ r :: l1 ++ l2).
  { intros p Hin. rewrite app_comm_cons, Hfront. apply elem_of_app.
    left. apply elem_of_app. by left. }
  assert (Hinl2 : ∀ p, p ∈ l2 → p ∈ r :: l1 ++ l2).
  { intros p Hin. right. apply elem_of_app. by right. }
  pose proof (inv_quiet _ _ Hinv) as Hq. fold h r in Hq.
  rewrite Forall_forall in Hq.
  assert (Hcm : marked_at h c = false) by by apply quiet_unmarked, Hq.
  assert (Hcmarks : c ∉ marks (trace m)).
  { intros Hin. apply (inv_marked _ _ Hinv) in Hin. fold h in Hin. congruence. }
  assert (Hmarks : marks (trace (delete_mem m pre c)) = marks (trace m) ++ [c]).
  { simpl. by rewrite marks_app. }
  split; rewrite ?Hmarks; simpl; fold h r pre h'.
  - change (lseg h' (Some r) (r :: l1 ++ l2) None).
    rewrite app_comm_cons, Hfront, <- app_assoc. apply lseg_app.
    exists (Some pre). split.
    + eapply lseg_ext; [|exact Hs1]. intros p Hin. apply F5.
      * intros ->. done.
      * intros ->. apply Hinfront in Hin. done.
    + simpl. split; [done|]. eexists. split; [exact F6|]. simpl.
      eapply lseg_ext; [|exact Hs2]. intros p Hin. apply F5.
      * intros ->. apply Hpl. by right.
      * intros ->. apply Hinl2 in Hin. done.
  - done.
  - apply Forall_forall. intros p Hin. apply F3.
    + intros ->. done.
    + by apply Hq, Hsub.
  - erewrite fmap_agree; [|intros p _; apply F1].
    pose proof (inv_sorted _ _ Hinv) as Hsort. fold h in Hsort.
    rewrite fmap_app, fmap_cons in Hsort. rewrite fmap_app.
    apply StronglySorted_app in Hsort as (H12 & Hs1' & Hs2').
    apply StronglySorted_cons in Hs2' as [_ Hs2'].
    apply StronglySorted_app. split_and!; [|done..].
    intros x1 x2 Hx1 Hx2. apply H12; [done|]. by right.
  - rewrite (inv_size _ _ Hinv), wrap64_add. f_equal.
    rewrite !length_app. simpl. lia.
  - apply NoDup_app. split_and!.
    + apply (inv_marks _ _ Hinv).
    + intros p Hin ->%list_elem_of_singleton. done.
    + apply NoDup_singleton.
  - intros p Hin. unfold h'. rewrite marked_at_set_marked, length_alter.
    case_decide; [done|]. rewrite marked_at_set_next.
    apply elem_of_app in Hin as [Hin| ->%list_elem_of_singleton].
    + by apply (inv_marked _ _ Hinv).
    + exfalso. apply H. split; [done|]. by apply Halloc.
  - intros p Hlt Hnot. rewrite Hlen in Hlt. apply elem_of_app.
    destruct (decide (p = c)) as [->|Hne]; [right; left|]. left.
    apply (inv_off _ _ Hinv); [done|]. fold r. rewrite Hperm.
    intros [->|Hin]%elem_of_cons; done.
Qed.

(** ** Contains and Range on a chain *)

Lemma Contains_chain m nr l1 l2 val fuel :
  nodes m !! root (ilist m) = Some nr →
  lseg (nodes m) (next_of nr) (l1 ++ l2) None →
  Forall (λ p, skipped (nodes m) val p = true) l1 →
  match head l2 with
  | None => True
  | Some c => skipped (nodes m) val c = false
  end →
  Contains_loop fuel val (next_of nr) m
  = (if decide (length l1 < fuel)%nat then Ok (head l2, m) else OutOfFuel)
  ∧ Contains fuel val m
    = (if decide (length l1 < fuel)%nat
       then Ok (found (nodes m) val (head l2), m) else OutOfFuel).
Proof.
  intros Hnr Hseg Hl1 Hl2.
  apply lseg_app in Hseg as (mid & Hs1 & Hs2).
  destruct (lseg_head _ _ _ Hs2) as [-> Hsome].
  assert (Hloop := Contains_loop_spec m val l1 (head l2) fuel _ Hs1 Hl1).
  assert (Hto : match head l2 with
                | None => True
                | Some c => is_Some (nodes m !! c)
                            ∧ skipped (nodes m) val c = false
                end) by (destruct (head l2); done).
  specialize (Hloop Hto). split; [done|].
  unfold Contains. unfold getRoot at 1, mbind at 1, M_bind at 1.
  rewrite (bind_ok _ _ _ _ _ (next_ok _ _ _ Hnr)).
  destruct (decide (length l1 < fuel)%nat); [|by apply bind_out_of_fuel].
  rewrite (bind_ok _ _ _ _ _ Hloop).
  destruct (head l2) as [c|]; [|done].
  destruct Hsome as [ndc Hc].
  rewrite (bind_ok _ _ _ _ _ (getValue_ok _ _ _ Hc)).
  unfold found, value_at. by rewrite Hc.
Qed.

Lemma visit_collect vs acc : visit collect vs acc = acc ++ vs.
Proof.
  revert acc. induction vs as [|v vs IH]; intros acc; simpl.
  - by rewrite app_nil_r.
  - by rewrite IH, <- app_assoc.
Qed.

Lemma Range_loop_spec {A} (f : Z → A → bool * A) m ps fuel from acc :
  lseg (nodes m) from ps None → (length ps < fuel)%nat →
  Range_loop fuel f from acc m
  = Ok (visit f (value_at (nodes m) <$> ps) acc, m).
Proof.
  revert fuel from acc. induction ps as [|p ps IH]; intros fuel from acc; simpl.
  - intros -> Hfuel. destruct fuel as [|fuel]; [lia|]. done.
  - intros (-> & nd & Hnd & Hseg) Hfuel. destruct fuel as [|fuel]; [lia|].
    simpl. rewrite (bind_ok _ _ _ _ _ (getValue_ok _ _ _ Hnd)).
    unfold value_at at 1. rewrite Hnd. simpl.
    destruct (f (value nd) acc) as [[] acc']; [|done].
    rewrite (bind_ok _ _ _ _ _ (next_ok _ _ _ Hnd)).
    apply IH; [done|lia].
Qed.

Lemma Range_chain {A} (f : Z → A → bool * A) m nr ps fuel acc :
  nodes m !! root (ilist m) = Some nr →
  lseg (nodes m) (next_of nr) ps None → (length ps < fuel)%nat →
  Range fuel f acc m = Ok (visit f (value_at (nodes m) <$> ps) acc, m).
Proof.
  intros Hnr Hseg Hfuel. unfold Range.
  unfold getRoot at 1, mbind at 1, M_bind at 1.
  rewrite (bind_ok _ _ _ _ _ (next_ok _ _ _ Hnr)).
  by apply Range_loop_spec.
Qed.

(** ** The operations on a list at rest *)

Lemma retry_return n body m b m' :
  body m = Ok (Return b, m') → retry n body m = Ok (b, m').
Proof. intros H. destruct n; simpl; by rewrite (bind_ok _ _ _ _ _ H). Qed.

Lemma retry_out_of_fuel n body m :
  body m = OutOfFuel → retry n body m = OutOfFuel.
Proof. intros H. destruct n; simpl; by apply bind_out_of_fuel. Qed.

Lemma inv_root m ps :
  inv m ps →
  ∃ nr, nodes m !! root (ilist m) = Some nr ∧
        lseg (nodes m) (next_of nr) ps None.
Proof. intros Hinv. destruct (inv_chain _ _ Hinv) as (_ & nr & ? & ?). eauto. Qed.

Lemma Range_spec {A} (f : Z → A → bool * A) m ps fuel acc :
  inv m ps → (length ps < fuel)%nat →
  Range fuel f acc m = Ok (visit f (contents m ps) acc, m).
Proof.
  intros Hinv Hfuel. destruct (inv_root _ _ Hinv) as (nr & Hnr & Hseg).
  by eapply Range_chain.
Qed.

Section operations.
Context (m : mem) (l1 l2 : list ptr) (val : Z).
Hypothesis Hinv : inv m (l1 ++ l2).
Hypothesis Hl1 : Forall (λ p, value_at (nodes m) p < val) l1.
Hypothesis Hl2 : Forall (λ p, val ≤ value_at (nodes m) p) l2.

Lemma Insert_spec fuel :
  Insert fuel val m
  = if decide (length l1 < fuel)%nat
    then if decide (val ∈ contents m (l1 ++ l2))
         then Ok (false, m)
         else Ok (true, insert_mem m val (last_from (root (ilist m)) l1)
                          (head l2))
    else OutOfFuel.
Proof using Hinv Hl1 Hl2.
  pose proof (Insert_attempt_spec m l1 l2 val Hinv Hl1 Hl2 fuel) as H.
  unfold Insert, contents. repeat case_decide;
    by (apply retry_return || apply retry_out_of_fuel).
Qed.

Lemma Delete_spec fuel :
  Delete fuel val m
  = if decide (length l1 < fuel)%nat
    then match head l2 with
         | Some c =>
             if decide (value_at (nodes m) c = val)
             then Ok (true, delete_mem m (last_from (root (ilist m)) l1) c)
             else Ok (false, m)
         | None => Ok (false, m)
         end
    else OutOfFuel.
Proof using Hinv Hl1 Hl2.
  pose proof (Delete_attempt_spec m l1 l2 val Hinv Hl1 Hl2 fuel) as H.
  unfold Delete. case_decide; [|by apply retry_out_of_fuel].
  destruct (head l2); [case_decide|]; by apply retry_return.
Qed.

Lemma Contains_spec fuel :
  Contains fuel val m
  = if decide (length l1 < fuel)%nat
    then Ok (bool_decide (val ∈ contents m (l1 ++ l2)), m)
    else OutOfFuel.
Proof using Hinv Hl1 Hl2.
  destruct (inv_root _ _ Hinv) as (nr & Hnr & Hseg).
  pose proof (attempt_head m l1 l2 val Hinv Hl2) as Hhd.
  assert (Hskip : Forall (λ p, skipped (nodes m) val p = true) l1).
  { rewrite Forall_forall in Hl1 |- *. intros p Hin.
    rewrite quiet_skipped; [by apply Z.ltb_lt, Hl1|].
    eapply attempt_quiet; [exact Hinv|]. apply elem_of_app. by left. }
  assert (Hstop : match head l2 with
                  | None => True
                  | Some c => skipped (nodes m) val c = false
                  end).
  { destruct (head l2) as [c|]; [|done]. destruct Hhd as (_ & Hge & Hq).
    rewrite quiet_skipped by done. by apply Z.ltb_ge. }
  destruct (Contains_chain m nr l1 l2 val fuel Hnr Hseg Hskip Hstop)
    as [_ ->].
  case_decide; [|done]. do 2 f_equal.
  pose proof (split_elem _ _ _ _ (inv_sorted _ _ Hinv) Hl1 Hl2) as Helem.
  unfold contents, found. destruct (head l2) as [c|].
  - destruct (decide (value_at (nodes m) c = val)) as [Heq|Hne].
    + rewrite (proj2 (Z.eqb_eq _ _) Heq). symmetry.
      apply bool_decide_eq_true. apply Helem. eauto.
    + rewrite (proj2 (Z.eqb_neq _ _) Hne). symmetry.
      apply bool_decide_eq_false. rewrite Helem.
      intros (c' & ? & ?). simplify_eq.
  - symmetry. apply bool_decide_eq_false. rewrite Helem.
    by intros (c' & ? & ?).
Qed.
End operations.

(** ** One call on a list at rest *)

Lemma insert_mem_value_at m val pre cur p :
  value_at (nodes (insert_mem m val pre cur)) p
  = if decide (p = length (nodes m)) then val else value_at (nodes m) p.
Proof.
  simpl. case_decide as Hp.
  - subst p. unfold value_at.
    rewrite list_lookup_middle; [done|]. by rewrite length_alter.
  - destruct (decide (p < length (nodes m))%nat) as [Hlt|Hge].
    + rewrite value_at_snoc by by rewrite length_alter.
      apply value_at_set_next.
    + unfold value_at. rewrite !lookup_ge_None_2; [done|lia|].
      rewrite length_app, length_alter. simpl. lia.
Qed.

Lemma insert_mem_contents m val l1 l2 pre cur :
  inv m (l1 ++ l2) →
  contents (insert_mem m val pre cur) (l1 ++ length (nodes m) :: l2)
  = contents m l1 ++ val :: contents m l2.
Proof.
  intros Hinv. unfold contents. rewrite fmap_app, fmap_cons.
  assert (Hold : ∀ p, p ∈ l1 ++ l2 →
            value_at (nodes (insert_mem m val pre cur)) p
            = value_at (nodes m) p).
  { intros p Hin. rewrite insert_mem_value_at. case_decide; [|done].
    assert (p < length (nodes m))%nat; [|lia].
    eapply inv_alloc; [exact Hinv|]. by right. }
  f_equal; [|f_equal].
  - apply fmap_agree. intros p Hin. apply Hold, elem_of_app. by left.
  - rewrite insert_mem_value_at. by rewrite decide_True.
  - apply fmap_agree. intros p Hin. apply Hold, elem_of_app. by right.
Qed.

Lemma delete_mem_contents m pre c ps :
  contents (delete_mem m pre c) ps = contents m ps.
Proof.
  unfold contents. apply fmap_agree. intros p _. simpl.
  by rewrite value_at_set_marked, value_at_set_next.
Qed.

Lemma Insert_cases m ps val fuel b m' :
  inv m ps → Insert fuel val m = Ok (b, m') →
  if b
  then (val ∉ contents m ps) ∧
       ∃ l1 l2, ps = l1 ++ l2 ∧
         m' = insert_mem m val (last_from (root (ilist m)) l1) (head l2) ∧
         inv m' (l1 ++ length (nodes m) :: l2) ∧
         contents m' (l1 ++ length (nodes m) :: l2)
         = contents m l1 ++ val :: contents m l2
  else m' = m ∧ val ∈ contents m ps.
Proof.
  intros Hinv Hrun.
  destruct (sorted_split (nodes m) val ps (inv_sorted _ _ Hinv))
    as (l1 & l2 & -> & Hl1 & Hl2).
  rewrite (Insert_spec m l1 l2 val Hinv Hl1 Hl2) in Hrun.
  case_decide; [|done]. case_decide as Hin; simplify_eq; [done|].
  split; [done|]. exists l1, l2. split_and!; try done.
  - by apply insert_mem_inv.
  - by apply insert_mem_contents.
Qed.

Lemma Delete_cases m ps val fuel b m' :
  inv m ps → Delete fuel val m = Ok (b, m') →
  if b
  then ∃ l1 c l2, ps = l1 ++ c :: l2 ∧ value_at (nodes m) c = val ∧
         m' = delete_mem m (last_from (root (ilist m)) l1) c ∧
         inv m' (l1 ++ l2) ∧
         contents m' (l1 ++ l2) = contents m l1 ++ contents m l2 ∧
         val ∉ contents m' (l1 ++ l2)
  else m' = m ∧ val ∉ contents m ps.
Proof.
  intros Hinv Hrun.
  destruct (sorted_split (nodes m) val ps (inv_sorted _ _ Hinv))
    as (l1 & l2 & -> & Hl1 & Hl2).
  rewrite (Delete_spec m l1 l2 val Hinv Hl1 Hl2) in Hrun.
  pose proof (split_elem _ _ _ _ (inv_sorted _ _ Hinv) Hl1 Hl2) as Helem.
  case_decide; [|done]. destruct l2 as [|c l2]; simpl in *.
  { simplify_eq. split; [done|]. unfold contents. rewrite Helem.
    by intros (? & ? & ?). }
  case_decide as Hc; simplify_eq; cycle 1.
  { split; [done|]. unfold contents. rewrite Helem.
    intros (? & ? & ?). simplify_eq. }
  exists l1, c, l2.
  assert (Hinv' : inv (delete_mem m (last_from (root (ilist m)) l1) c)
                      (l1 ++ l2)) by by apply delete_mem_inv.
  split_and!; try done.
  - rewrite delete_mem_contents. unfold contents. by rewrite fmap_app.
  - rewrite delete_mem_contents. unfold contents. rewrite fmap_app.
    pose proof (inv_sorted _ _ Hinv) as Hsort.
    rewrite fmap_app, fmap_cons in Hsort.
    apply StronglySorted_app in Hsort as (_ & _ & Hs2).
    apply StronglySorted_cons in Hs2 as [Hall _].
    rewrite Forall_forall in Hl1. rewrite Forall_forall in Hall.
    intros [Hin|Hin]%elem_of_app.
    + apply list_elem_of_fmap in Hin as (p & Hp & Hin).
      specialize (Hl1 _ Hin). lia.
    + specialize (Hall _ Hin). lia.
Qed.

(** ** Runs of calls *)

Lemma run_cons fuel c cs m bs m' :
  run fuel (c :: cs) m = Ok (bs, m') ↔
  ∃ b bs' m1, bs = b :: bs' ∧ exec fuel c m = Ok (b, m1) ∧
              run fuel cs m1 = Ok (bs', m').
Proof.
  simpl. unfold mbind, M_bind, mret, M_ret. split.
  - destruct (exec fuel c m) as [[b m1]| | |]; try done.
    destruct (run fuel cs m1) as [[bs' m2]| | |] eqn:Hrest; try done.
    intros ?; simplify_eq. by exists b, bs', m1.
  - intros (b & bs' & m1 & -> & -> & ->). done.
Qed.

Lemma exec_inv fuel c m ps b m' :
  inv m ps → exec fuel c m = Ok (b, m') → ∃ ps', inv m' ps'.
Proof.
  intros Hinv Hrun. destruct c as [val|val]; simpl in Hrun.
  - pose proof (Insert_cases _ _ _ _ _ _ Hinv Hrun) as H.
    destruct b; [|destruct H as [-> _]; eauto].
    destruct H as (_ & l1 & l2 & _ & _ & H & _). eauto.
  - pose proof (Delete_cases _ _ _ _ _ _ Hinv Hrun) as H.
    destruct b; [|destruct H as [-> _]; eauto].
    destruct H as (l1 & c & l2 & _ & _ & _ & H & _). eauto.
Qed.

Lemma run_inv fuel cs m ps bs m' :
  inv m ps → run fuel cs m = Ok (bs, m') → ∃ ps', inv m' ps'.
Proof.
  revert m ps bs. induction cs as [|c cs IH]; intros m ps bs Hinv Hrun.
  - simpl in Hrun. unfold mret, M_ret in Hrun. simplify_eq. eauto.
  - apply run_cons in Hrun as (b & bs' & m1 & -> & Hc & Hrun).
    destruct (exec_inv _ _ _ _ _ _ Hinv Hc) as (ps1 & Hinv1). eauto.
Qed.

Lemma reachable_inv m : reachable m → ∃ ps, inv m ps.
Proof.
  induction 1 as [|fuel c m b m' _ [ps Hinv] Hc]; [exists []; apply inv_new|].
  by eapply exec_inv.
Qed.

Lemma run_reachable fuel cs m bs m' :
  reachable m → run fuel cs m = Ok (bs, m') → reachable m'.
Proof.
  revert m bs. induction cs as [|c cs IH]; intros m bs Hm Hrun.
  - simpl in Hrun. unfold mret, M_ret in Hrun. by simplify_eq.
  - apply run_cons in Hrun as (b & bs' & m1 & -> & Hc & Hrun).
    eapply IH; [|exact Hrun]. by eapply reach_call.
Qed.

Lemma run_snoc fuel cs c m bs b m1 m2 :
  run fuel cs m = Ok (bs, m1) → exec fuel c m1 = Ok (b, m2) →
  run fuel (cs ++ [c]) m = Ok (bs ++ [b], m2).
Proof.
  revert m bs. induction cs as [|c' cs IH]; intros m bs Hrun Hc.
  - simpl in Hrun. unfold mret, M_ret in Hrun. simplify_eq.
    apply run_cons. exists b, [], m2. done.
  - apply run_cons in Hrun as (b' & bs' & m' & -> & Hc' & Hrun).
    simpl. rewrite (bind_ok _ _ _ _ _ Hc').
    by rewrite (bind_ok _ _ _ _ _ (IH _ _ Hrun Hc)).
Qed.

(** ** Histories and what they leave in the list *)

Lemma ind_middle (v x : Z) (l1 l2 : list Z) :
  ind v (l1 ++ x :: l2) = if decide (v = x) then 1 else ind v (l1 ++ l2).
Proof.
  unfold ind.
  assert (H : v ∈ l1 ++ x :: l2 ↔ v = x ∨ v ∈ l1 ++ l2).
  { rewrite !elem_of_app, elem_of_cons. tauto. }
  repeat case_decide; done || tauto.
Qed.

Lemma ind_absent (v : Z) (l : list Z) : v ∉ l → ind v l = 0.
Proof. intros H. unfold ind. by rewrite decide_False. Qed.

Lemma effect_eq (v x : Z) (k : Z) :
  (if true && (x =? v) then k else 0) = if decide (v = x) then k else 0.
Proof.
  simpl. destruct (Z.eqb_spec x v); case_decide; done || congruence.
Qed.

Lemma exec_effect fuel c m ps b m' :
  inv m ps → exec fuel c m = Ok (b, m') →
  ∃ ps', inv m' ps' ∧
    ∀ v, ind v (contents m' ps') = ind v (contents m ps) + effect v c b.
Proof.
  intros Hinv Hrun. destruct c as [x|x]; simpl in Hrun.
  - pose proof (Insert_cases _ _ _ _ _ _ Hinv Hrun) as H. destruct b.
    + destruct H as (Hnot & l1 & l2 & -> & _ & Hinv' & Hc).
      eexists. split; [exact Hinv'|]. intros v. rewrite Hc.
      unfold effect. rewrite effect_eq, ind_middle.
      unfold contents in *. rewrite fmap_app in Hnot |- *.
      case_decide; [|lia]. subst v. rewrite ind_absent; [lia|done].
    + destruct H as [-> _]. exists ps. split; [done|]. intros v. simpl. lia.
  - pose proof (Delete_cases _ _ _ _ _ _ Hinv Hrun) as H. destruct b.
    + destruct H as (l1 & c & l2 & -> & Hv & _ & Hinv' & Hc & Hnot).
      eexists. split; [exact Hinv'|]. intros v.
      rewrite Hc in Hnot |- *. unfold effect. rewrite effect_eq.
      unfold contents in *. rewrite fmap_app, fmap_cons, Hv, ind_middle.
      case_decide; [|lia]. subst v. rewrite ind_absent; [lia|done].
    + destruct H as [-> _]. exists ps. split; [done|]. intros v. simpl. lia.
Qed.

Lemma run_effect fuel cs m ps bs m' :
  inv m ps → run fuel cs m = Ok (bs, m') →
  ∃ ps', inv m' ps' ∧
    ∀ v, ind v (contents m' ps') = ind v (contents m ps) + net_count v cs bs.
Proof.
  revert m ps bs. induction cs as [|c cs IH]; intros m ps bs Hinv Hrun.
  - simpl in Hrun. unfold mret, M_ret in Hrun. simplify_eq.
    exists ps. split; [done|]. intros v. simpl. lia.
  - apply run_cons in Hrun as (b & bs' & m1 & -> & Hc & Hrun).
    destruct (exec_effect _ _ _ _ _ _ Hinv Hc) as (ps1 & Hinv1 & H1).
    destruct (IH _ _ _ Hinv1 Hrun) as (ps' & Hinv' & H').
    exists ps'. split; [done|]. intros v. rewrite H', H1. simpl. lia.
Qed.

(** The chain is shorter than the heap: the sentinel is not on it. *)
Lemma inv_length m ps : inv m ps → (length ps < length (nodes m))%nat.
Proof.
  intros Hinv.
  assert (Hsub : root (ilist m) :: ps ⊆+ seq 0 (length (nodes m))).
  { apply NoDup_submseteq; [apply (inv_nodup _ _ Hinv)|].
    intros p Hp. apply elem_of_seq. split; [lia|].
    by apply (inv_alloc _ _ _ Hinv). }
  apply submseteq_length in Hsub. rewrite length_seq in Hsub.
  simpl in Hsub. lia.
Qed.

Lemma Range_collect m ps fuel :
  inv m ps → (length (nodes m) ≤ fuel)%nat →
  Range fuel collect [] m = Ok (contents m ps, m).
Proof.
  intros Hinv Hfuel. rewrite (Range_spec collect m ps); [|done|].
  - by rewrite visit_collect.
  - pose proof (inv_length _ _ Hinv). lia.
Qed.

(** ** With enough fuel every call returns *)

Lemma Contains_total m ps val fuel :
  inv m ps → (length (nodes m) ≤ fuel)%nat →
  Contains fuel val m = Ok (bool_decide (val ∈ contents m ps), m).
Proof.
  intros Hinv Hfuel. pose proof (inv_length _ _ Hinv) as Hlen.
  destruct (sorted_split (nodes m) val ps (inv_sorted _ _ Hinv))
    as (l1 & l2 & -> & Hl1 & Hl2).
  rewrite (Contains_spec m l1 l2 val Hinv Hl1 Hl2).
  rewrite length_app in Hlen. rewrite decide_True; [done|lia].
Qed.

Lemma Insert_attempt_total m ps val fuel :
  inv m ps → (length (nodes m) ≤ fuel)%nat →
  ∃ b m', Insert_attempt fuel val m = Ok (Return b, m') ∧
          Insert fuel val m = Ok (b, m') ∧
          b = negb (bool_decide (val ∈ contents m ps)) ∧
          (b = false → m' = m).
Proof.
  intros Hinv Hfuel. pose proof (inv_length _ _ Hinv) as Hlen.
  destruct (sorted_split (nodes m) val ps (inv_sorted _ _ Hinv))
    as (l1 & l2 & -> & Hl1 & Hl2).
  rewrite (Insert_spec m l1 l2 val Hinv Hl1 Hl2).
  rewrite (Insert_attempt_spec m l1 l2 val Hinv Hl1 Hl2).
  rewrite length_app in Hlen.
  rewrite !(decide_True (P := (length l1 < fuel)%nat)) by lia.
  unfold contents.
  destruct (decide (val ∈ value_at (nodes m) <$> l1 ++ l2)) as [Hin|Hin].
  - exists false, m. by rewrite bool_decide_eq_true_2.
  - eexists true, _. by rewrite bool_decide_eq_false_2.
Qed.

Lemma Delete_attempt_total m ps val fuel :
  inv m ps → (length (nodes m) ≤ fuel)%nat →
  ∃ b m', Delete_attempt fuel val m = Ok (Return b, m') ∧
          Delete fuel val m = Ok (b, m') ∧
          b = bool_decide (val ∈ contents m ps) ∧
          (b = false → m' = m).
Proof.
  intros Hinv Hfuel. pose proof (inv_length _ _ Hinv) as Hlen.
  destruct (sorted_split (nodes m) val ps (inv_sorted _ _ Hinv))
    as (l1 & l2 & -> & Hl1 & Hl2).
  rewrite (Delete_spec m l1 l2 val Hinv Hl1 Hl2).
  rewrite (Delete_attempt_spec m l1 l2 val Hinv Hl1 Hl2).
  pose proof (split_elem _ _ _ _ (inv_sorted _ _ Hinv) Hl1 Hl2) as Helem.
  rewrite length_app in Hlen.
  rewrite !(decide_True (P := (length l1 < fuel)%nat)) by lia.
  unfold contents. destruct (head l2) as [c|].
  - destruct (decide (value_at (nodes m) c = val)) as [Hc|Hc].
    + eexists true, _. rewrite bool_decide_eq_true_2; [done|].
      apply Helem. eauto.
    + exists false, m. rewrite bool_decide_eq_false_2; [done|].
      rewrite Helem. intros (c' & ? & ?). simplify_eq.
  - exists false, m. rewrite bool_decide_eq_false_2; [done|].
    rewrite Helem. by intros (c' & ? & ?).
Qed.

(** After a call the value is in the list exactly when the call was an
    [Insert]. *)
Lemma Insert_then_present m ps val fuel b m' :
  inv m ps → Insert fuel val m = Ok (b, m') →
  ∃ ps', inv m' ps' ∧ val ∈ contents m' ps'.
Proof.
  intros Hinv Hrun. pose proof (Insert_cases _ _ _ _ _ _ Hinv Hrun) as H.
  destruct b.
  - destruct H as (_ & l1 & l2 & -> & _ & Hinv' & Hc).
    eexists. split; [exact Hinv'|]. rewrite Hc.
    apply elem_of_app. right. left.
  - destruct H as [-> Hin]. eauto.
Qed.

Lemma Delete_then_absent m ps val fuel b m' :
  inv m ps → Delete fuel val m = Ok (b, m') →
  ∃ ps', inv m' ps' ∧ val ∉ contents m' ps'.
Proof.
  intros Hinv Hrun. pose proof (Delete_cases _ _ _ _ _ _ Hinv Hrun) as H.
  destruct b.
  - destruct H as (l1 & c & l2 & -> & _ & _ & Hinv' & _ & Hnot). eauto.
  - destruct H as [-> Hin]. eauto.
Qed.

(** ** C1: what Range yields after a history *)

(** C1, as the claim states it, fails: counting every [Insert(v)] call
    as [+1] and every [Delete(v)] call as [-1], the calls [Insert(3)],
    [Insert(3)], [Delete(3)] leave a net count of [1] for the value [3],
    but the second [Insert] returned false and [Range] yields nothing. *)
Lemma C1_call_count_counterexample :
  run 3 [CallInsert 3; CallInsert 3; CallDelete 3] NewConcurrentIntList
  = Ok ([true; false; true], mem_3_3_del) ∧
  Range 3 collect [] mem_3_3_del = Ok ([], mem_3_3_del) ∧
  ¬ (∀ v, v ∈ [] ↔ 0 < call_count v
                        [CallInsert 3; CallInsert 3; CallDelete 3]).
Proof.
  split; [reflexivity|]. split; [reflexivity|].
  intros H. destruct (H 3) as [_ H3].
  assert (Hin : 3 ∈ @nil Z) by (apply H3; reflexivity).
  inversion Hin.
Qed.

Lemma Range_after_run fuel cs bs m :
  run fuel cs NewConcurrentIntList = Ok (bs, m) →
  ∃ out,
    (∀ fuel', (length (nodes m) ≤ fuel')%nat →
              Range fuel' collect [] m = Ok (out, m)) ∧
    StronglySorted Z.lt out ∧
    ∀ v, v ∈ out ↔ 0 < net_count v cs bs.
Proof.
  intros Hrun.
  destruct (run_effect _ _ _ _ _ _ inv_new Hrun) as (ps & Hinv & Hnet).
  exists (contents m ps). split_and!.
  - intros fuel' Hfuel. by apply Range_collect.
  - apply (inv_sorted _ _ Hinv).
  - intros v. specialize (Hnet v).
    rewrite (ind_absent v (contents NewConcurrentIntList [])) in Hnet
      by inversion 1.
    unfold ind in Hnet. case_decide; split; intros; first [done | lia].
Qed.

(** C1, amended: after every sequence of [Insert] and [Delete] calls run
    to completion on a new list, [Range] yields a strictly ascending
    sequence, and a value is in it exactly when the calls that returned
    true inserted it more often than they deleted it.  Inserting 5, 1, 3
    in that order yields [1; 3; 5]. *)
Theorem C1_Range_sorted_net_count :
  (∀ fuel cs bs m,
     run fuel cs NewConcurrentIntList = Ok (bs, m) →
     ∃ out,
       (∀ fuel', (length (nodes m) ≤ fuel')%nat →
                 Range fuel' collect [] m = Ok (out, m)) ∧
       StronglySorted Z.lt out ∧
       ∀ v, v ∈ out ↔ 0 < net_count v cs bs) ∧
  run 4 [CallInsert 5; CallInsert 1; CallInsert 3] NewConcurrentIntList
  = Ok ([true; true; true], mem_5_1_3) ∧
  Range 4 collect [] mem_5_1_3 = Ok ([1; 3; 5], mem_5_1_3).
Proof.
  split; [apply Range_after_run|split; reflexivity].
Qed.

Lemma C1_Range_sorted_net_count_witness :
  ∃ out,
    (∀ fuel', (length (nodes mem_5_1_3) ≤ fuel')%nat →
              Range fuel' collect [] mem_5_1_3 = Ok (out, mem_5_1_3)) ∧
    StronglySorted Z.lt out ∧
    ∀ v, v ∈ out ↔
         0 < net_count v [CallInsert 5; CallInsert 1; CallInsert 3]
                         [true; true; true].
Proof.
  apply (proj1 C1_Range_sorted_net_count 4%nat
           [CallInsert 5; CallInsert 1; CallInsert 3] [true; true; true]).
  reflexivity.
Defined.

(** ** C2 and C3: duplicates and missing values *)

(** C2: on every reachable list [Insert(v)] returns true exactly when
    [Contains(v)] was false.  A second [Insert(v)] right after it returns
    false from its first pass and leaves the memory as it was, the log of
    lock calls included, so it took no lock; [Contains(v)] is true after
    the first call and after the second. *)
Theorem C2_Insert_twice m fuel v :
  reachable m → (length (nodes m) ≤ fuel)%nat →
  ∃ b m1,
    Insert fuel v m = Ok (b, m1) ∧
    Contains fuel v m = Ok (negb b, m) ∧
    ∀ fuel1, (length (nodes m1) ≤ fuel1)%nat →
      Contains fuel1 v m1 = Ok (true, m1) ∧
      Insert_attempt fuel1 v m1 = Ok (Return false, m1) ∧
      Insert fuel1 v m1 = Ok (false, m1).
Proof.
  intros [ps Hinv]%reachable_inv Hfuel.
  destruct (Insert_attempt_total m ps v fuel Hinv Hfuel)
    as (b & m1 & _ & Hins & Hb & _).
  exists b, m1. split; [done|]. split.
  { rewrite (Contains_total m ps) by done. subst b.
    by rewrite negb_involutive. }
  intros fuel1 Hfuel1.
  destruct (Insert_then_present _ _ _ _ _ _ Hinv Hins) as (ps1 & Hinv1 & Hin).
  rewrite (Contains_total m1 ps1) by done.
  rewrite bool_decide_eq_true_2 by done. split; [done|].
  destruct (Insert_attempt_total m1 ps1 v fuel1 Hinv1 Hfuel1)
    as (b' & m2 & Hatt & Hins' & Hb' & Hsame).
  rewrite bool_decide_eq_true_2 in Hb' by done. simpl in Hb'. subst b'.
  rewrite (Hsame eq_refl) in Hatt, Hins'. done.
Qed.

Lemma C2_Insert_twice_witness :
  ∃ b m1,
    Insert 4 3 mem_5_1_3 = Ok (b, m1) ∧
    Contains 4 3 mem_5_1_3 = Ok (negb b, mem_5_1_3) ∧
    ∀ fuel1, (length (nodes m1) ≤ fuel1)%nat →
      Contains fuel1 3 m1 = Ok (true, m1) ∧
      Insert_attempt fuel1 3 m1 = Ok (Return false, m1) ∧
      Insert fuel1 3 m1 = Ok (false, m1).
Proof.
  apply (C2_Insert_twice mem_5_1_3 4 3).
  - apply (run_reachable 4 [CallInsert 5; CallInsert 1; CallInsert 3]
             NewConcurrentIntList [true; true; true]);
      [apply reach_new | reflexivity].
  - simpl. lia.
Defined.

(** C3: on every reachable list [Delete(v)] returns what [Contains(v)]
    returned.  When that is false the memory, chain and counter included,
    is left as it was; in either case [Contains(v)] is false afterwards. *)
Theorem C3_Delete_absent_present m fuel v :
  reachable m → (length (nodes m) ≤ fuel)%nat →
  ∃ b m1,
    Contains fuel v m = Ok (b, m) ∧
    Delete fuel v m = Ok (b, m1) ∧
    (b = false → m1 = m) ∧
    ∀ fuel1, (length (nodes m1) ≤ fuel1)%nat →
      Contains fuel1 v m1 = Ok (false, m1).
Proof.
  intros [ps Hinv]%reachable_inv Hfuel.
  destruct (Delete_attempt_total m ps v fuel Hinv Hfuel)
    as (b & m1 & _ & Hdel & Hb & Hsame).
  exists b, m1. split_and!; try done.
  { rewrite (Contains_total m ps) by done. by subst b. }
  intros fuel1 Hfuel1.
  destruct (Delete_then_absent _ _ _ _ _ _ Hinv Hdel) as (ps1 & Hinv1 & Hin).
  rewrite (Contains_total m1 ps1) by done.
  by rewrite bool_decide_eq_false_2.
Qed.

Lemma C3_Delete_absent_present_witness :
  ∃ b m1,
    Contains 4 3 mem_5_1_3 = Ok (b, mem_5_1_3) ∧
    Delete 4 3 mem_5_1_3 = Ok (b, m1) ∧
    (b = false → m1 = mem_5_1_3) ∧
    ∀ fuel1, (length (nodes m1) ≤ fuel1)%nat →
      Contains fuel1 3 m1 = Ok (false, m1).
Proof.
  apply (C3_Delete_absent_present mem_5_1_3 4 3).
  - apply (run_reachable 4 [CallInsert 5; CallInsert 1; CallInsert 3]
             NewConcurrentIntList [true; true; true]);
      [apply reach_new | reflexivity].
  - simpl. lia.
Defined.

(** ** C4: Contains never answers from a marked node *)

Lemma skipped_true h v p :
  skipped h v p = true ↔ marked_at h p = true ∨ value_at h p < v.
Proof. unfold skipped. by rewrite orb_true_iff, Z.ltb_lt. Qed.

Lemma skipped_false h v p :
  skipped h v p = false ↔ marked_at h p = false ∧ v ≤ value_at h p.
Proof. unfold skipped. by rewrite orb_false_iff, Z.ltb_ge. Qed.

(** C4: the chain of every reachable memory ends in nil.  On every memory
    whose chain [ps] ends in nil, reachable or caught in the middle of
    another goroutine's [Delete], [Contains(v)] walks over a prefix [l1]
    of nodes that are marked or hold less than [v], stops at the node
    after it, which is unmarked and holds at least [v], or at nil, and
    answers true exactly when it stopped at a node that holds [v]; so a
    true answer always comes from an unmarked node on the chain. *)
Theorem C4_Contains_skips_marked :
  (∀ m, reachable m →
     ∃ nr ps, nodes m !! root (ilist m) = Some nr ∧
              lseg (nodes m) (next_of nr) ps None ∧
              (length ps < length (nodes m))%nat) ∧
  (∀ m nr ps fuel v,
     nodes m !! root (ilist m) = Some nr →
     lseg (nodes m) (next_of nr) ps None →
     (length ps < fuel)%nat →
     ∃ l1 l2,
       ps = l1 ++ l2 ∧
       Forall (λ p, marked_at (nodes m) p = true ∨ value_at (nodes m) p < v)
              l1 ∧
       match head l2 with
       | None => True
       | Some c => marked_at (nodes m) c = false ∧ v ≤ value_at (nodes m) c
       end ∧
       Contains_loop fuel v (next_of nr) m = Ok (head l2, m) ∧
       Contains fuel v m = Ok (found (nodes m) v (head l2), m) ∧
       (found (nodes m) v (head l2) = true →
        ∃ c, c ∈ ps ∧ marked_at (nodes m) c = false ∧
             value_at (nodes m) c = v)).
Proof.
  split.
  { intros m [ps Hinv]%reachable_inv.
    destruct (inv_root _ _ Hinv) as (nr & Hnr & Hseg).
    exists nr, ps. split_and!; try done. by apply inv_length. }
  intros m nr ps fuel v Hnr Hseg Hfuel.
  destruct (skipped_split (skipped (nodes m) v) ps)
    as (l1 & l2 & -> & Hl1 & Hl2).
  exists l1, l2.
  destruct (Contains_chain m nr l1 l2 v fuel Hnr Hseg Hl1) as [Hloop Hcont].
  { by destruct l2. }
  rewrite length_app in Hfuel.
  rewrite decide_True in Hloop by lia. rewrite decide_True in Hcont by lia.
  split_and!; try done.
  - eapply Forall_impl; [exact Hl1|]. intros p. by rewrite skipped_true.
  - destruct l2 as [|c l2]; simpl in *; [done|]. by apply skipped_false.
  - destruct l2 as [|c l2]; simpl in *; [done|].
    intros Hv%Z.eqb_eq. exists c. apply skipped_false in Hl2 as [Hm _].
    split_and!; try done. apply elem_of_app. right. left.
Qed.

Lemma C4_Contains_skips_marked_witness :
  ∃ l1 l2,
    [1%nat; 2%nat] = l1 ++ l2 ∧
    Forall (λ p, marked_at (nodes mem_marked_linked) p = true
                 ∨ value_at (nodes mem_marked_linked) p < 3) l1 ∧
    match head l2 with
    | None => True
    | Some c => marked_at (nodes mem_marked_linked) c = false
                ∧ 3 ≤ value_at (nodes mem_marked_linked) c
    end ∧
    Contains_loop 3 3 (Some 1%nat) mem_marked_linked
    = Ok (head l2, mem_marked_linked) ∧
    Contains 3 3 mem_marked_linked
    = Ok (found (nodes mem_marked_linked) 3 (head l2), mem_marked_linked) ∧
    (found (nodes mem_marked_linked) 3 (head l2) = true →
     ∃ c, c ∈ [1%nat; 2%nat] ∧ marked_at (nodes mem_marked_linked) c = false ∧
          value_at (nodes mem_marked_linked) c = 3).
Proof.
  apply (proj2 C4_Contains_skips_marked mem_marked_linked
           (IntNode (-1) (Some (Some 1%nat)) None true) [1%nat; 2%nat]
           3%nat 3).
  - reflexivity.
  - simpl. eauto 10.
  - simpl. lia.
Defined.

Example Contains_marked_linked :
  Contains 3 3 mem_marked_linked = Ok (false, mem_marked_linked).
Proof. reflexivity. Qed.

(** ** C5: the counter *)

Lemma sorted_lt_NoDup (l : list Z) : StronglySorted Z.lt l → NoDup l.
Proof.
  induction 1 as [|x l _ IH Hall]; [constructor|].
  apply NoDup_cons. split; [|done]. intros Hin.
  rewrite Forall_forall in Hall. specialize (Hall _ Hin). lia.
Qed.

Lemma exec_size fuel c m b m' :
  reachable m → exec fuel c m = Ok (b, m') →
  size (ilist m') = counter_after c b (size (ilist m)).
Proof.
  intros [ps Hinv]%reachable_inv Hc. destruct c as [v|v]; simpl in Hc.
  - pose proof (Insert_cases _ _ _ _ _ _ Hinv Hc) as H. destruct b.
    + by destruct H as (_ & l1 & l2 & _ & -> & _).
    + by destruct H as [-> _].
  - pose proof (Delete_cases _ _ _ _ _ _ Hinv Hc) as H. destruct b.
    + by destruct H as (l1 & c & l2 & _ & _ & -> & _).
    + by destruct H as [-> _].
Qed.

(** C5: on every reachable list, [Range] yields every value once, the
    values it yields are those [Contains] accepts, and [Len] is their
    number, as an [int64]; it is their exact number as long as that is
    below [2^63].  An [Insert] that returns true adds one to the counter,
    a [Delete] that returns true subtracts one, and a call that returns
    false leaves it alone. *)
Theorem C5_Len_counts_live :
  (∀ m, reachable m →
     ∃ out,
       (∀ fuel, (length (nodes m) ≤ fuel)%nat →
                Range fuel collect [] m = Ok (out, m)) ∧
       NoDup out ∧
       (∀ fuel v, (length (nodes m) ≤ fuel)%nat →
                  Contains fuel v m = Ok (bool_decide (v ∈ out), m)) ∧
       Len m = Ok (wrap64 (Z.of_nat (length out)), m) ∧
       (Z.of_nat (length out) < 2 ^ 63 →
        Len m = Ok (Z.of_nat (length out), m))) ∧
  (∀ fuel c m b m',
     reachable m → exec fuel c m = Ok (b, m') →
     size (ilist m') = counter_after c b (size (ilist m))).
Proof.
  split; [|apply exec_size].
  intros m [ps Hinv]%reachable_inv. exists (contents m ps).
  assert (Hlen : Len m = Ok (wrap64 (Z.of_nat (length (contents m ps))), m)).
  { unfold Len, contents. by rewrite (inv_size _ _ Hinv), length_fmap. }
  split_and!.
  - intros fuel Hfuel. by apply Range_collect.
  - apply sorted_lt_NoDup, (inv_sorted _ _ Hinv).
  - intros fuel v Hfuel. by apply Contains_total.
  - done.
  - intros Hsmall. rewrite Hlen, wrap64_small; [done|lia].
Qed.

Lemma C5_Len_counts_live_witness :
  ∃ out,
    (∀ fuel, (length (nodes mem_5_1_3) ≤ fuel)%nat →
             Range fuel collect [] mem_5_1_3 = Ok (out, mem_5_1_3)) ∧
    NoDup out ∧
    (∀ fuel v, (length (nodes mem_5_1_3) ≤ fuel)%nat →
               Contains fuel v mem_5_1_3
               = Ok (bool_decide (v ∈ out), mem_5_1_3)) ∧
    Len mem_5_1_3 = Ok (Z.of_nat (length out), mem_5_1_3).
Proof.
  destruct (proj1 C5_Len_counts_live mem_5_1_3)
    as (out & HR & Hnd & HC & _ & Hexact).
  - apply (run_reachable 4 [CallInsert 5; CallInsert 1; CallInsert 3]
             NewConcurrentIntList [true; true; true]);
      [apply reach_new | reflexivity].
  - exists out. split; [exact HR|]. split; [exact Hnd|]. split; [exact HC|].
    apply Hexact.
    assert (Hout : Ok ([1; 3; 5], mem_5_1_3) = Ok (out, mem_5_1_3))
      by (apply (HR 4%nat); simpl; lia).
    injection Hout as <-. reflexivity.
Defined.

(** ** C6 and C7: the sentinel's value *)

(** C6, as the claim states it, fails: [Insert(-5)] on a new list returns
    true, and the sentinel's value, [-1], is not below [-5]. *)
Lemma C6_sentinel_counterexample :
  reachable NewConcurrentIntList ∧
  Insert 1 (-5) NewConcurrentIntList = Ok (true, mem_neg5) ∧
  ¬ (value_at (nodes NewConcurrentIntList)
              (root (ilist NewConcurrentIntList)) < -5).
Proof.
  split; [apply reach_new|]. split; [reflexivity|].
  unfold value_at. simpl. lia.
Qed.

Lemma insert_mem_root m val pre cur :
  root (ilist (insert_mem m val pre cur)) = root (ilist m).
Proof. done. Qed.

Lemma delete_mem_root m pre c :
  root (ilist (delete_mem m pre c)) = root (ilist m).
Proof. done. Qed.

Lemma reachable_root_value m :
  reachable m → value_at (nodes m) (root (ilist m)) = -1.
Proof.
  induction 1 as [|fuel c m b m' Hm IH Hc]; [done|].
  destruct (reachable_inv _ Hm) as [ps Hinv].
  destruct c as [v|v]; simpl in Hc.
  - pose proof (Insert_cases _ _ _ _ _ _ Hinv Hc) as H. destruct b.
    + destruct H as (_ & l1 & l2 & _ & -> & _).
      rewrite insert_mem_root, insert_mem_value_at, decide_False; [done|].
      assert (root (ilist m) < length (nodes m))%nat; [|lia].
      eapply inv_alloc; [exact Hinv|]. left.
    + by destruct H as [-> _].
  - pose proof (Delete_cases _ _ _ _ _ _ Hinv Hc) as H. destruct b.
    + destruct H as (l1 & c & l2 & _ & _ & -> & _).
      rewrite delete_mem_root. simpl.
      by rewrite value_at_set_marked, value_at_set_next.
    + by destruct H as [-> _].
Qed.

(** C6, amended: in every reachable state the sentinel's stored value is
    [-1]; it is strictly smaller than every value [v ≥ 0] that a caller
    successfully inserts. *)
Theorem C6_sentinel_value m fuel v m' :
  reachable m → Insert fuel v m = Ok (true, m') → 0 ≤ v →
  value_at (nodes m) (root (ilist m)) = -1 ∧
  value_at (nodes m) (root (ilist m)) < v.
Proof.
  intros Hm _ Hv. rewrite (reachable_root_value _ Hm). split; [done|lia].
Qed.

Lemma C6_sentinel_value_witness :
  value_at (nodes NewConcurrentIntList) (root (ilist NewConcurrentIntList))
  = -1 ∧
  value_at (nodes NewConcurrentIntList) (root (ilist NewConcurrentIntList))
  < 7.
Proof.
  apply (C6_sentinel_value NewConcurrentIntList 1 7 mem_7).
  - apply reach_new.
  - reflexivity.
  - lia.
Defined.

Lemma with_sentinel_inv s m ps :
  inv m ps →
  inv (with_sentinel s m) ps ∧ contents (with_sentinel s m) ps = contents m ps.
Proof.
  intros Hinv. set (r := root (ilist m)). set (h := nodes m).
  set (h' := alter (set_value s) r h).
  pose proof (inv_nodup _ _ Hinv) as Hnd. fold r in Hnd.
  apply NoDup_cons in Hnd as [Hr Hnd].
  assert (F1 : ∀ p, p ∈ ps → h' !! p = h !! p).
  { intros p Hin. unfold h'. rewrite list_lookup_alter_ne; [done|].
    by intros ->. }
  assert (F2 : ∀ p, marked_at h' p = marked_at h p).
  { intros p. unfold marked_at, h'. rewrite list_lookup_alter.
    destruct (decide (r = p)) as [->|]; by destruct (h !! p). }
  assert (F3 : ∀ p, quiet h p → quiet h' p).
  { intros p (nd & Hp & Hm & Hx). unfold quiet, h'.
    rewrite list_lookup_alter.
    destruct (decide (r = p)) as [->|]; rewrite Hp; simpl; eauto. }
  assert (Hc : contents (with_sentinel s m) ps = contents m ps).
  { unfold contents. apply fmap_agree. intros p Hin. simpl. fold r h h'.
    unfold value_at. by rewrite F1. }
  split; [|done]. split; simpl; fold r h h'.
  - destruct (inv_chain _ _ Hinv) as (_ & nr & Hnr & Hseg). fold r h in Hnr.
    split; [done|]. exists (set_value s nr). split.
    + unfold h'. by rewrite list_lookup_alter_eq, Hnr.
    + eapply lseg_ext; [|exact Hseg]. exact F1.
  - by apply NoDup_cons.
  - eapply Forall_impl; [apply (inv_quiet _ _ Hinv)|]. exact F3.
  - change (StronglySorted Z.lt (contents (with_sentinel s m) ps)).
    rewrite Hc. apply (inv_sorted _ _ Hinv).
  - apply (inv_size _ _ Hinv).
  - apply (inv_marks _ _ Hinv).
  - intros p Hin. rewrite F2. by apply (inv_marked _ _ Hinv).
  - intros p Hlt Hnot. apply (inv_off _ _ Hinv); [|done].
    unfold h' in Hlt. by rewrite length_alter in Hlt.
Qed.

(** C7: for every [v ≤ -1], [Insert(v)] on a new list returns true, and
    afterwards [Contains(v)] is true and [Range] yields [v] alone.  After
    any history, [Range] passes [-1] to the visitor exactly when the calls
    that returned true inserted [-1] more often than they deleted it.
    Storing any other value in the sentinel of a reachable list changes
    no result of [Contains], [Insert], [Delete] or [Range]. *)
Theorem C7_values_below_sentinel :
  (∀ v fuel, v ≤ -1 → (1 ≤ fuel)%nat →
     ∃ m1, Insert fuel v NewConcurrentIntList = Ok (true, m1) ∧
       ∀ fuel1, (length (nodes m1) ≤ fuel1)%nat →
         Contains fuel1 v m1 = Ok (true, m1) ∧
         Range fuel1 collect [] m1 = Ok ([v], m1)) ∧
  (∀ fuel cs bs m,
     run fuel cs NewConcurrentIntList = Ok (bs, m) →
     ∃ out,
       (∀ fuel', (length (nodes m) ≤ fuel')%nat →
                 Range fuel' collect [] m = Ok (out, m)) ∧
       (-1 ∈ out ↔ 0 < net_count (-1) cs bs)) ∧
  (∀ m s fuel v,
     reachable m → (length (nodes m) ≤ fuel)%nat →
     (∃ b, Contains fuel v m = Ok (b, m) ∧
           Contains fuel v (with_sentinel s m) = Ok (b, with_sentinel s m)) ∧
     (∃ b m1 m2, Insert fuel v m = Ok (b, m1) ∧
                 Insert fuel v (with_sentinel s m) = Ok (b, m2)) ∧
     (∃ b m1 m2, Delete fuel v m = Ok (b, m1) ∧
                 Delete fuel v (with_sentinel s m) = Ok (b, m2)) ∧
     (∃ out, Range fuel collect [] m = Ok (out, m) ∧
             Range fuel collect [] (with_sentinel s m)
             = Ok (out, with_sentinel s m))).
Proof.
  split_and!.
  - intros v fuel _ Hfuel.
    destruct (Insert_attempt_total _ [] v fuel inv_new Hfuel)
      as (b & m1 & _ & Hins & Hb & _).
    rewrite bool_decide_eq_false_2 in Hb by inversion 1. simpl in Hb. subst b.
    exists m1. split; [done|]. intros fuel1 Hfuel1.
    pose proof (Insert_cases _ _ _ _ _ _ inv_new Hins) as H. simpl in H.
    destruct H as (_ & l1 & l2 & Hnil & _ & Hinv1 & Hc).
    symmetry in Hnil. apply app_eq_nil in Hnil as [-> ->].
    rewrite (Contains_total _ _ v fuel1 Hinv1 Hfuel1).
    rewrite (Range_collect _ _ fuel1 Hinv1 Hfuel1), Hc. split; [|done].
    rewrite bool_decide_eq_true_2; [done|]. simpl. left.
  - intros fuel cs bs m Hrun.
    destruct (Range_after_run fuel cs bs m Hrun) as (out & HR & _ & Hnet).
    exists out. split; [done|]. apply Hnet.
  - intros m s fuel v [ps Hinv]%reachable_inv Hfuel.
    destruct (with_sentinel_inv s m ps Hinv) as [Hinv' Hc].
    assert (Hfuel' : (length (nodes (with_sentinel s m)) ≤ fuel)%nat).
    { simpl. by rewrite length_alter. }
    split_and!.
    + eexists. split; [by apply Contains_total|].
      rewrite (Contains_total _ ps) by done. by rewrite Hc.
    + destruct (Insert_attempt_total m ps v fuel Hinv Hfuel)
        as (b & m1 & _ & H1 & Hb & _).
      destruct (Insert_attempt_total _ ps v fuel Hinv' Hfuel')
        as (b' & m2 & _ & H2 & Hb' & _).
      rewrite Hc in Hb'. subst b b'. eauto.
    + destruct (Delete_attempt_total m ps v fuel Hinv Hfuel)
        as (b & m1 & _ & H1 & Hb & _).
      destruct (Delete_attempt_total _ ps v fuel Hinv' Hfuel')
        as (b' & m2 & _ & H2 & Hb' & _).
      rewrite Hc in Hb'. subst b b'. eauto.
    + exists (contents m ps). split; [by apply Range_collect|].
      rewrite <- Hc. by apply Range_collect.
Qed.

(** ** Marks are never taken back, on any memory *)

Lemma mono_refl m : mono m m.
Proof. by intros p. Qed.

Lemma mono_trans m1 m2 m3 : mono m1 m2 → mono m2 m3 → mono m1 m3.
Proof. intros H12 H23 p Hp. by apply H23, H12. Qed.

Lemma keeps_ret {A} (a : A) : keeps (mret a).
Proof. intros m a' m' H. unfold mret, M_ret in H. simplify_eq. apply mono_refl. Qed.

Lemma keeps_bind {A B} (c : M A) (k : A → M B) :
  keeps c → (∀ a, keeps (k a)) → keeps (c ≫= k).
Proof.
  intros Hc Hk m b m' H. unfold mbind, M_bind in H.
  destruct (c m) as [[a m1]| | |] eqn:Hcm; try done.
  eapply mono_trans; [by eapply Hc | by eapply Hk].
Qed.

Lemma keeps_same {A} (c : M A) :
  (∀ m a m', c m = Ok (a, m') → nodes m' = nodes m) → keeps c.
Proof. intros H m a m' Hc p. by rewrite (H _ _ _ Hc). Qed.

Lemma keeps_load p : keeps (load p).
Proof.
  apply keeps_same. intros m a m'. unfold load.
  destruct (nodes m !! p); intros; by simplify_eq.
Qed.

Lemma keeps_emit e : keeps (emit e).
Proof. apply keeps_same. intros m a m' H. unfold emit in H. by simplify_eq. Qed.

Lemma keeps_getRoot : keeps getRoot.
Proof. apply keeps_same. intros m a m' H. unfold getRoot in H. by simplify_eq. Qed.

Lemma keeps_sizeAdd d : keeps (sizeAdd d).
Proof. apply keeps_same. intros m a m' H. unfold sizeAdd in H. by simplify_eq. Qed.

Lemma keeps_Len : keeps Len.
Proof. apply keeps_same. intros m a m' H. unfold Len in H. by simplify_eq. Qed.

Lemma keeps_newIntNode val : keeps (newIntNode val).
Proof.
  intros m a m' H p Hp. unfold newIntNode in H. simplify_eq. simpl.
  rewrite marked_at_snoc; [done|]. by apply marked_at_alloc.
Qed.

(** A store keeps the marks when it does not clear the mark of the node
    it overwrites. *)
Lemma keeps_store_over p (f : intNode → intNode) :
  (∀ nd, marked_of nd = true → marked_of (f nd) = true) →
  keeps (nd ← load p; store p (f nd)).
Proof.
  intros Hf m a m' H q Hq. unfold mbind, M_bind, load, store in H.
  destruct (nodes m !! p) as [nd|] eqn:Hp; [|done]. simplify_eq. simpl.
  unfold marked_at in *. destruct (decide (p = q)) as [->|Hne].
  - rewrite list_lookup_insert_eq by by eapply lookup_lt_Some.
    rewrite Hp in Hq. simpl in *. by apply Hf.
  - by rewrite list_lookup_insert_ne.
Qed.

Lemma bind_assoc_M {A B C} (c : M A) (k : A → M B) (k' : B → M C) m :
  ((c ≫= k) ≫= k') m = (c ≫= λ a, k a ≫= k') m.
Proof. unfold mbind, M_bind. by destruct (c m) as [[a m1]| | |]. Qed.

Lemma keeps_ext {A} (c c' : M A) : (∀ m, c m = c' m) → keeps c → keeps c'.
Proof. intros Heq Hc m a m' H. rewrite <- Heq in H. by eapply Hc. Qed.

Lemma keeps_mark p : keeps (mark p).
Proof.
  apply (keeps_ext ((nd ← load p; store p (set_marked nd)) ≫= λ _, emit (EvMark p))).
  { intros m. by rewrite bind_assoc_M. }
  apply keeps_bind; [|intros; apply keeps_emit].
  by apply keeps_store_over.
Qed.

Lemma keeps_updateNext p nxt : keeps (updateNext p nxt).
Proof.
  apply (keeps_ext ((nd ← load p; store p (set_next nxt nd))
                    ≫= λ _, emit (EvUpdateNext p nxt))).
  { intros m. by rewrite bind_assoc_M. }
  apply keeps_bind; [|intros; apply keeps_emit].
  by apply keeps_store_over.
Qed.

Lemma keeps_Lock p : keeps (Lock p).
Proof.
  intros m a m' H q Hq. unfold Lock, mbind, M_bind, load in H.
  destruct (nodes m !! p) as [nd|] eqn:Hp; [|done].
  destruct (mutex nd); [done|]. unfold store, emit in H. simplify_eq. simpl.
  unfold marked_at in *. destruct (decide (p = q)) as [->|Hne].
  - rewrite list_lookup_insert_eq by by eapply lookup_lt_Some.
    by rewrite Hp in Hq.
  - by rewrite list_lookup_insert_ne.
Qed.

Lemma keeps_Unlock p : keeps (Unlock p).
Proof.
  intros m a m' H q Hq. unfold Unlock, mbind, M_bind, load in H.
  destruct (nodes m !! p) as [nd|] eqn:Hp; [|done].
  destruct (mutex nd); [|done]. unfold store, emit in H. simplify_eq. simpl.
  unfold marked_at in *. destruct (decide (p = q)) as [->|Hne].
  - rewrite list_lookup_insert_eq by by eapply lookup_lt_Some.
    by rewrite Hp in Hq.
  - by rewrite list_lookup_insert_ne.
Qed.

Lemma keeps_out_of_fuel {A} : keeps (@out_of_fuel A).
Proof. by intros m a m' H. Qed.

Lemma keeps_getValue p : keeps (getValue p).
Proof. apply keeps_bind; [apply keeps_load|intros; apply keeps_ret]. Qed.

Lemma keeps_marked p : keeps (marked p).
Proof. apply keeps_bind; [apply keeps_load|intros; apply keeps_ret]. Qed.

Lemma keeps_next p : keeps (next p).
Proof. apply keeps_bind; [apply keeps_load|intros; apply keeps_ret]. Qed.

Create HintDb keeps.
#[local] Hint Resolve keeps_ret keeps_load keeps_emit keeps_getRoot
  keeps_sizeAdd keeps_Len keeps_newIntNode keeps_mark keeps_updateNext
  keeps_Lock keeps_Unlock keeps_out_of_fuel keeps_getValue keeps_marked
  keeps_next : keeps.

(** One step through a computation: split a bind, a branch or a match. *)
Ltac keeps_step :=
  lazymatch goal with
  | |- keeps (mbind _ _) => apply keeps_bind; [|intros ?]
  | |- keeps (if ?b then _ else _) => destruct b
  | |- keeps (match ?x with _ => _ end) => destruct x
  | |- keeps _ => solve [eauto with keeps]
  end.

Lemma keeps_orM a b : keeps a → keeps b → keeps (orM a b).
Proof. intros Ha Hb. unfold orM. repeat keeps_step. Qed.

#[local] Hint Resolve keeps_orM : keeps.

Lemma keeps_Contains_loop fuel val nxt : keeps (Contains_loop fuel val nxt).
Proof.
  revert nxt. induction fuel as [|fuel IH]; intros nxt; simpl;
    repeat keeps_step.
  apply keeps_orM; repeat keeps_step.
Qed.

Lemma keeps_Insert_find fuel val pre cur : keeps (Insert_find fuel val pre cur).
Proof.
  revert pre cur. induction fuel as [|fuel IH]; intros pre cur; simpl;
    repeat keeps_step.
Qed.

Lemma keeps_Delete_find fuel val pre cur : keeps (Delete_find fuel val pre cur).
Proof.
  revert pre cur. induction fuel as [|fuel IH]; intros pre cur; simpl;
    repeat keeps_step.
  apply keeps_orM; repeat keeps_step.
Qed.

Lemma keeps_Range_loop {A} fuel (f : Z → A → bool * A) n acc :
  keeps (Range_loop fuel f n acc).
Proof.
  revert n acc. induction fuel as [|fuel IH]; intros n acc; simpl;
    repeat keeps_step.
Qed.

#[local] Hint Resolve keeps_Contains_loop keeps_Insert_find keeps_Delete_find
  keeps_Range_loop : keeps.

Lemma keeps_Insert_commit val pre cur : keeps (Insert_commit val pre cur).
Proof.
  unfold Insert_commit, sizeIncr. repeat keeps_step.
  apply keeps_orM; repeat keeps_step. apply keeps_orM; repeat keeps_step.
Qed.

Lemma keeps_Delete_commit pre c : keeps (Delete_commit pre c).
Proof.
  unfold Delete_commit, sizeDecr. repeat keeps_step.
  apply keeps_orM; repeat keeps_step.
Qed.

#[local] Hint Resolve keeps_Insert_commit keeps_Delete_commit : keeps.

Lemma keeps_retry n body : keeps body → keeps (retry n body).
Proof. intros Hb. induction n as [|n IH]; simpl; repeat keeps_step. Qed.

Lemma keeps_Insert fuel val : keeps (Insert fuel val).
Proof.
  apply keeps_retry. unfold Insert_attempt. repeat keeps_step.
Qed.

Lemma keeps_Delete fuel val : keeps (Delete fuel val).
Proof.
  apply keeps_retry. unfold Delete_attempt. repeat keeps_step.
Qed.

Lemma keeps_Contains fuel val : keeps (Contains fuel val).
Proof. unfold Contains. repeat keeps_step. Qed.

Lemma keeps_Range {A} fuel (f : Z → A → bool * A) acc :
  keeps (Range fuel f acc).
Proof. unfold Range. repeat keeps_step. Qed.

(** ** C8: every operation returns *)

Lemma exec_total fuel c m ps :
  inv m ps → (length (nodes m) ≤ fuel)%nat →
  ∃ b m' ps', exec fuel c m = Ok (b, m') ∧ inv m' ps' ∧
              (length (nodes m') ≤ S (length (nodes m)))%nat.
Proof.
  intros Hinv Hfuel. destruct c as [v|v]; simpl.
  - destruct (Insert_attempt_total m ps v fuel Hinv Hfuel)
      as (b & m' & _ & Hins & _ & _).
    pose proof (Insert_cases _ _ _ _ _ _ Hinv Hins) as H.
    exists b, m'. destruct b.
    + destruct H as (_ & l1 & l2 & _ & Hm' & Hinv' & _).
      eexists. split_and!; [done..|]. subst m'. simpl.
      rewrite length_app, length_alter. simpl. lia.
    + destruct H as [-> _]. exists ps. split_and!; [done..|lia].
  - destruct (Delete_attempt_total m ps v fuel Hinv Hfuel)
      as (b & m' & _ & Hdel & _ & _).
    pose proof (Delete_cases _ _ _ _ _ _ Hinv Hdel) as H.
    exists b, m'. destruct b.
    + destruct H as (l1 & c & l2 & _ & _ & Hm' & Hinv' & _).
      eexists. split_and!; [done..|]. subst m'. simpl.
      rewrite !length_alter. lia.
    + destruct H as [-> _]. exists ps. split_and!; [done..|lia].
Qed.

Lemma run_total fuel cs m ps :
  inv m ps → (length (nodes m) + length cs ≤ fuel)%nat →
  ∃ bs m', run fuel cs m = Ok (bs, m').
Proof.
  revert m ps. induction cs as [|c cs IH]; intros m ps Hinv Hfuel.
  - by exists [], m.
  - simpl in Hfuel.
    destruct (exec_total fuel c m ps Hinv) as (b & m1 & ps1 & Hc & Hinv1 & Hlen);
      [lia|].
    destruct (IH m1 ps1 Hinv1) as (bs & m' & Hrun); [lia|].
    exists (b :: bs), m'. apply run_cons. by exists b, bs, m1.
Qed.

(** C8: on every reachable list, with fuel for one pass over the heap,
    every operation returns: [Contains], [Range] with any visitor and
    [Len] leave the memory as it was; the first pass through the body of
    [Insert] and of [Delete] ends in a return, never in [goto start], so
    the call returns even when no retry is allowed; no call panics on a
    nil pointer or blocks on a mutex.  Every sequence of calls on a new
    list runs to completion. *)
Theorem C8_operations_total :
  (∀ m fuel,
     reachable m → (length (nodes m) ≤ fuel)%nat →
     (∀ v, ∃ b, Contains fuel v m = Ok (b, m)) ∧
     (∀ v, ∃ b m', Insert_attempt fuel v m = Ok (Return b, m') ∧
                   retry 0 (Insert_attempt fuel v) m = Ok (b, m') ∧
                   Insert fuel v m = Ok (b, m') ∧ reachable m') ∧
     (∀ v, ∃ b m', Delete_attempt fuel v m = Ok (Return b, m') ∧
                   retry 0 (Delete_attempt fuel v) m = Ok (b, m') ∧
                   Delete fuel v m = Ok (b, m') ∧ reachable m') ∧
     (∀ A (f : Z → A → bool * A) acc,
        ∃ acc', Range fuel f acc m = Ok (acc', m)) ∧
     (∃ n, Len m = Ok (n, m) ∧ - 2 ^ 63 ≤ n < 2 ^ 63)) ∧
  (∀ cs fuel, (length cs < fuel)%nat →
     ∃ bs m, run fuel cs NewConcurrentIntList = Ok (bs, m)).
Proof.
  split.
  - intros m fuel Hm Hfuel. destruct (reachable_inv _ Hm) as [ps Hinv].
    split_and!.
    + intros v. eexists. by apply Contains_total.
    + intros v. destruct (Insert_attempt_total m ps v fuel Hinv Hfuel)
        as (b & m' & Hatt & Hins & _ & _).
      exists b, m'. split_and!; try done.
      * by apply retry_return.
      * by apply (reach_call fuel (CallInsert v) m b m').
    + intros v. destruct (Delete_attempt_total m ps v fuel Hinv Hfuel)
        as (b & m' & Hatt & Hdel & _ & _).
      exists b, m'. split_and!; try done.
      * by apply retry_return.
      * by apply (reach_call fuel (CallDelete v) m b m').
    + intros A f acc. eexists. apply (Range_spec f m ps); [done|].
      pose proof (inv_length _ _ Hinv). lia.
    + exists (size (ilist m)). split; [done|].
      rewrite (inv_size _ _ Hinv). apply wrap64_range.
  - intros cs fuel Hfuel. apply (run_total fuel cs _ [] inv_new).
    simpl. lia.
Qed.

Lemma C8_operations_total_witness :
  (∀ v, ∃ b, Contains 4 v mem_5_1_3 = Ok (b, mem_5_1_3)) ∧
  (∀ v, ∃ b m', Insert_attempt 4 v mem_5_1_3 = Ok (Return b, m') ∧
                retry 0 (Insert_attempt 4 v) mem_5_1_3 = Ok (b, m') ∧
                Insert 4 v mem_5_1_3 = Ok (b, m') ∧ reachable m') ∧
  (∀ v, ∃ b m', Delete_attempt 4 v mem_5_1_3 = Ok (Return b, m') ∧
                retry 0 (Delete_attempt 4 v) mem_5_1_3 = Ok (b, m') ∧
                Delete 4 v mem_5_1_3 = Ok (b, m') ∧ reachable m') ∧
  (∀ A (f : Z → A → bool * A) acc,
     ∃ acc', Range 4 f acc mem_5_1_3 = Ok (acc', mem_5_1_3)) ∧
  (∃ n, Len mem_5_1_3 = Ok (n, mem_5_1_3) ∧ - 2 ^ 63 ≤ n < 2 ^ 63).
Proof.
  apply (proj1 C8_operations_total mem_5_1_3 4%nat).
  - apply (run_reachable 4 [CallInsert 5; CallInsert 1; CallInsert 3]
             NewConcurrentIntList [true; true; true]);
      [apply reach_new | reflexivity].
  - simpl. lia.
Defined.

Lemma C7_values_below_sentinel_witness :
  ∃ m1, Insert 1 (-5) NewConcurrentIntList = Ok (true, m1) ∧
    ∀ fuel1, (length (nodes m1) ≤ fuel1)%nat →
      Contains fuel1 (-5) m1 = Ok (true, m1) ∧
      Range fuel1 collect [] m1 = Ok ([-5], m1).
Proof.
  apply (proj1 C7_values_below_sentinel (-5) 1%nat); lia.
Defined.

Example Insert_below_sentinel :
  Insert 1 (-5) NewConcurrentIntList = Ok (true, mem_neg5) ∧
  Contains 2 (-5) mem_neg5 = Ok (true, mem_neg5) ∧
  Contains 2 (-1) mem_neg5 = Ok (false, mem_neg5) ∧
  Range 2 collect [] mem_neg5 = Ok ([-5], mem_neg5).
Proof. repeat split. Qed.

(** ** C9: marking and unlinking *)

Lemma Delete_step m fuel v m' :
  reachable m → Delete fuel v m = Ok (true, m') →
  ∃ pre c, delete_step m m' v pre c.
Proof.
  intros [ps Hinv]%reachable_inv Hdel.
  destruct (Delete_cases _ _ _ _ _ _ Hinv Hdel)
    as (l1 & c & l2 & -> & Hv & -> & _).
  set (pre := last_from (root (ilist m)) l1).
  destruct (attempt_pre m l1 (c :: l2) Hinv) as (ndp & Hp & Hnx & _).
  fold pre in Hp.
  pose proof (attempt_pre_ne m l1 (c :: l2) Hinv c eq_refl) as Hne.
  fold pre in Hne.
  assert (Hq : quiet (nodes m) c).
  { eapply attempt_quiet; [exact Hinv|]. apply elem_of_app. right. left. }
  exists pre, c. unfold delete_step. split_and!; try done.
  - unfold next_at. by rewrite Hp.
  - by apply quiet_unmarked.
  - simpl. rewrite marked_at_set_marked, decide_True; [done|].
    split; [done|]. rewrite length_alter. by apply quiet_alloc.
  - simpl. unfold next_at at 1.
    rewrite list_lookup_alter_ne by done.
    by rewrite list_lookup_alter_eq, Hp.
Qed.

Lemma Insert_step m fuel v m' :
  reachable m → Insert fuel v m = Ok (true, m') →
  ∃ pre, insert_step m m' v pre.
Proof.
  intros [ps Hinv]%reachable_inv Hins.
  destruct (Insert_cases _ _ _ _ _ _ Hinv Hins)
    as (_ & l1 & l2 & -> & -> & _).
  set (pre := last_from (root (ilist m)) l1).
  destruct (attempt_pre m l1 l2 Hinv) as (ndp & Hp & Hnx & _).
  fold pre in Hp.
  assert (Hlt : (pre < length (nodes m))%nat) by by eapply lookup_lt_Some.
  assert (Hnext : next_at (nodes m) pre = head l2).
  { unfold next_at. by rewrite Hp. }
  exists pre. unfold insert_step. rewrite Hnext. simpl. split_and!.
  - done.
  - unfold next_at. rewrite lookup_app_l by by rewrite length_alter.
    by rewrite list_lookup_alter_eq, Hp.
  - unfold next_at. rewrite list_lookup_middle; [done|].
    by rewrite length_alter.
  - unfold value_at. rewrite list_lookup_middle; [done|].
    by rewrite length_alter.
  - unfold marked_at. rewrite list_lookup_middle; [done|].
    by rewrite length_alter.
Qed.

Lemma reachable_linked_or_marked m :
  reachable m →
  NoDup (marks (trace m)) ∧
  ∃ nr ps, nodes m !! root (ilist m) = Some nr ∧
           lseg (nodes m) (next_of nr) ps None ∧
           linked_or_marked m ps.
Proof.
  intros [ps Hinv]%reachable_inv. split; [apply (inv_marks _ _ Hinv)|].
  destruct (inv_root _ _ Hinv) as (nr & Hnr & Hseg).
  exists nr, ps. split_and!; try done.
  intros p Hlt. case_decide as Hin.
  - pose proof (inv_quiet _ _ Hinv) as Hq. rewrite Forall_forall in Hq.
    pose proof (quiet_unmarked _ _ (Hq _ Hin)) as Hm. split; [done|].
    intros Hmk%(inv_marked _ _ Hinv). congruence.
  - pose proof (inv_off _ _ Hinv p Hlt Hin) as Hmk. split; [|done].
    by apply (inv_marked _ _ Hinv).
Qed.

Lemma keeps_exec fuel c : keeps (exec fuel c).
Proof. destruct c; [apply keeps_Insert | apply keeps_Delete]. Qed.

(** C9: a new node is unmarked.  On every memory, no call of [Insert],
    [Delete], [Contains], [Range] or [Len] that returns has reset a mark.
    In every reachable state no node was marked twice, and every
    allocated node is either on the chain and unmarked or off the chain
    and marked.  A [Delete] that returns true first marks the node it
    removes and then redirects the predecessor's successor pointer; an
    [Insert] that returns true unlinks nothing. *)
Theorem C9_mark_once_then_unlink :
  (∀ val m, ∃ m', newIntNode val m = Ok (length (nodes m), m') ∧
                  marked_at (nodes m') (length (nodes m)) = false) ∧
  ((∀ fuel c, keeps (exec fuel c)) ∧
   (∀ fuel v, keeps (Contains fuel v)) ∧
   (∀ A fuel (f : Z → A → bool * A) acc, keeps (Range fuel f acc)) ∧
   keeps Len) ∧
  (∀ m, reachable m →
     NoDup (marks (trace m)) ∧
     ∃ nr ps, nodes m !! root (ilist m) = Some nr ∧
              lseg (nodes m) (next_of nr) ps None ∧
              linked_or_marked m ps) ∧
  (∀ m fuel v m',
     reachable m → Delete fuel v m = Ok (true, m') →
     ∃ pre c, delete_step m m' v pre c) ∧
  (∀ m fuel v m',
     reachable m → Insert fuel v m = Ok (true, m') →
     ∃ pre, insert_step m m' v pre).
Proof.
  split_and!.
  - intros val m. eexists. split; [reflexivity|]. simpl.
    unfold marked_at. by rewrite list_lookup_middle.
  - apply keeps_exec.
  - apply keeps_Contains.
  - intros A. apply keeps_Range.
  - apply keeps_Len.
  - apply reachable_linked_or_marked.
  - apply Delete_step.
  - apply Insert_step.
Qed.

Lemma C9_mark_once_then_unlink_witness :
  ∃ pre c, delete_step mem_5_1_3 mem_5_1_del3 3 pre c.
Proof.
  apply (proj1 (proj2 (proj2 (proj2 C9_mark_once_then_unlink)))
           mem_5_1_3 4%nat 3 mem_5_1_del3).
  - apply (run_reachable 4 [CallInsert 5; CallInsert 1; CallInsert 3]
             NewConcurrentIntList [true; true; true]);
      [apply reach_new | reflexivity].
  - reflexivity.
Defined.

Example delete_step_5_1_3 : delete_step mem_5_1_3 mem_5_1_del3 3 2 3.
Proof. repeat split. Qed.

(** ** Beyond the claims: the list as a set *)

Lemma sorted_lt_ext (l1 l2 : list Z) :
  StronglySorted Z.lt l1 → StronglySorted Z.lt l2 →
  (∀ w, w ∈ l1 ↔ w ∈ l2) → l1 = l2.
Proof.
  intros H1. revert l2. induction H1 as [|x l1 Hs1 IH Hx]; intros l2 H2 Hmem.
  - destruct l2 as [|y l2]; [done|]. exfalso.
    assert (Hy : y ∈ @nil Z) by (apply Hmem; left). inversion Hy.
  - destruct H2 as [|y l2 Hs2 Hy].
    { exfalso. assert (Hin : x ∈ @nil Z) by (apply Hmem; left). inversion Hin. }
    rewrite Forall_forall in Hx, Hy.
    assert (Hxy : x = y).
    { assert (Hx2 : x ∈ y :: l2) by (apply Hmem; left).
      assert (Hy1 : y ∈ x :: l1) by (apply Hmem; left).
      apply elem_of_cons in Hx2 as [?|Hx2]; [done|].
      apply elem_of_cons in Hy1 as [?|Hy1]; [done|].
      specialize (Hx _ Hy1). specialize (Hy _ Hx2). lia. }
    subst y. f_equal. apply IH; [done|]. intros w. split; intros Hw.
    + assert (Hw' : w ∈ x :: l2) by (apply Hmem; by right).
      apply elem_of_cons in Hw' as [->|?]; [|done].
      specialize (Hx _ Hw). lia.
    + assert (Hw' : w ∈ x :: l1) by (apply Hmem; by right).
      apply elem_of_cons in Hw' as [->|?]; [|done].
      specialize (Hy _ Hw). lia.
Qed.

(** A call acts on the values as on a set: [Insert(v)] adds [v] and
    [Delete(v)] removes it; the answer tells whether that changed it. *)
Lemma exec_abstract fuel c m ps b m' :
  inv m ps → exec fuel c m = Ok (b, m') →
  ∃ ps', inv m' ps' ∧
    match c with
    | CallInsert v =>
        b = negb (bool_decide (v ∈ contents m ps)) ∧
        ∀ w, w ∈ contents m' ps' ↔ w = v ∨ w ∈ contents m ps
    | CallDelete v =>
        b = bool_decide (v ∈ contents m ps) ∧
        ∀ w, w ∈ contents m' ps' ↔ w ≠ v ∧ w ∈ contents m ps
    end.
Proof.
  intros Hinv Hc. destruct c as [v|v]; simpl in Hc.
  - pose proof (Insert_cases _ _ _ _ _ _ Hinv Hc) as H. destruct b.
    + destruct H as (Hnot & l1 & l2 & -> & _ & Hinv' & Hcont).
      eexists. split; [exact Hinv'|]. split.
      * by rewrite bool_decide_eq_false_2.
      * intros w. rewrite Hcont. unfold contents. rewrite fmap_app.
        rewrite !elem_of_app, elem_of_cons. tauto.
    + destruct H as [-> Hin]. exists ps. split; [done|]. split.
      * by rewrite bool_decide_eq_true_2.
      * intros w. split; [tauto|]. intros [->|?]; done.
  - pose proof (Delete_cases _ _ _ _ _ _ Hinv Hc) as H. destruct b.
    + destruct H as (l1 & c & l2 & -> & Hv & _ & Hinv' & Hcont & Hnot).
      eexists. split; [exact Hinv'|].
      assert (Hold : ∀ w, w ∈ contents m (l1 ++ c :: l2)
                          ↔ w = v ∨ w ∈ contents m l1 ++ contents m l2).
      { intros w. unfold contents. rewrite fmap_app, fmap_cons, Hv.
        rewrite !elem_of_app, elem_of_cons. tauto. }
      split.
      * rewrite bool_decide_eq_true_2; [done|]. apply Hold. by left.
      * intros w. rewrite Hcont in Hnot |- *. rewrite Hold. split.
        -- intros Hw. split; [|by right]. by intros ->.
        -- intros [Hne [?|?]]; done.
    + destruct H as [-> Hnot]. exists ps. split; [done|]. split.
      * by rewrite bool_decide_eq_false_2.
      * intros w. split; [|tauto]. intros Hw. split; [|done]. by intros ->.
Qed.

Lemma set_exec_mem c s w :
  w ∈ (set_exec c s).2 ↔
  match c with
  | CallInsert v => w = v ∨ w ∈ s
  | CallDelete v => w ≠ v ∧ w ∈ s
  end.
Proof.
  destruct c as [v|v]; simpl.
  - by rewrite elem_of_cons.
  - by rewrite list_elem_of_filter.
Qed.

Lemma exec_set fuel c m ps s b m' :
  inv m ps → (∀ w, w ∈ contents m ps ↔ w ∈ s) →
  exec fuel c m = Ok (b, m') →
  ∃ ps', inv m' ps' ∧ b = (set_exec c s).1 ∧
         ∀ w, w ∈ contents m' ps' ↔ w ∈ (set_exec c s).2.
Proof.
  intros Hinv Hs Hc.
  destruct (exec_abstract _ _ _ _ _ _ Hinv Hc) as (ps' & Hinv' & H).
  exists ps'. split; [done|].
  destruct c as [v|v]; destruct H as [-> Hmem]; simpl.
  - split; [by rewrite (bool_decide_ext _ _ (Hs v))|].
    intros w. rewrite Hmem, elem_of_cons, Hs. done.
  - split; [by rewrite (bool_decide_ext _ _ (Hs v))|].
    intros w. rewrite Hmem, list_elem_of_filter, Hs. done.
Qed.

Lemma run_set fuel cs m ps s bs m' :
  inv m ps → (∀ w, w ∈ contents m ps ↔ w ∈ s) →
  run fuel cs m = Ok (bs, m') →
  ∃ ps', inv m' ps' ∧ bs = (set_run cs s).1 ∧
         ∀ w, w ∈ contents m' ps' ↔ w ∈ (set_run cs s).2.
Proof.
  revert m ps s bs. induction cs as [|c cs IH]; intros m ps s bs Hinv Hs Hrun.
  - simpl in Hrun. unfold mret, M_ret in Hrun. simplify_eq. by exists ps.
  - apply run_cons in Hrun as (b & bs' & m1 & -> & Hc & Hrun).
    destruct (exec_set _ _ _ _ _ _ _ Hinv Hs Hc) as (ps1 & Hinv1 & Hb & Hs1).
    destruct (IH _ _ _ _ Hinv1 Hs1 Hrun) as (ps' & Hinv' & Hbs & Hs').
    exists ps'. split; [done|]. simpl.
    destruct (set_exec c s) as [b0 s1]. simpl in *.
    destruct (set_run cs s1) as [bs0 s2]. simpl in *.
    by subst.
Qed.

(** X1: the list is a set of integers.  Whatever calls run to completion
    on a new list, every call returned what a set would have answered,
    [Range] yields the set's elements in ascending order, and [Contains]
    answers membership in it. *)
Theorem X1_history_refines_set fuel cs bs m :
  run fuel cs NewConcurrentIntList = Ok (bs, m) →
  bs = (set_run cs []).1 ∧
  ∃ out,
    StronglySorted Z.lt out ∧
    (∀ w, w ∈ out ↔ w ∈ (set_run cs []).2) ∧
    ∀ fuel', (length (nodes m) ≤ fuel')%nat →
      Range fuel' collect [] m = Ok (out, m) ∧
      ∀ v, Contains fuel' v m
           = Ok (bool_decide (v ∈ (set_run cs []).2), m).
Proof.
  intros Hrun.
  destruct (run_set fuel cs _ [] [] bs m inv_new) as (ps & Hinv & Hbs & Hs);
    [done..|].
  split; [done|]. exists (contents m ps). split_and!.
  - apply (inv_sorted _ _ Hinv).
  - done.
  - intros fuel' Hfuel. split; [by apply Range_collect|]. intros v.
    rewrite (Contains_total m ps) by done.
    by rewrite (bool_decide_ext _ _ (Hs v)).
Qed.

Lemma X1_history_refines_set_witness :
  [true; false; true] = (set_run [CallInsert 3; CallInsert 3; CallDelete 3] []).1 ∧
  ∃ out,
    StronglySorted Z.lt out ∧
    (∀ w, w ∈ out
          ↔ w ∈ (set_run [CallInsert 3; CallInsert 3; CallDelete 3] []).2) ∧
    ∀ fuel', (length (nodes mem_3_3_del) ≤ fuel')%nat →
      Range fuel' collect [] mem_3_3_del = Ok (out, mem_3_3_del) ∧
      ∀ v, Contains fuel' v mem_3_3_del
           = Ok (bool_decide
                   (v ∈ (set_run [CallInsert 3; CallInsert 3; CallDelete 3]
                           []).2), mem_3_3_del).
Proof.
  apply (X1_history_refines_set 3 [CallInsert 3; CallInsert 3; CallDelete 3]).
  reflexivity.
Defined.

(** X2: a call on [v] changes nothing for any other value: on every
    reachable list, [Contains(w)] answers after [Insert(v)] or [Delete(v)]
    what it answered before, for every [w ≠ v]. *)
Theorem X2_other_values_untouched m fuel c b m' w :
  reachable m → exec fuel c m = Ok (b, m') → w ≠ arg c →
  ∃ a, (∀ f, (length (nodes m) ≤ f)%nat → Contains f w m = Ok (a, m)) ∧
       (∀ f, (length (nodes m') ≤ f)%nat → Contains f w m' = Ok (a, m')).
Proof.
  intros [ps Hinv]%reachable_inv Hc Hw.
  destruct (exec_abstract _ _ _ _ _ _ Hinv Hc) as (ps' & Hinv' & H).
  exists (bool_decide (w ∈ contents m ps)). split.
  - intros f Hf. by apply Contains_total.
  - intros f Hf. rewrite (Contains_total m' ps') by done. do 2 f_equal.
    apply bool_decide_ext.
    destruct c as [v|v]; destruct H as [_ Hmem]; rewrite Hmem; simpl in Hw;
      tauto.
Qed.

Lemma X2_other_values_untouched_witness :
  ∃ a, (∀ f, (length (nodes mem_5_1_3) ≤ f)%nat →
             Contains f 5 mem_5_1_3 = Ok (a, mem_5_1_3)) ∧
       (∀ f, (length (nodes mem_5_1_del3) ≤ f)%nat →
             Contains f 5 mem_5_1_del3 = Ok (a, mem_5_1_del3)).
Proof.
  apply (X2_other_values_untouched mem_5_1_3 4 (CallDelete 3) true
           mem_5_1_del3 5).
  - apply (run_reachable 4 [CallInsert 5; CallInsert 1; CallInsert 3]
             NewConcurrentIntList [true; true; true]);
      [apply reach_new | reflexivity].
  - reflexivity.
  - simpl. lia.
Defined.

(** Two lists at rest that hold the same values yield the same [Range]
    and the same [Len]. *)
Lemma same_values_same_view m1 ps1 m2 ps2 :
  inv m1 ps1 → inv m2 ps2 →
  (∀ w, w ∈ contents m1 ps1 ↔ w ∈ contents m2 ps2) →
  contents m1 ps1 = contents m2 ps2 ∧ size (ilist m1) = size (ilist m2).
Proof.
  intros H1 H2 Hmem.
  assert (Hc : contents m1 ps1 = contents m2 ps2).
  { apply sorted_lt_ext; [apply (inv_sorted _ _ H1)|apply (inv_sorted _ _ H2)|].
    done. }
  split; [done|]. rewrite (inv_size _ _ H1), (inv_size _ _ H2).
  apply (f_equal length) in Hc. unfold contents in Hc.
  rewrite !length_fmap in Hc. by rewrite Hc.
Qed.

(** X3: [Insert(v)] and [Delete(v)] undo each other.  On every reachable
    list without [v], [Insert(v)] then [Delete(v)] both return true and
    leave [Range] and [Len] as they were; on every reachable list with
    [v], so do [Delete(v)] then [Insert(v)]. *)
Theorem X3_Insert_Delete_round_trip m fuel v :
  reachable m → (length (nodes m) + 2 ≤ fuel)%nat →
  ∃ hit c1 c2 m1 m2 out n,
    Contains fuel v m = Ok (hit, m) ∧
    (c1, c2) = (if hit then (CallDelete v, CallInsert v)
                else (CallInsert v, CallDelete v)) ∧
    exec fuel c1 m = Ok (true, m1) ∧
    exec fuel c2 m1 = Ok (true, m2) ∧
    Range fuel collect [] m = Ok (out, m) ∧
    Range fuel collect [] m2 = Ok (out, m2) ∧
    Len m = Ok (n, m) ∧ Len m2 = Ok (n, m2).
Proof.
  intros [ps Hinv]%reachable_inv Hfuel.
  set (hit := bool_decide (v ∈ contents m ps)).
  set (c1 := if hit then CallDelete v else CallInsert v).
  set (c2 := if hit then CallInsert v else CallDelete v).
  destruct (exec_total fuel c1 m ps Hinv) as (b1 & m1 & ps1 & H1 & Hinv1 & Hl1);
    [lia|].
  destruct (exec_total fuel c2 m1 ps1 Hinv1)
    as (b2 & m2 & ps2 & H2 & Hinv2 & Hl2); [lia|].
  destruct (exec_abstract _ _ _ _ _ _ Hinv H1) as (ps1' & Hinv1' & A1).
  destruct (exec_abstract _ _ _ _ _ _ Hinv1' H2) as (ps2' & Hinv2' & A2).
  assert (Hres : b1 = true ∧ b2 = true ∧
                 ∀ w, w ∈ contents m2 ps2' ↔ w ∈ contents m ps).
  { unfold c1, c2, hit in *. case_bool_decide as Hin.
    - destruct A1 as [-> M1], A2 as [-> M2].
      rewrite bool_decide_eq_true_2, bool_decide_eq_false_2; [|by rewrite M1; tauto|done].
      split_and!; try done. intros w. rewrite M2, M1.
      destruct (decide (w = v)) as [->|]; tauto.
    - destruct A1 as [-> M1], A2 as [-> M2].
      rewrite bool_decide_eq_false_2, bool_decide_eq_true_2; [|by rewrite M1; tauto|done].
      split_and!; try done. intros w. rewrite M2, M1.
      destruct (decide (w = v)) as [->|]; tauto. }
  destruct Hres as (-> & -> & Hmem).
  destruct (same_values_same_view _ _ _ _ Hinv2' Hinv Hmem) as [Hc Hsz].
  exists hit, c1, c2, m1, m2, (contents m ps), (size (ilist m)).
  split_and!; try done.
  - apply Contains_total; [done|lia].
  - unfold c1, c2. by destruct hit.
  - apply Range_collect; [done|lia].
  - rewrite <- Hc. apply Range_collect; [done|]. lia.
  - unfold Len. by rewrite Hsz.
Qed.

Lemma X3_Insert_Delete_round_trip_witness :
  ∃ hit c1 c2 m1 m2 out n,
    Contains 6 3 mem_5_1_3 = Ok (hit, mem_5_1_3) ∧
    (c1, c2) = (if hit then (CallDelete 3, CallInsert 3)
                else (CallInsert 3, CallDelete 3)) ∧
    exec 6 c1 mem_5_1_3 = Ok (true, m1) ∧
    exec 6 c2 m1 = Ok (true, m2) ∧
    Range 6 collect [] mem_5_1_3 = Ok (out, mem_5_1_3) ∧
    Range 6 collect [] m2 = Ok (out, m2) ∧
    Len mem_5_1_3 = Ok (n, mem_5_1_3) ∧ Len m2 = Ok (n, m2).
Proof.
  apply (X3_Insert_Delete_round_trip mem_5_1_3 6 3).
  - apply (run_reachable 4 [CallInsert 5; CallInsert 1; CallInsert 3]
             NewConcurrentIntList [true; true; true]);
      [apply reach_new | reflexivity].
  - simpl. lia.
Defined.

(** X4: calls on different values commute.  On every reachable list, two
    calls with different arguments return the same answers in either
    order and leave the same [Range] and the same [Len]. *)
Theorem X4_calls_on_distinct_values_commute m fuel c1 c2 :
  reachable m → (length (nodes m) + 2 ≤ fuel)%nat → arg c1 ≠ arg c2 →
  ∃ b1 b2 ma mb out n,
    run fuel [c1; c2] m = Ok ([b1; b2], ma) ∧
    run fuel [c2; c1] m = Ok ([b2; b1], mb) ∧
    Range fuel collect [] ma = Ok (out, ma) ∧
    Range fuel collect [] mb = Ok (out, mb) ∧
    Len ma = Ok (n, ma) ∧ Len mb = Ok (n, mb).
Proof.
  intros [ps Hinv]%reachable_inv Hfuel Hne.
  destruct (exec_total fuel c1 m ps Hinv) as (b1 & m1 & q1 & H1 & I1 & L1);
    [lia|].
  destruct (exec_total fuel c2 m1 q1 I1) as (b2 & ma & qa & H2 & Ia & La);
    [lia|].
  destruct (exec_total fuel c2 m ps Hinv) as (b2' & m2 & q2 & H3 & I2 & L2);
    [lia|].
  destruct (exec_total fuel c1 m2 q2 I2) as (b1' & mb & qb & H4 & Ib & Lb);
    [lia|].
  destruct (exec_abstract _ _ _ _ _ _ Hinv H1) as (p1 & J1 & A1).
  destruct (exec_abstract _ _ _ _ _ _ J1 H2) as (pa & Ja & A2).
  destruct (exec_abstract _ _ _ _ _ _ Hinv H3) as (p2 & J2 & A3).
  destruct (exec_abstract _ _ _ _ _ _ J2 H4) as (pb & Jb & A4).
  assert (Hres : b1' = b1 ∧ b2' = b2 ∧
                 ∀ w, w ∈ contents ma pa ↔ w ∈ contents mb pb).
  { destruct c1 as [v1|v1], c2 as [v2|v2]; simpl in Hne;
      destruct A1 as [-> M1], A2 as [-> M2], A3 as [-> M3], A4 as [-> M4];
      (split_and!;
       [ first [f_equal; apply bool_decide_ext | apply bool_decide_ext];
         rewrite M3; intuition congruence
       | first [f_equal; apply bool_decide_ext | apply bool_decide_ext];
         rewrite M1; intuition congruence
       | intros w; rewrite M2, M1, M4, M3; intuition congruence ]). }
  destruct Hres as (-> & -> & Hmem).
  destruct (same_values_same_view _ _ _ _ Ja Jb Hmem) as [Hc Hsz].
  exists b1, b2, ma, mb, (contents ma pa), (size (ilist ma)).
  split_and!.
  - apply run_cons. exists b1, [b2], m1. split_and!; try done.
    apply run_cons. by exists b2, [], ma.
  - apply run_cons. exists b2, [b1], m2. split_and!; try done.
    apply run_cons. by exists b1, [], mb.
  - apply Range_collect; [done|lia].
  - rewrite Hc. apply Range_collect; [done|lia].
  - done.
  - unfold Len. by rewrite Hsz.
Qed.

Lemma X4_calls_on_distinct_values_commute_witness :
  ∃ b1 b2 ma mb out n,
    run 6 [CallDelete 3; CallInsert 4] mem_5_1_3 = Ok ([b1; b2], ma) ∧
    run 6 [CallInsert 4; CallDelete 3] mem_5_1_3 = Ok ([b2; b1], mb) ∧
    Range 6 collect [] ma = Ok (out, ma) ∧
    Range 6 collect [] mb = Ok (out, mb) ∧
    Len ma = Ok (n, ma) ∧ Len mb = Ok (n, mb).
Proof.
  apply (X4_calls_on_distinct_values_commute mem_5_1_3 6
           (CallDelete 3) (CallInsert 4)).
  - apply (run_reachable 4 [CallInsert 5; CallInsert 1; CallInsert 3]
             NewConcurrentIntList [true; true; true]);
      [apply reach_new | reflexivity].
  - simpl. lia.
  - simpl. lia.
Defined.

(** ** Beyond the claims: the counter over a history *)

Lemma exec_length fuel c m ps b m' :
  inv m ps → exec fuel c m = Ok (b, m') →
  ∃ ps', inv m' ps' ∧
         Z.of_nat (length ps') = Z.of_nat (length ps) + delta c b.
Proof.
  intros Hinv Hc. destruct c as [v|v]; simpl in Hc.
  - pose proof (Insert_cases _ _ _ _ _ _ Hinv Hc) as H. destruct b.
    + destruct H as (_ & l1 & l2 & -> & _ & Hinv' & _).
      eexists. split; [exact Hinv'|]. rewrite !length_app. simpl. lia.
    + destruct H as [-> _]. exists ps. split; [done|]. simpl. lia.
  - pose proof (Delete_cases _ _ _ _ _ _ Hinv Hc) as H. destruct b.
    + destruct H as (l1 & c & l2 & -> & _ & _ & Hinv' & _).
      eexists. split; [exact Hinv'|]. rewrite !length_app. simpl. lia.
    + destruct H as [-> _]. exists ps. split; [done|]. simpl. lia.
Qed.

Lemma run_length fuel cs m ps bs m' :
  inv m ps → run fuel cs m = Ok (bs, m') →
  ∃ ps', inv m' ps' ∧
         Z.of_nat (length ps') = Z.of_nat (length ps) + balance cs bs.
Proof.
  revert m ps bs. induction cs as [|c cs IH]; intros m ps bs Hinv Hrun.
  - simpl in Hrun. unfold mret, M_ret in Hrun. simplify_eq.
    exists ps. split; [done|]. simpl. lia.
  - apply run_cons in Hrun as (b & bs' & m1 & -> & Hc & Hrun).
    destruct (exec_length _ _ _ _ _ _ Hinv Hc) as (ps1 & Hinv1 & H1).
    destruct (IH _ _ _ Hinv1 Hrun) as (ps' & Hinv' & H').
    exists ps'. split; [done|]. simpl. lia.
Qed.

Lemma balance_le cs bs : balance cs bs ≤ Z.of_nat (length cs).
Proof.
  revert bs. induction cs as [|c cs IH]; intros [|b bs]; simpl; try lia.
  specialize (IH bs). destruct c, b; simpl; lia.
Qed.

(** X5: after every history on a new list, the calls of [Delete] that
    returned true do not outnumber the calls of [Insert] that returned
    true, and [Len] is the difference, as an [int64]: the difference
    itself when the history has fewer than [2^63] calls. *)
Theorem X5_Len_is_balance fuel cs bs m :
  run fuel cs NewConcurrentIntList = Ok (bs, m) →
  0 ≤ balance cs bs ≤ Z.of_nat (length cs) ∧
  Len m = Ok (wrap64 (balance cs bs), m) ∧
  (Z.of_nat (length cs) < 2 ^ 63 → Len m = Ok (balance cs bs, m)).
Proof.
  intros Hrun.
  destruct (run_length _ _ _ _ _ _ inv_new Hrun) as (ps & Hinv & Hlen).
  simpl in Hlen. pose proof (balance_le cs bs) as Hle.
  assert (HLen : Len m = Ok (wrap64 (balance cs bs), m)).
  { unfold Len. rewrite (inv_size _ _ Hinv). by rewrite Hlen. }
  split_and!; [lia|done|done|].
  intros Hsmall. rewrite HLen, wrap64_small; [done|lia].
Qed.

Lemma X5_Len_is_balance_witness :
  0 ≤ balance [CallInsert 3; CallInsert 3; CallDelete 3] [true; false; true]
    ≤ Z.of_nat (length [CallInsert 3; CallInsert 3; CallDelete 3]) ∧
  Len mem_3_3_del
  = Ok (wrap64 (balance [CallInsert 3; CallInsert 3; CallDelete 3]
                        [true; false; true]), mem_3_3_del) ∧
  (Z.of_nat (length [CallInsert 3; CallInsert 3; CallDelete 3]) < 2 ^ 63 →
   Len mem_3_3_del
   = Ok (balance [CallInsert 3; CallInsert 3; CallDelete 3]
                 [true; false; true], mem_3_3_del)).
Proof.
  apply (X5_Len_is_balance 3 [CallInsert 3; CallInsert 3; CallDelete 3]).
  reflexivity.
Defined.

(** ** Beyond the claims: Range with a visitor that stops *)

Lemma visit_collect_while p vs acc :
  ∃ init stop rest,
    vs = init ++ stop ++ rest ∧
    visit (collect_while p) vs acc = acc ++ init ++ stop ∧
    Forall (λ v, p v = true) init ∧
    match stop with
    | [] => rest = []
    | [v] => p v = false
    | _ => False
    end.
Proof.
  revert acc. induction vs as [|v vs IH]; intros acc.
  - exists [], [], []. simpl. by rewrite app_nil_r.
  - simpl. destruct (p v) eqn:Hp.
    + destruct (IH (acc ++ [v])) as (init & stop & rest & -> & Hv & Hi & Hs).
      exists (v :: init), stop, rest. split_and!; try done.
      * rewrite Hv. by rewrite <- !app_assoc.
      * by constructor.
    + exists [], [v], vs. split_and!; try done.
Qed.

(** X6: [Range] shows the visitor the values in ascending order and stops
    after the first one on which the visitor returns false: what a
    visitor that goes on while [p] holds has seen is a prefix of the full
    traversal, [p] holds of all of it but the last value, and either [p]
    fails on the last value or nothing was left to visit. *)
Theorem X6_Range_stops_at_first_false m fuel p :
  reachable m → (length (nodes m) ≤ fuel)%nat →
  ∃ init stop rest,
    Range fuel collect [] m = Ok (init ++ stop ++ rest, m) ∧
    Range fuel (collect_while p) [] m = Ok (init ++ stop, m) ∧
    StronglySorted Z.lt (init ++ stop ++ rest) ∧
    Forall (λ v, p v = true) init ∧
    match stop with
    | [] => rest = []
    | [v] => p v = false
    | _ => False
    end.
Proof.
  intros [ps Hinv]%reachable_inv Hfuel.
  destruct (visit_collect_while p (contents m ps) [])
    as (init & stop & rest & Hc & Hv & Hi & Hs).
  exists init, stop, rest. rewrite <- Hc. split_and!; try done.
  - by apply Range_collect.
  - rewrite (Range_spec (collect_while p) m ps); [by rewrite Hv|done|].
    pose proof (inv_length _ _ Hinv). lia.
  - apply (inv_sorted _ _ Hinv).
Qed.

Lemma X6_Range_stops_at_first_false_witness :
  ∃ init stop rest,
    Range 4 collect [] mem_5_1_3 = Ok (init ++ stop ++ rest, mem_5_1_3) ∧
    Range 4 (collect_while (λ v, v <? 3)) [] mem_5_1_3
    = Ok (init ++ stop, mem_5_1_3) ∧
    StronglySorted Z.lt (init ++ stop ++ rest) ∧
    Forall (λ v, (v <? 3) = true) init ∧
    match stop with
    | [] => rest = []
    | [v] => (v <? 3) = false
    | _ => False
    end.
Proof.
  apply (X6_Range_stops_at_first_false mem_5_1_3 4 (λ v, v <? 3)).
  - apply (run_reachable 4 [CallInsert 5; CallInsert 1; CallInsert 3]
             NewConcurrentIntList [true; true; true]);
      [apply reach_new | reflexivity].
  - simpl. lia.
Defined.

Example Range_stops_5_1_3 :
  Range 4 (collect_while (λ v, v <? 3)) [] mem_5_1_3
  = Ok ([1; 3], mem_5_1_3).
Proof. reflexivity. Qed.

(** ** Beyond the claims: reads take no lock and write nothing *)

Lemma bind_inv {A B} (c : M A) (k : A → M B) m b m' :
  (c ≫= k) m = Ok (b, m') →
  ∃ a m1, c m = Ok (a, m1) ∧ k a m1 = Ok (b, m').
Proof.
  unfold mbind, M_bind. destruct (c m) as [[a m1]| | |]; try done. eauto.
Qed.

Lemma reads_ret {A} (a : A) : reads (mret a).
Proof.
  intros m. split; [done|]. intros a' m' H. unfold mret, M_ret in H.
  by simplify_eq.
Qed.

Lemma reads_bind {A B} (c : M A) (k : A → M B) :
  reads c → (∀ a, reads (k a)) → reads (c ≫= k).
Proof.
  intros Hc Hk m. destruct (Hc m) as [Hnb Hsame].
  unfold mbind, M_bind. destruct (c m) as [[a m1]| | |]; try done.
  rewrite (Hsame a m1 eq_refl). apply Hk.
Qed.

Lemma reads_load p : reads (load p).
Proof.
  intros m. unfold load. destruct (nodes m !! p); split; try done.
  intros a m' H. by simplify_eq.
Qed.

Lemma reads_getRoot : reads getRoot.
Proof. intros m. split; [done|]. intros a m' H. unfold getRoot in H. by simplify_eq. Qed.

Lemma reads_Len : reads Len.
Proof. intros m. split; [done|]. intros a m' H. unfold Len in H. by simplify_eq. Qed.

Lemma reads_out_of_fuel {A} : reads (@out_of_fuel A).
Proof. intros m. by split. Qed.

Lemma reads_getValue p : reads (getValue p).
Proof. apply reads_bind; [apply reads_load|intros; apply reads_ret]. Qed.

Lemma reads_marked p : reads (marked p).
Proof. apply reads_bind; [apply reads_load|intros; apply reads_ret]. Qed.

Lemma reads_next p : reads (next p).
Proof. apply reads_bind; [apply reads_load|intros; apply reads_ret]. Qed.

Create HintDb reads.
#[local] Hint Resolve reads_ret reads_load reads_getRoot reads_Len
  reads_out_of_fuel reads_getValue reads_marked reads_next : reads.

Ltac reads_step :=
  lazymatch goal with
  | |- reads (mbind _ _) => apply reads_bind; [|intros ?]
  | |- reads (if ?b then _ else _) => destruct b
  | |- reads (match ?x with _ => _ end) => destruct x
  | |- reads _ => solve [eauto with reads]
  end.

Lemma reads_orM a b : reads a → reads b → reads (orM a b).
Proof. intros Ha Hb. unfold orM. repeat reads_step. Qed.

Lemma reads_Contains_loop fuel val nxt : reads (Contains_loop fuel val nxt).
Proof.
  revert nxt. induction fuel as [|fuel IH]; intros nxt; simpl;
    repeat reads_step.
  apply reads_orM; repeat reads_step.
Qed.

Lemma reads_Insert_find fuel val pre cur : reads (Insert_find fuel val pre cur).
Proof.
  revert pre cur. induction fuel as [|fuel IH]; intros pre cur; simpl;
    repeat reads_step.
Qed.

Lemma reads_Delete_find fuel val pre cur : reads (Delete_find fuel val pre cur).
Proof.
  revert pre cur. induction fuel as [|fuel IH]; intros pre cur; simpl;
    repeat reads_step.
  apply reads_orM; repeat reads_step.
Qed.

Lemma reads_Range_loop {A} fuel (f : Z → A → bool * A) n acc :
  reads (Range_loop fuel f n acc).
Proof.
  revert n acc. induction fuel as [|fuel IH]; intros n acc; simpl;
    repeat reads_step.
Qed.

#[local] Hint Resolve reads_orM reads_Contains_loop reads_Insert_find
  reads_Delete_find reads_Range_loop : reads.

Lemma reads_Contains fuel val : reads (Contains fuel val).
Proof. unfold Contains. repeat reads_step. Qed.

Lemma reads_Range {A} fuel (f : Z → A → bool * A) acc :
  reads (Range fuel f acc).
Proof. unfold Range. repeat reads_step. Qed.

(** X7: [Contains], [Range] with any visitor, [Len] and the search loops
    of [Insert] and [Delete] are lock-free readers: on every memory,
    reachable or not, they never wait for a mutex, and when they return
    the nodes, the counter and the log of lock calls are as they were. *)
Theorem X7_reads_are_lock_free :
  (∀ fuel v, reads (Contains fuel v)) ∧
  (∀ A fuel (f : Z → A → bool * A) acc, reads (Range fuel f acc)) ∧
  reads Len ∧
  (∀ fuel v pre cur, reads (Insert_find fuel v pre cur)) ∧
  (∀ fuel v pre cur, reads (Delete_find fuel v pre cur)).
Proof.
  split_and!.
  - apply reads_Contains.
  - intros A. apply reads_Range.
  - apply reads_Len.
  - apply reads_Insert_find.
  - apply reads_Delete_find.
Qed.

(** ** Beyond the claims: node values never change *)

Lemma values_kept_refl m : values_kept m m.
Proof. intros p nd Hp. eauto. Qed.

Lemma values_kept_trans m1 m2 m3 :
  values_kept m1 m2 → values_kept m2 m3 → values_kept m1 m3.
Proof.
  intros H12 H23 p nd Hp. destruct (H12 _ _ Hp) as (nd2 & Hp2 & Hv2).
  destruct (H23 _ _ Hp2) as (nd3 & Hp3 & Hv3). exists nd3. split; [done|].
  congruence.
Qed.

Lemma immutable_reads {A} (c : M A) : reads c → immutable c.
Proof.
  intros Hc m a m' H. destruct (Hc m) as [_ Hsame].
  rewrite (Hsame _ _ H). apply values_kept_refl.
Qed.

Lemma immutable_ret {A} (a : A) : immutable (mret a).
Proof. apply immutable_reads, reads_ret. Qed.

Lemma immutable_bind {A B} (c : M A) (k : A → M B) :
  immutable c → (∀ a, immutable (k a)) → immutable (c ≫= k).
Proof.
  intros Hc Hk m b m' H. apply bind_inv in H as (a & m1 & H1 & H2).
  eapply values_kept_trans; [by eapply Hc | by eapply Hk].
Qed.

Lemma immutable_same {A} (c : M A) :
  (∀ m a m', c m = Ok (a, m') → nodes m' = nodes m) → immutable c.
Proof. intros H m a m' Hc p nd Hp. rewrite (H _ _ _ Hc). eauto. Qed.

Lemma immutable_emit e : immutable (emit e).
Proof. apply immutable_same. intros m a m' H. unfold emit in H. by simplify_eq. Qed.

Lemma immutable_sizeAdd d : immutable (sizeAdd d).
Proof.
  apply immutable_same. intros m a m' H. unfold sizeAdd in H. by simplify_eq.
Qed.

Lemma immutable_newIntNode val : immutable (newIntNode val).
Proof.
  intros m a m' H p nd Hp. unfold newIntNode in H. simplify_eq. simpl.
  exists nd. split; [|done]. by apply lookup_app_l_Some.
Qed.

(** Overwriting a node by one with the same value keeps the values. *)
Lemma immutable_overwrite p (f : intNode → intNode) :
  (∀ nd, value (f nd) = value nd) →
  immutable (nd ← load p; store p (f nd)).
Proof.
  intros Hf m a m' H q nd Hq. unfold mbind, M_bind, load, store in H.
  destruct (nodes m !! p) as [ndp|] eqn:Hp; [|done]. simplify_eq. simpl.
  destruct (decide (p = q)) as [->|Hne].
  - rewrite list_lookup_insert_eq by by eapply lookup_lt_Some.
    rewrite Hp in Hq. simplify_eq. eauto.
  - rewrite list_lookup_insert_ne by done. eauto.
Qed.

Lemma immutable_ext {A} (c c' : M A) :
  (∀ m, c m = c' m) → immutable c → immutable c'.
Proof. intros Heq Hc m a m' H. rewrite <- Heq in H. by eapply Hc. Qed.

Lemma immutable_mark p : immutable (mark p).
Proof.
  apply (immutable_ext ((nd ← load p; store p (set_marked nd))
                        ≫= λ _, emit (EvMark p))).
  { intros m. by rewrite bind_assoc_M. }
  apply immutable_bind; [|intros; apply immutable_emit].
  by apply immutable_overwrite.
Qed.

Lemma immutable_updateNext p nxt : immutable (updateNext p nxt).
Proof.
  apply (immutable_ext ((nd ← load p; store p (set_next nxt nd))
                        ≫= λ _, emit (EvUpdateNext p nxt))).
  { intros m. by rewrite bind_assoc_M. }
  apply immutable_bind; [|intros; apply immutable_emit].
  by apply immutable_overwrite.
Qed.

Lemma immutable_Lock p : immutable (Lock p).
Proof.
  intros m a m' H q nd Hq. unfold Lock, mbind, M_bind, load in H.
  destruct (nodes m !! p) as [ndp|] eqn:Hp; [|done].
  destruct (mutex ndp); [done|]. unfold store, emit in H. simplify_eq. simpl.
  destruct (decide (p = q)) as [->|Hne].
  - rewrite list_lookup_insert_eq by by eapply lookup_lt_Some.
    rewrite Hp in Hq. simplify_eq. eauto.
  - rewrite list_lookup_insert_ne by done. eauto.
Qed.

Lemma immutable_Unlock p : immutable (Unlock p).
Proof.
  intros m a m' H q nd Hq. unfold Unlock, mbind, M_bind, load in H.
  destruct (nodes m !! p) as [ndp|] eqn:Hp; [|done].
  destruct (mutex ndp); [|done]. unfold store, emit in H. simplify_eq. simpl.
  destruct (decide (p = q)) as [->|Hne].
  - rewrite list_lookup_insert_eq by by eapply lookup_lt_Some.
    rewrite Hp in Hq. simplify_eq. eauto.
  - rewrite list_lookup_insert_ne by done. eauto.
Qed.

Create HintDb immutable.
#[local] Hint Resolve immutable_ret immutable_emit immutable_sizeAdd
  immutable_newIntNode immutable_mark immutable_updateNext immutable_Lock
  immutable_Unlock : immutable.
#[local] Hint Extern 1 (immutable _) =>
  (apply immutable_reads; solve [eauto with reads]) : immutable.

Ltac immutable_step :=
  lazymatch goal with
  | |- immutable (mbind _ _) => apply immutable_bind; [|intros ?]
  | |- immutable (if ?b then _ else _) => destruct b
  | |- immutable (match ?x with _ => _ end) => destruct x
  | |- immutable _ => solve [eauto with immutable]
  end.

Lemma immutable_Insert_commit val pre cur :
  immutable (Insert_commit val pre cur).
Proof.
  unfold Insert_commit, sizeIncr. repeat immutable_step.
  apply immutable_reads. repeat reads_step.
  apply reads_orM; repeat reads_step. apply reads_orM; repeat reads_step.
Qed.

Lemma immutable_Delete_commit pre c : immutable (Delete_commit pre c).
Proof.
  unfold Delete_commit, sizeDecr. repeat immutable_step.
  apply immutable_reads. repeat reads_step.
  apply reads_orM; repeat reads_step.
Qed.

Lemma immutable_retry n body : immutable body → immutable (retry n body).
Proof.
  intros Hb. induction n as [|n IH]; simpl; repeat immutable_step;
    by apply immutable_reads, reads_out_of_fuel.
Qed.

Lemma immutable_Insert fuel val : immutable (Insert fuel val).
Proof.
  apply immutable_retry. unfold Insert_attempt. repeat immutable_step.
  apply immutable_Insert_commit.
Qed.

Lemma immutable_Delete fuel val : immutable (Delete fuel val).
Proof.
  apply immutable_retry. unfold Delete_attempt. repeat immutable_step.
  apply immutable_Delete_commit.
Qed.

(** X8: a node keeps its value for life.  On every memory, reachable or
    not, whenever [Insert] or [Delete] returns, every node that was
    allocated before is still allocated and holds the value it held:
    [value] is written once, by [newIntNode]. *)
Theorem X8_node_values_never_change :
  (∀ fuel v, immutable (Insert fuel v)) ∧
  (∀ fuel v, immutable (Delete fuel v)).
Proof. split; [apply immutable_Insert | apply immutable_Delete]. Qed.

(** ** Beyond the claims: locks *)

Lemma lookup_alter_mutex (f : intNode → intNode) (h : list intNode) p q nd :
  (∀ x, mutex (f x) = mutex x) → alter f p h !! q = Some nd →
  ∃ nd0, h !! q = Some nd0 ∧ mutex nd0 = mutex nd.
Proof.
  intros Hf. rewrite list_lookup_alter.
  destruct (decide (p = q)) as [->|]; [|eauto].
  destruct (h !! q) as [nd0|]; simpl; [|done].
  intros ?; simplify_eq. eauto.
Qed.

(** X9: no call keeps a lock.  In every reachable memory the mutex of
    every allocated node is free, the nodes that [Delete] unlinked
    included. *)
Theorem X9_no_mutex_held_at_rest m p nd :
  reachable m → nodes m !! p = Some nd → mutex nd = false.
Proof.
  intros Hm. revert p nd.
  induction Hm as [|fuel c m b m' Hm IH Hc]; intros p nd Hp.
  { destruct p as [|p]; simpl in Hp; by simplify_eq. }
  destruct (reachable_inv _ Hm) as [ps Hinv].
  destruct c as [v|v]; simpl in Hc.
  - pose proof (Insert_cases _ _ _ _ _ _ Hinv Hc) as H. destruct b.
    + destruct H as (_ & l1 & l2 & _ & -> & _). simpl in Hp.
      apply lookup_app_Some in Hp as [Hp|[_ Hp]].
      * apply lookup_alter_mutex in Hp as (nd0 & Hp & <-); [|done].
        by eapply IH.
      * apply list_lookup_singleton_Some in Hp as [_ <-]. done.
    + destruct H as [-> _]. by eapply IH.
  - pose proof (Delete_cases _ _ _ _ _ _ Hinv Hc) as H. destruct b.
    + destruct H as (l1 & c & l2 & _ & _ & -> & _). simpl in Hp.
      apply lookup_alter_mutex in Hp as (nd1 & Hp & <-); [|done].
      apply lookup_alter_mutex in Hp as (nd0 & Hp & <-); [|done].
      by eapply IH.
    + destruct H as [-> _]. by eapply IH.
Qed.

Lemma X9_no_mutex_held_at_rest_witness :
  mutex (IntNode 3 (Some (Some 1%nat)) (Some true) false) = false.
Proof.
  apply (X9_no_mutex_held_at_rest mem_5_1_del3 3).
  - apply (run_reachable 4
             [CallInsert 5; CallInsert 1; CallInsert 3; CallDelete 3]
             NewConcurrentIntList [true; true; true; true]);
      [apply reach_new | reflexivity].
  - reflexivity.
Defined.

(** The validation of [Insert], run while [pre] is locked. *)
Lemma Insert_validation_ok h il tr pre cur ndp :
  h !! pre = Some ndp →
  match cur with Some c => is_Some (h !! c) | None => True end →
  let m1 := Mem (<[pre := IntNode (value ndp) (nextPtr ndp) (markedValue ndp)
                            true]> h) il tr in
  orM (nxt ← next pre; mret (negb (ptr_eqb nxt cur)))
      (orM (marked pre)
           match cur with None => mret false | Some c => marked c end) m1
  = Ok (insert_stale h ndp cur, m1).
Proof.
  intros Hpre Hcur m1.
  assert (Hlt : (pre < length h)%nat) by by eapply lookup_lt_Some.
  assert (H1 : nodes m1 !! pre
               = Some (IntNode (value ndp) (nextPtr ndp) (markedValue ndp) true))
    by by apply list_lookup_insert_eq.
  unfold insert_stale, orM at 1.
  erewrite bind_ok; [|erewrite bind_ok; [|by eapply next_ok]; reflexivity].
  change (next_of (IntNode (value ndp) (nextPtr ndp) (markedValue ndp) true))
    with (next_of ndp).
  destruct (negb (ptr_eqb (next_of ndp) cur)); [done|]. simpl. unfold orM.
  erewrite bind_ok; [|by eapply marked_ok].
  change (marked_of (IntNode (value ndp) (nextPtr ndp) (markedValue ndp) true))
    with (marked_of ndp).
  destruct (marked_of ndp) eqn:Hmk; [done|]. destruct cur as [c|]; [|done].
  destruct Hcur as [ndc Hc]. unfold marked_at. rewrite Hc. simpl.
  destruct (decide (pre = c)) as [->|Hne].
  - erewrite marked_ok by exact H1. rewrite Hpre in Hc. by simplify_eq.
  - erewrite marked_ok; [done|]. simpl. by rewrite list_lookup_insert_ne.
Qed.

Lemma unlock_restores (h : list intNode) p nd :
  h !! p = Some nd → mutex nd = false →
  <[p := IntNode (value nd) (nextPtr nd) (markedValue nd) false]>
    (<[p := IntNode (value nd) (nextPtr nd) (markedValue nd) true]> h) = h.
Proof.
  intros Hp Hx. rewrite list_insert_insert_eq. apply list_insert_id.
  rewrite Hp. f_equal. destruct nd; simpl in *. by subst.
Qed.

(** X10: steps 2 to 4 of [Insert], on every memory.  With [pre] and
    [current] as the search left them: the pass waits while the mutex of
    [pre] is held; if [pre] no longer points to [current], or [pre] or
    [current] is marked, it releases the mutex and ends in [goto start]
    with the nodes and the counter as they were; otherwise it links the
    new node and returns true. *)
Theorem X10_Insert_commit_validates m val pre cur ndp :
  nodes m !! pre = Some ndp →
  match cur with Some c => is_Some (nodes m !! c) | None => True end →
  Insert_commit val pre cur m
  = if mutex ndp then Blocked
    else if insert_stale (nodes m) ndp cur
         then Ok (GotoStart, logged m [EvLock pre; EvUnlock pre])
         else Ok (Return true, insert_mem m val pre cur).
Proof.
  intros Hpre Hcur. destruct (mutex ndp) eqn:Hmx.
  { unfold Insert_commit, Lock.
    rewrite bind_assoc_M. rewrite (bind_ok _ _ _ _ _ (load_ok _ _ _ Hpre)).
    by rewrite Hmx. }
  destruct (insert_stale (nodes m) ndp cur) eqn:Hstale.
  - destruct m as [h il tr]. simpl in *. unfold Insert_commit.
    erewrite bind_ok; [|by eapply Lock_ok]. simpl.
    rewrite (bind_ok _ _ _ _ _
               (Insert_validation_ok h il _ pre cur ndp Hpre Hcur)).
    rewrite Hstale.
    erewrite bind_ok; cycle 1.
    { eapply Unlock_ok; simpl.
      - apply list_lookup_insert_eq. by eapply lookup_lt_Some.
      - reflexivity. }
    simpl. unfold mret, M_ret, logged. simpl. do 3 f_equal.
    + by apply unlock_restores.
    + by rewrite <- app_assoc.
  - unfold insert_stale in Hstale.
    apply orb_false_iff in Hstale as [[Hnx Hmk]%orb_false_iff Hcm].
    apply negb_false_iff in Hnx. unfold ptr_eqb in Hnx.
    apply bool_decide_eq_true in Hnx.
    rewrite (Insert_commit_ok m val pre cur ndp); try done.
    + unfold insert_mem. by rewrite (insert_as_alter _ _ _ _ Hpre).
    + by destruct cur.
Qed.

Lemma X10_Insert_commit_validates_witness :
  Insert_commit 4 3 (Some 1%nat) mem_5_1_del3
  = if mutex (IntNode 3 (Some (Some 1%nat)) (Some true) false) then Blocked
    else if insert_stale (nodes mem_5_1_del3)
              (IntNode 3 (Some (Some 1%nat)) (Some true) false) (Some 1%nat)
         then Ok (GotoStart, logged mem_5_1_del3 [EvLock 3%nat; EvUnlock 3%nat])
         else Ok (Return true, insert_mem mem_5_1_del3 4 3 (Some 1%nat)).
Proof.
  apply (X10_Insert_commit_validates mem_5_1_del3 4 3 (Some 1%nat)).
  - reflexivity.
  - simpl. eauto.
Defined.

Example Insert_commit_on_deleted_pre :
  Insert_commit 4 3 (Some 1%nat) mem_5_1_del3
  = Ok (GotoStart, logged mem_5_1_del3 [EvLock 3%nat; EvUnlock 3%nat]).
Proof. reflexivity. Qed.

Lemma Lock_blocked m p nd :
  nodes m !! p = Some nd → mutex nd = true → Lock p m = Blocked.
Proof.
  intros Hp Hx. unfold Lock. rewrite (bind_ok _ _ _ _ _ (load_ok _ _ _ Hp)).
  by rewrite Hx.
Qed.

Lemma bind_blocked {A B} (c : M A) (k : A → M B) m :
  c m = Blocked → (c ≫= k) m = Blocked.
Proof. intros H. unfold mbind, M_bind. by rewrite H. Qed.

(** The second validation of [Delete], run while [pre] is locked. *)
Lemma Delete_validation_ok h il tr pre c ndp :
  h !! pre = Some ndp →
  let m2 := Mem (<[pre := IntNode (value ndp) (nextPtr ndp) (markedValue ndp)
                            true]> h) il tr in
  orM (nxt ← next pre; mret (negb (ptr_eqb nxt (Some c)))) (marked pre) m2
  = Ok (delete_stale ndp c, m2).
Proof.
  intros Hpre m2.
  assert (H2 : nodes m2 !! pre
               = Some (IntNode (value ndp) (nextPtr ndp) (markedValue ndp) true)).
  { apply list_lookup_insert_eq. by eapply lookup_lt_Some. }
  unfold delete_stale, orM.
  erewrite bind_ok; [|erewrite bind_ok; [|by eapply next_ok]; reflexivity].
  change (next_of (IntNode (value ndp) (nextPtr ndp) (markedValue ndp) true))
    with (next_of ndp).
  destruct (negb (ptr_eqb (next_of ndp) (Some c))); [done|].
  by erewrite marked_ok by exact H2.
Qed.

(** X11: steps 2 to 4 of [Delete], on every memory.  The pass locks
    [current] and then [pre], waiting while either mutex is held.  If
    [current] is already marked it releases [current] and ends in
    [goto start]; if [pre] no longer points to [current] or is marked it
    releases [pre], then [current], and ends in [goto start]; in both
    cases the nodes and the counter are as they were.  Otherwise it
    marks and unlinks [current] and returns true. *)
Theorem X11_Delete_commit_validates m pre c ndp ndc :
  nodes m !! pre = Some ndp → nodes m !! c = Some ndc → pre ≠ c →
  Delete_commit pre c m
  = if mutex ndc then Blocked
    else if marked_of ndc
         then Ok (GotoStart, logged m [EvLock c; EvUnlock c])
    else if mutex ndp then Blocked
    else if delete_stale ndp c
         then Ok (GotoStart,
                  logged m [EvLock c; EvLock pre; EvUnlock pre; EvUnlock c])
         else Ok (Return true, delete_mem m pre c).
Proof.
  intros Hpre Hc Hne.
  assert (Hlp : (pre < length (nodes m))%nat) by by eapply lookup_lt_Some.
  assert (Hlc : (c < length (nodes m))%nat) by by eapply lookup_lt_Some.
  destruct (mutex ndc) eqn:Hcx.
  { unfold Delete_commit. apply bind_blocked. by eapply Lock_blocked. }
  destruct (marked_of ndc) eqn:Hcm.
  { destruct m as [h il tr]. simpl in *. unfold Delete_commit.
    erewrite bind_ok; [|by eapply Lock_ok]. simpl.
    erewrite bind_ok; cycle 1.
    { eapply marked_ok. simpl. by apply list_lookup_insert_eq. }
    change (marked_of (IntNode (value ndc) (nextPtr ndc) (markedValue ndc) true))
      with (marked_of ndc).
    rewrite Hcm.
    erewrite bind_ok; cycle 1.
    { eapply Unlock_ok; simpl.
      - by apply list_lookup_insert_eq.
      - reflexivity. }
    simpl. unfold mret, M_ret, logged. simpl. do 3 f_equal.
    - by apply unlock_restores.
    - by rewrite <- app_assoc. }
  destruct (mutex ndp) eqn:Hpx.
  { destruct m as [h il tr]. simpl in *. unfold Delete_commit.
    erewrite bind_ok; [|by eapply Lock_ok]. simpl.
    erewrite bind_ok; cycle 1.
    { eapply marked_ok. simpl. by apply list_lookup_insert_eq. }
    change (marked_of (IntNode (value ndc) (nextPtr ndc) (markedValue ndc) true))
      with (marked_of ndc).
    rewrite Hcm. apply bind_blocked. eapply Lock_blocked; [|exact Hpx].
    simpl. by rewrite list_lookup_insert_ne. }
  destruct (delete_stale ndp c) eqn:Hstale.
  - destruct m as [h il tr]. simpl in *. unfold Delete_commit.
    erewrite bind_ok; [|by eapply Lock_ok]. simpl.
    erewrite bind_ok; cycle 1.
    { eapply marked_ok. simpl. by apply list_lookup_insert_eq. }
    change (marked_of (IntNode (value ndc) (nextPtr ndc) (markedValue ndc) true))
      with (marked_of ndc).
    rewrite Hcm.
    erewrite bind_ok; cycle 1.
    { eapply Lock_ok; simpl.
      - rewrite list_lookup_insert_ne by done. exact Hpre.
      - done. }
    simpl.
    rewrite (bind_ok _ _ _ _ _
               (Delete_validation_ok _ il _ pre c ndp
                  ltac:(by rewrite list_lookup_insert_ne))).
    rewrite Hstale.
    erewrite bind_ok; cycle 1.
    { eapply Unlock_ok; simpl.
      - apply list_lookup_insert_eq. by rewrite length_insert.
      - reflexivity. }
    simpl.
    erewrite bind_ok; cycle 1.
    { eapply Unlock_ok; simpl.
      - rewrite list_lookup_insert_ne by done.
        rewrite list_lookup_insert_ne by done.
        by apply list_lookup_insert_eq.
      - reflexivity. }
    simpl. unfold mret, M_ret, logged. simpl. do 3 f_equal.
    + rewrite (unlock_restores _ pre ndp);
        [by apply unlock_restores| |done].
      by rewrite list_lookup_insert_ne.
    + by rewrite <- !app_assoc.
  - unfold delete_stale in Hstale.
    apply orb_false_iff in Hstale as [Hnx Hmk].
    apply negb_false_iff in Hnx. unfold ptr_eqb in Hnx.
    apply bool_decide_eq_true in Hnx.
    rewrite (Delete_commit_ok m pre c ndp ndc); try done.
    unfold delete_mem, next_at. rewrite Hc. simpl.
    rewrite (insert_as_alter _ _ _ _ Hpre).
    rewrite (insert_as_alter set_marked _ c ndc); [done|].
    by rewrite list_lookup_alter_ne.
Qed.

Lemma X11_Delete_commit_validates_witness :
  Delete_commit 2 3 mem_5_1_del3
  = if mutex (IntNode 3 (Some (Some 1%nat)) (Some true) false) then Blocked
    else if marked_of (IntNode 3 (Some (Some 1%nat)) (Some true) false)
         then Ok (GotoStart, logged mem_5_1_del3 [EvLock 3%nat; EvUnlock 3%nat])
    else if mutex (IntNode 1 (Some (Some 1%nat)) None false) then Blocked
    else if delete_stale (IntNode 1 (Some (Some 1%nat)) None false) 3
         then Ok (GotoStart,
                  logged mem_5_1_del3
                    [EvLock 3%nat; EvLock 2%nat; EvUnlock 2%nat; EvUnlock 3%nat])
         else Ok (Return true, delete_mem mem_5_1_del3 2 3).
Proof.
  apply (X11_Delete_commit_validates mem_5_1_del3 2 3).
  - reflexivity.
  - reflexivity.
  - lia.
Defined.

Example Delete_commit_on_deleted_node :
  Delete_commit 2 3 mem_5_1_del3
  = Ok (GotoStart, logged mem_5_1_del3 [EvLock 3%nat; EvUnlock 3%nat]).
Proof. reflexivity. Qed.

(** ** Beyond the claims: calls that return false *)

Lemma reads_same {A} (c : M A) m a m' : reads c → c m = Ok (a, m') → m' = m.
Proof. intros Hc H. destruct (Hc m) as [_ Hs]. by eapply Hs. Qed.

Lemma Lock_inv p m u m1 :
  Lock p m = Ok (u, m1) →
  ∃ nd, nodes m !! p = Some nd ∧ mutex nd = false ∧
        m1 = Mem (<[p := IntNode (value nd) (nextPtr nd) (markedValue nd) true]>
                    (nodes m)) (ilist m) (trace m ++ [EvLock p]).
Proof.
  intros H. unfold Lock, mbind, M_bind, load in H.
  destruct (nodes m !! p) as [nd|] eqn:Hp; [|done].
  destruct (mutex nd) eqn:Hx; [done|]. unfold store, emit in H.
  simplify_eq. eauto.
Qed.

Lemma Unlock_inv p m u m1 :
  Unlock p m = Ok (u, m1) →
  ∃ nd, nodes m !! p = Some nd ∧ mutex nd = true ∧
        m1 = Mem (<[p := IntNode (value nd) (nextPtr nd) (markedValue nd) false]>
                    (nodes m)) (ilist m) (trace m ++ [EvUnlock p]).
Proof.
  intros H. unfold Unlock, mbind, M_bind, load in H.
  destruct (nodes m !! p) as [nd|] eqn:Hp; [|done].
  destruct (mutex nd) eqn:Hx; [|done]. unfold store, emit in H.
  simplify_eq. eauto.
Qed.

(** Locking a free mutex and unlocking it again restores the nodes. *)
Lemma Lock_then_Unlock p m u1 m1 u2 m2 m1' :
  Lock p m = Ok (u1, m1) → nodes m1' = nodes m1 →
  Unlock p m1' = Ok (u2, m2) → nodes m2 = nodes m.
Proof.
  intros (nd & Hp & Hx & ->)%Lock_inv Hsame
         (nd' & Hp' & Hx' & ->)%Unlock_inv.
  simpl in *. rewrite Hsame in Hp' |- *.
  rewrite list_lookup_insert_eq in Hp' by by eapply lookup_lt_Some.
  simplify_eq. simpl. by apply unlock_restores.
Qed.

Lemma Insert_commit_inv val pre cur m r m' :
  Insert_commit val pre cur m = Ok (r, m') →
  r = Return true ∨
  (r = GotoStart ∧ nodes m' = nodes m ∧ ilist m' = ilist m).
Proof.
  unfold Insert_commit. intros H.
  apply bind_inv in H as (u1 & m1 & HL & H).
  apply bind_inv in H as (ch & m1' & Hch & H).
  assert (m1' = m1) as ->.
  { eapply reads_same; [|exact Hch].
    apply reads_orM; repeat reads_step. apply reads_orM; repeat reads_step. }
  destruct ch.
  - right. apply bind_inv in H as (u2 & m2 & HU & H).
    unfold mret, M_ret in H. simplify_eq. split; [done|]. split.
    + by eapply Lock_then_Unlock.
    + apply Lock_inv in HL as (? & _ & _ & ->).
      by apply Unlock_inv in HU as (? & _ & _ & ->).
  - left. repeat (apply bind_inv in H as (? & ? & _ & H)).
    unfold mret, M_ret in H. by simplify_eq.
Qed.

Lemma Delete_commit_inv pre c m r m' :
  Delete_commit pre c m = Ok (r, m') →
  r = Return true ∨
  (r = GotoStart ∧ nodes m' = nodes m ∧ ilist m' = ilist m).
Proof.
  unfold Delete_commit. intros H.
  apply bind_inv in H as (u1 & m1 & HL & H).
  apply bind_inv in H as (cm & m1' & Hcm & H).
  assert (m1' = m1) as -> by (eapply reads_same; [apply reads_marked|done]).
  destruct cm.
  - right. apply bind_inv in H as (u2 & m2 & HU & H).
    unfold mret, M_ret in H. simplify_eq. split; [done|]. split.
    + by eapply Lock_then_Unlock.
    + apply Lock_inv in HL as (? & _ & _ & ->).
      by apply Unlock_inv in HU as (? & _ & _ & ->).
  - apply bind_inv in H as (u2 & m2 & HL2 & H).
    apply bind_inv in H as (ch & m2' & Hch & H).
    assert (m2' = m2) as ->.
    { eapply reads_same; [|exact Hch]. apply reads_orM; repeat reads_step. }
    destruct ch.
    + right. apply bind_inv in H as (u3 & m3 & HU & H).
      apply bind_inv in H as (u4 & m4 & HU' & H).
      unfold mret, M_ret in H. simplify_eq. split; [done|].
      assert (Hn3 : nodes m3 = nodes m1) by by eapply Lock_then_Unlock.
      split.
      * by eapply Lock_then_Unlock.
      * apply Lock_inv in HL as (? & _ & _ & ->).
        apply Lock_inv in HL2 as (? & _ & _ & ->).
        apply Unlock_inv in HU as (? & _ & _ & ->).
        by apply Unlock_inv in HU' as (? & _ & _ & ->).
    + left. repeat (apply bind_inv in H as (? & ? & _ & H)).
      unfold mret, M_ret in H. by simplify_eq.
Qed.

Lemma Insert_attempt_inv fuel v m r m' :
  Insert_attempt fuel v m = Ok (r, m') → pass_ok m r m'.
Proof.
  unfold Insert_attempt. intros H.
  apply bind_inv in H as (r0 & m0 & H0 & H).
  apply (reads_same _ _ _ _ reads_getRoot) in H0 as ->.
  apply bind_inv in H as (cur0 & m0 & H0 & H).
  apply (reads_same _ _ _ _ (reads_next _)) in H0 as ->.
  apply bind_inv in H as ([pre cur] & m0 & H0 & H).
  apply (reads_same _ _ _ _ (reads_Insert_find _ _ _ _)) in H0 as ->.
  apply bind_inv in H as (dup & m0 & H0 & H).
  assert (m0 = m) as ->.
  { eapply reads_same; [|exact H0]. destruct cur; repeat reads_step. }
  destruct dup.
  - unfold mret, M_ret in H. simplify_eq. right. by left.
  - apply Insert_commit_inv in H as [->|?]; [by left|]. right. by right.
Qed.

Lemma Delete_attempt_inv fuel v m r m' :
  Delete_attempt fuel v m = Ok (r, m') → pass_ok m r m'.
Proof.
  unfold Delete_attempt. intros H.
  apply bind_inv in H as (r0 & m0 & H0 & H).
  apply (reads_same _ _ _ _ reads_getRoot) in H0 as ->.
  apply bind_inv in H as (cur0 & m0 & H0 & H).
  apply (reads_same _ _ _ _ (reads_next _)) in H0 as ->.
  apply bind_inv in H as ([pre cur] & m0 & H0 & H).
  apply (reads_same _ _ _ _ (reads_Delete_find _ _ _ _)) in H0 as ->.
  destruct cur as [c|].
  - apply bind_inv in H as (x & m0 & H0 & H).
    apply (reads_same _ _ _ _ (reads_getValue _)) in H0 as ->.
    destruct (negb (x =? v)).
    + unfold mret, M_ret in H. simplify_eq. right. by left.
    + apply Delete_commit_inv in H as [->|?]; [by left|]. right. by right.
  - unfold mret, M_ret in H. simplify_eq. right. by left.
Qed.

Lemma retry_false n body m m' :
  (∀ m r m', body m = Ok (r, m') → pass_ok m r m') →
  retry n body m = Ok (false, m') →
  nodes m' = nodes m ∧ ilist m' = ilist m.
Proof.
  intros Hbody. revert m. induction n as [|n IH]; intros m H; simpl in H;
    apply bind_inv in H as (r & m1 & Hb & H);
    destruct (Hbody _ _ _ Hb) as [->|[[-> ->]|(-> & Hn & Hi)]];
    unfold mret, M_ret in H; simplify_eq; try done.
  destruct (IH _ H) as [Hn' Hi']. split; congruence.
Qed.

(** X12: [Insert] and [Delete] are all or nothing.  On every memory,
    reachable or not, a pass through the body that does not return true
    has changed neither a node nor the counter: if it returns false it
    wrote nothing at all and took no lock, and if it ends in [goto start]
    it only locked and unlocked.  So a call that returns false leaves
    the nodes and the counter exactly as they were, whatever passes came
    before its last. *)
Theorem X12_all_or_nothing :
  (∀ fuel v m r m', Insert_attempt fuel v m = Ok (r, m') → pass_ok m r m') ∧
  (∀ fuel v m r m', Delete_attempt fuel v m = Ok (r, m') → pass_ok m r m') ∧
  (∀ fuel c m m',
     exec fuel c m = Ok (false, m') →
     nodes m' = nodes m ∧ ilist m' = ilist m).
Proof.
  split_and!.
  - intros fuel v m r m'. apply Insert_attempt_inv.
  - intros fuel v m r m'. apply Delete_attempt_inv.
  - intros fuel c m m' H. destruct c as [v|v]; simpl in H.
    + exact (retry_false _ _ _ _ (Insert_attempt_inv fuel v) H).
    + exact (retry_false _ _ _ _ (Delete_attempt_inv fuel v) H).
Qed.

Lemma X12_all_or_nothing_witness :
  pass_ok mem_marked_linked (Return false) mem_marked_linked.
Proof.
  apply (proj1 X12_all_or_nothing 3%nat 3 mem_marked_linked).
  reflexivity.
Defined.

(** ** Beyond the claims: the searches on a chain with marked nodes *)

(** X13: the duplicate test of [Insert] does not look at the deleted
    flag.  On every memory, if the first node along the chain whose value
    is not below [v] holds [v], then [Insert(v)] returns false from its
    first pass, without a lock and without a write, whether that node is
    marked or not. *)
Theorem X13_Insert_duplicate_ignores_mark m nr l1 c to fuel v :
  nodes m !! root (ilist m) = Some nr →
  lseg (nodes m) (next_of nr) (l1 ++ [c]) to →
  Forall (λ p, value_at (nodes m) p < v) l1 →
  value_at (nodes m) c = v →
  (length l1 < fuel)%nat →
  Insert_attempt fuel v m = Ok (Return false, m) ∧
  Insert fuel v m = Ok (false, m).
Proof.
  intros Hnr Hseg Hl1 Hv Hfuel.
  apply lseg_app in Hseg as (mid & Hs1 & Hs2). simpl in Hs2.
  destruct Hs2 as (-> & ndc & Hc & _).
  assert (Hatt : Insert_attempt fuel v m = Ok (Return false, m)).
  { unfold Insert_attempt.
    unfold getRoot at 1, mbind at 1, M_bind at 1.
    rewrite (bind_ok _ _ _ _ _ (next_ok _ _ _ Hnr)).
    rewrite (bind_ok _ _ _ _ _
               (eq_trans (Insert_find_spec m v l1 (Some c) fuel _ _ Hs1 Hl1
                            ltac:(split; [by eexists|lia]))
                         (decide_True _ _ Hfuel))).
    rewrite (bind_ok _ _ _ _ _
               (bind_ok _ _ _ _ _ (getValue_ok _ _ _ Hc))).
    unfold value_at in Hv. rewrite Hc in Hv. simpl in Hv.
    by rewrite (proj2 (Z.eqb_eq _ _) Hv). }
  split; [done|]. by apply retry_return.
Qed.

Lemma X13_Insert_duplicate_ignores_mark_witness :
  Insert_attempt 3 3 mem_marked_linked = Ok (Return false, mem_marked_linked) ∧
  Insert 3 3 mem_marked_linked = Ok (false, mem_marked_linked).
Proof.
  apply (X13_Insert_duplicate_ignores_mark mem_marked_linked
           (IntNode (-1) (Some (Some 1%nat)) None true) [] 1%nat
           (Some 2%nat) 3%nat 3).
  - reflexivity.
  - simpl. eauto.
  - constructor.
  - reflexivity.
  - simpl. lia.
Defined.

(** X14: [Delete] never removes a marked node again.  On every memory
    whose chain ends in nil, [Delete(v)] walks over the nodes that are
    marked or hold less than [v]; if the node it stops at, unmarked and
    not below [v], does not hold [v], or if it reaches nil, it returns
    false without a lock and without a write. *)
Theorem X14_Delete_skips_marked m nr l1 l2 fuel v :
  nodes m !! root (ilist m) = Some nr →
  lseg (nodes m) (next_of nr) (l1 ++ l2) None →
  Forall (λ p, marked_at (nodes m) p = true ∨ value_at (nodes m) p < v) l1 →
  match head l2 with
  | None => True
  | Some c => marked_at (nodes m) c = false ∧ v < value_at (nodes m) c
  end →
  (length l1 < fuel)%nat →
  Delete_attempt fuel v m = Ok (Return false, m) ∧
  Delete fuel v m = Ok (false, m).
Proof.
  intros Hnr Hseg Hl1 Hl2 Hfuel.
  apply lseg_app in Hseg as (mid & Hs1 & Hs2).
  destruct (lseg_head _ _ _ Hs2) as [-> Hsome].
  assert (Hskip : Forall (λ p, skipped (nodes m) v p = true) l1).
  { eapply Forall_impl; [exact Hl1|]. intros p. by rewrite skipped_true. }
  assert (Hto : match head l2 with
                | None => True
                | Some c => is_Some (nodes m !! c)
                            ∧ skipped (nodes m) v c = false
                end).
  { destruct (head l2) as [c|]; [|done]. split; [done|].
    apply skipped_false. destruct Hl2. split; [done|lia]. }
  assert (Hatt : Delete_attempt fuel v m = Ok (Return false, m)).
  { unfold Delete_attempt.
    unfold getRoot at 1, mbind at 1, M_bind at 1.
    rewrite (bind_ok _ _ _ _ _ (next_ok _ _ _ Hnr)).
    rewrite (bind_ok _ _ _ _ _
               (eq_trans (Delete_find_spec m v l1 (head l2) fuel _ _
                            Hs1 Hskip Hto)
                         (decide_True _ _ Hfuel))).
    destruct (head l2) as [c|]; [|done].
    destruct Hsome as [ndc Hc]. destruct Hl2 as [_ Hlt].
    rewrite (bind_ok _ _ _ _ _ (getValue_ok _ _ _ Hc)).
    unfold value_at in Hlt. rewrite Hc in Hlt. simpl in Hlt.
    rewrite (proj2 (Z.eqb_neq (value ndc) v)); [done|lia]. }
  split; [done|]. by apply retry_return.
Qed.

Lemma X14_Delete_skips_marked_witness :
  Delete_attempt 3 3 mem_marked_linked = Ok (Return false, mem_marked_linked) ∧
  Delete 3 3 mem_marked_linked = Ok (false, mem_marked_linked).
Proof.
  apply (X14_Delete_skips_marked mem_marked_linked
           (IntNode (-1) (Some (Some 1%nat)) None true) [1%nat] [2%nat]
           3%nat 3).
  - reflexivity.
  - simpl. eauto 10.
  - repeat constructor.
  - simpl. split; [reflexivity|]. unfold value_at. simpl. lia.
  - simpl. lia.
Defined.

Lemma skipped_prefix h v ps :
  ∃ l1 l2, ps = l1 ++ l2 ∧
    Forall (λ p, skipped h v p = true) l1 ∧
    match head l2 with
    | None => True
    | Some c => skipped h v c = false
    end.
Proof.
  induction ps as [|p ps (l1 & l2 & -> & H1 & H2)].
  { by exists [], []. }
  destruct (skipped h v p) eqn:Hp.
  - exists (p :: l1), l2. split_and!; [done|by constructor|done].
  - by exists [], (p :: l1 ++ l2).
Qed.

(** X15: [Range] does not look at the deleted flag.  On every memory
    whose chain ends in nil, if a node on the chain is marked and no
    other node holds its value, [Range] still shows that value to its
    visitor while [Contains] answers false for it. *)
Theorem X15_Range_shows_marked_nodes m nr l1 c l2 fuel :
  nodes m !! root (ilist m) = Some nr →
  lseg (nodes m) (next_of nr) (l1 ++ c :: l2) None →
  marked_at (nodes m) c = true →
  Forall (λ p, value_at (nodes m) p ≠ value_at (nodes m) c) (l1 ++ l2) →
  (length (l1 ++ c :: l2) < fuel)%nat →
  (∃ vs, Range fuel collect [] m = Ok (vs, m) ∧ value_at (nodes m) c ∈ vs) ∧
  Contains fuel (value_at (nodes m) c) m = Ok (false, m).
Proof.
  intros Hnr Hseg Hc Hother Hfuel. split.
  - exists (value_at (nodes m) <$> l1 ++ c :: l2). split.
    + rewrite (Range_chain collect m nr _ fuel [] Hnr Hseg Hfuel).
      by rewrite visit_collect.
    + rewrite fmap_app, fmap_cons. apply elem_of_app. right. left.
  - destruct (skipped_prefix (nodes m) (value_at (nodes m) c) (l1 ++ c :: l2))
      as (k1 & k2 & Hk & Hk1 & Hk2).
    rewrite Hk in Hseg.
    destruct (Contains_chain m nr k1 k2 _ fuel Hnr Hseg Hk1 Hk2) as [_ ->].
    assert (length k1 ≤ length (l1 ++ c :: l2))%nat
      by (rewrite Hk, length_app; lia).
    rewrite decide_True by lia. do 2 f_equal.
    destruct k2 as [|c' k2]; [done|]. simpl in *.
    apply Z.eqb_neq.
    assert (Hin : c' ∈ l1 ++ c :: l2).
    { rewrite Hk. apply elem_of_app. right. left. }
    apply elem_of_app in Hin as [Hin|Hin].
    + rewrite Forall_forall in Hother. apply Hother, elem_of_app. by left.
    + apply elem_of_cons in Hin as [->|Hin].
      * unfold skipped in Hk2. by rewrite Hc in Hk2.
      * rewrite Forall_forall in Hother. apply Hother, elem_of_app. by right.
Qed.

Lemma X15_Range_shows_marked_nodes_witness :
  (∃ vs, Range 4 collect [] mem_marked_linked = Ok (vs, mem_marked_linked)
         ∧ value_at (nodes mem_marked_linked) 1%nat ∈ vs) ∧
  Contains 4 (value_at (nodes mem_marked_linked) 1%nat) mem_marked_linked
  = Ok (false, mem_marked_linked).
Proof.
  apply (X15_Range_shows_marked_nodes mem_marked_linked
           (IntNode (-1) (Some (Some 1%nat)) None true) [] 1%nat [2%nat]
           4%nat).
  - reflexivity.
  - simpl. eauto 10.
  - reflexivity.
  - repeat constructor. unfold value_at. simpl. lia.
  - simpl. lia.
Defined.

(** ** Beyond the claims: the protocol of a call *)

(** X16: what a call writes to the trace.  From a memory that a history
    of calls leads to, a call that returns false takes no lock and writes
    nothing; an [Insert] that returns true locks one node, sets the next
    pointer of the new node before it links the new node behind the
    locked one, and unlocks; a [Delete] that returns true locks the node
    it removes and then the node before it, marks, unlinks, and unlocks
    in the reverse order. *)
Theorem X16_call_protocol m fuel c b m' :
  reachable m →
  exec fuel c m = Ok (b, m') →
  ∃ evs, trace m' = trace m ++ evs ∧ protocol (nodes m) c b evs.
Proof.
  intros Hreach Hrun. destruct (reachable_inv _ Hreach) as [ps Hinv].
  destruct c as [v|v]; simpl in Hrun.
  - destruct (sorted_split (nodes m) v ps (inv_sorted _ _ Hinv))
      as (l1 & l2 & -> & Hl1 & Hl2).
    rewrite (Insert_spec m l1 l2 v Hinv Hl1 Hl2) in Hrun.
    case_decide; [|done]. case_decide; simplify_eq.
    { exists []. by rewrite app_nil_r. }
    eexists. split; [reflexivity|]. simpl.
    exists (last_from (root (ilist m)) l1), (head l2). split; [|done].
    destruct (attempt_pre m l1 l2 Hinv) as (ndp & Hp & _).
    apply lookup_lt_Some in Hp. lia.
  - destruct (sorted_split (nodes m) v ps (inv_sorted _ _ Hinv))
      as (l1 & l2 & -> & Hl1 & Hl2).
    rewrite (Delete_spec m l1 l2 v Hinv Hl1 Hl2) in Hrun.
    case_decide; [|done].
    destruct (head l2) as [c|] eqn:Hhd; cycle 1.
    { simplify_eq. exists []. by rewrite app_nil_r. }
    case_decide; simplify_eq.
    + eexists. split; [reflexivity|]. simpl.
      exists (last_from (root (ilist m)) l1), c. split_and!; [|done..].
      by apply (attempt_pre_ne m l1 l2 Hinv).
    + exists []. by rewrite app_nil_r.
Qed.

Lemma X16_call_protocol_witness :
  ∃ evs, trace mem_5_1_del3 = trace mem_5_1_3 ++ evs
         ∧ protocol (nodes mem_5_1_3) (CallDelete 3) true evs.
Proof.
  apply (X16_call_protocol mem_5_1_3 4%nat (CallDelete 3) true mem_5_1_del3).
  - apply (run_reachable 4 [CallInsert 5; CallInsert 1; CallInsert 3]
             NewConcurrentIntList [true; true; true]);
      [apply reach_new | reflexivity].
  - reflexivity.
Defined.

(** ** Beyond the claims: nodes and the counter *)

(** X17: what is stored in a node is what is read back.  On an allocated
    node, [updateNext(x)] makes [next()] return [x], nil included, and
    [mark()] makes [marked()] return true; each leaves the other field,
    the value and every other node as they were. *)
Theorem X17_node_round_trips m n nd x :
  nodes m !! n = Some nd →
  (∃ m1, updateNext n x m = Ok ((), m1) ∧
         next n m1 = Ok (x, m1) ∧
         marked n m1 = Ok (marked_of nd, m1) ∧
         getValue n m1 = Ok (value nd, m1) ∧
         ∀ p, p ≠ n → nodes m1 !! p = nodes m !! p) ∧
  (∃ m2, mark n m = Ok ((), m2) ∧
         marked n m2 = Ok (true, m2) ∧
         next n m2 = Ok (next_of nd, m2) ∧
         getValue n m2 = Ok (value nd, m2) ∧
         ∀ p, p ≠ n → nodes m2 !! p = nodes m !! p).
Proof.
  intros Hn. pose proof (lookup_lt_Some _ _ _ Hn) as Hlt. split.
  - eexists. split; [by apply updateNext_ok|].
    match goal with
    | |- context [Mem (<[n := ?nd1]> _) _ _] =>
        assert (H1 : <[n := nd1]> (nodes m) !! n = Some nd1)
          by by apply list_lookup_insert_eq
    end.
    split_and!.
    + by rewrite (next_ok (Mem _ _ _) _ _ H1).
    + by rewrite (marked_ok (Mem _ _ _) _ _ H1).
    + by rewrite (getValue_ok (Mem _ _ _) _ _ H1).
    + intros p Hp. simpl. by apply list_lookup_insert_ne.
  - eexists. split; [by apply mark_ok|].
    match goal with
    | |- context [Mem (<[n := ?nd1]> _) _ _] =>
        assert (H1 : <[n := nd1]> (nodes m) !! n = Some nd1)
          by by apply list_lookup_insert_eq
    end.
    split_and!.
    + by rewrite (marked_ok (Mem _ _ _) _ _ H1).
    + by rewrite (next_ok (Mem _ _ _) _ _ H1).
    + by rewrite (getValue_ok (Mem _ _ _) _ _ H1).
    + intros p Hp. simpl. by apply list_lookup_insert_ne.
Qed.

Lemma X17_node_round_trips_witness :
  (∃ m1, updateNext 2 None mem_5_1_3 = Ok ((), m1) ∧
         next 2 m1 = Ok (None, m1) ∧
         marked 2 m1 = Ok (false, m1) ∧
         getValue 2 m1 = Ok (1, m1) ∧
         ∀ p, p ≠ 2%nat → nodes m1 !! p = nodes mem_5_1_3 !! p) ∧
  (∃ m2, mark 2 mem_5_1_3 = Ok ((), m2) ∧
         marked 2 m2 = Ok (true, m2) ∧
         next 2 m2 = Ok (Some 3%nat, m2) ∧
         getValue 2 m2 = Ok (1, m2) ∧
         ∀ p, p ≠ 2%nat → nodes m2 !! p = nodes mem_5_1_3 !! p).
Proof.
  apply (X17_node_round_trips mem_5_1_3 2%nat
           (IntNode 1 (Some (Some 3%nat)) None false) None).
  reflexivity.
Defined.

(** X18: a new node is blank.  [newIntNode(v)] returns an address that
    was not allocated before; the node there holds [v], reads as not
    marked and as having no successor although nothing was ever stored
    in its two atomic fields, and its mutex is free.  The nodes that
    were there are not touched. *)
Theorem X18_new_node_is_blank m v :
  ∃ p m', newIntNode v m = Ok (p, m') ∧
    nodes m !! p = None ∧
    getValue p m' = Ok (v, m') ∧
    marked p m' = Ok (false, m') ∧
    next p m' = Ok (None, m') ∧
    (∃ m'', Lock p m' = Ok ((), m'')) ∧
    (∀ q nd, nodes m !! q = Some nd → nodes m' !! q = Some nd).
Proof.
  eexists _, _. split; [reflexivity|].
  assert (Hp : (nodes m ++ [IntNode v None None false]) !! length (nodes m)
               = Some (IntNode v None None false)).
  { by rewrite lookup_app_r, Nat.sub_diag by lia. }
  split_and!.
  - apply lookup_ge_None. lia.
  - by rewrite (getValue_ok (Mem _ _ _) _ _ Hp).
  - by rewrite (marked_ok (Mem _ _ _) _ _ Hp).
  - by rewrite (next_ok (Mem _ _ _) _ _ Hp).
  - eexists. by apply (Lock_ok (Mem _ _ _) _ _ Hp).
  - intros q nd Hq. simpl. by apply lookup_app_l_Some.
Qed.

(** X19: the counter is a 64-bit integer that wraps.  From a counter in
    the int64 range, [sizeIncr] followed by [sizeDecr], and [sizeDecr]
    followed by [sizeIncr], give back the counter that [Len] read
    before, also at the two ends of the range, where the step in
    between wraps around; and the counter never leaves the range. *)
Theorem X19_counter_round_trip m :
  - 2 ^ 63 ≤ size (ilist m) < 2 ^ 63 →
  (sizeIncr;; sizeDecr;; Len) m = Ok (size (ilist m), m) ∧
  (sizeDecr;; sizeIncr;; Len) m = Ok (size (ilist m), m) ∧
  ∃ n m', (sizeIncr;; Len) m = Ok (n, m') ∧
    - 2 ^ 63 ≤ n < 2 ^ 63 ∧
    n = (if decide (size (ilist m) = 2 ^ 63 - 1) then - 2 ^ 63
         else size (ilist m) + 1) ∧
    nodes m' = nodes m ∧ trace m' = trace m.
Proof.
  intros Hs. destruct m as [h [r s] tr]. simpl in *.
  assert (Hrt : ∀ a b, a + b = 0 → wrap64 (wrap64 (s + a) + b) = s).
  { intros a b Hab. rewrite wrap64_add.
    replace (s + a + b) with s by lia. by apply wrap64_small. }
  split_and!.
  - unfold sizeIncr, sizeDecr, sizeAdd, Len, mbind, M_bind. simpl.
    by rewrite Hrt.
  - unfold sizeIncr, sizeDecr, sizeAdd, Len, mbind, M_bind. simpl.
    by rewrite Hrt.
  - eexists _, _. split; [reflexivity|]. simpl.
    split_and!; [apply wrap64_range..| |done|done].
    case_decide as Hmax.
    + subst s. unfold wrap64.
      replace (2 ^ 63 - 1 + 1 + 2 ^ 63) with (1 * 2 ^ 64).
      * by rewrite Z.mod_mul.
      * change (2 ^ 64) with (2 * 2 ^ 63). lia.
    + apply wrap64_small. lia.
Qed.

Lemma X19_counter_round_trip_witness :
  (sizeIncr;; sizeDecr;; Len) mem_5_1_3
  = Ok (size (ilist mem_5_1_3), mem_5_1_3) ∧
  (sizeDecr;; sizeIncr;; Len) mem_5_1_3
  = Ok (size (ilist mem_5_1_3), mem_5_1_3) ∧
  ∃ n m', (sizeIncr;; Len) mem_5_1_3 = Ok (n, m') ∧
    - 2 ^ 63 ≤ n < 2 ^ 63 ∧
    n = (if decide (size (ilist mem_5_1_3) = 2 ^ 63 - 1) then - 2 ^ 63
         else size (ilist mem_5_1_3) + 1) ∧
    nodes m' = nodes mem_5_1_3 ∧ trace m' = trace mem_5_1_3.
Proof.
  apply (X19_counter_round_trip mem_5_1_3). simpl. lia.
Defined.

(** X20: a new list is empty.  On the list that [NewConcurrentIntList]
    returns, whose sentinel never had a successor stored, [Contains] and
    [Delete] answer false for every value and change nothing, [Len] is
    0, [Range] never calls its visitor, and [Insert] of any value, the
    sentinel's own included, returns true and makes that value the only
    one [Range] shows. *)
Theorem X20_new_list_is_empty fuel v :
  Contains (S fuel) v NewConcurrentIntList = Ok (false, NewConcurrentIntList) ∧
  Delete (S fuel) v NewConcurrentIntList = Ok (false, NewConcurrentIntList) ∧
  Len NewConcurrentIntList = Ok (0, NewConcurrentIntList) ∧
  (∀ A (f : Z → A → bool * A) acc,
     Range (S fuel) f acc NewConcurrentIntList
     = Ok (acc, NewConcurrentIntList)) ∧
  ∃ m', Insert (S fuel) v NewConcurrentIntList = Ok (true, m') ∧
        Range (S (S fuel)) collect [] m' = Ok ([v], m') ∧
        Len m' = Ok (1, m').
Proof.
  split_and!; try reflexivity.
  eexists. split_and!; reflexivity.
Qed.
